(** * Monte Carlo Tree Search bot ([src/mcts_modified.py])

    A shallow embedding of the search core: the node store with parent
    back-references, UCB scoring, tree descent, expansion, the weighted
    rollout, backpropagation and the search driver, followed by the
    properties of the specification established against it. *)

From Stdlib Require Import ZArith Reals Lra Lia.
From Stdlib Require Import Floats.SpecFloat.
From stdpp Require Import base tactics option list numbers relations.

Set Default Proof Using "Type".
Open Scope Z_scope.

(** ** Outcomes of running Python code *)

(** The exceptions the modelled code can raise. *)
Inductive exn : Type :=
  | IndexError       (* pop from an empty list, choice on an empty sequence *)
  | ValueError       (* math domain error, max() of an empty sequence *)
  | KeyError         (* missing dictionary key *)
  | AssertionError   (* failed assert *)
  | AttributeError   (* attribute access on None *)
  | TypeError        (* None handed to the engine as an action *)
  | OverflowError    (* an int too large for a float *)
  | ZeroDivisionError. (* division by zero *)

(** A run returns a value, raises, exhausts the loop budget of the model
    (the Python loop would still be running), or follows a reference that
    the store does not hold (impossible for Python object references). *)
Inductive result (A : Type) : Type :=
  | Ok (a : A)
  | Raise (e : exn)
  | OutOfFuel
  | BadRef.
Arguments Ok {A} a.
Arguments Raise {A} e.
Arguments OutOfFuel {A}.
Arguments BadRef {A}.

#[global] Instance result_ret : MRet result := λ A a, Ok a.
#[global] Instance result_bind : MBind result := λ A B k m,
  match m with
  | Ok a => k a
  | Raise e => Raise e
  | OutOfFuel => OutOfFuel
  | BadRef => BadRef
  end.

(** [mapM]: evaluate [f] on every element, left to right, stopping at the
    first failure. *)
Fixpoint mapM {A B} (f : A → result B) (l : list A) : result (list B) :=
  match l with
  | [] => Ok []
  | x :: l' => y ← f x ; ys ← mapM f l' ; Ok (y :: ys)
  end.

(** The run fails the assertion of [is_win]. *)
Definition asserts {A} (m : result A) : Prop := m = Raise AssertionError.

(** ** Floating-point scores *)

(** A Python float as the code uses it: [float('inf')] or a finite value,
    the finite values idealised as real numbers.  Rounding and the range
    of a float are the matter of [Binary64] below, where the scores and
    the descent are given over IEEE 754 doubles. *)
Inductive pyfloat : Type :=
  | PInf
  | Fin (x : R).

(** [a > b] on floats. *)
Definition float_gt (a b : pyfloat) : bool :=
  match a, b with
  | PInf, PInf => false
  | PInf, Fin _ => true
  | Fin _, PInf => false
  | Fin x, Fin y => if Rlt_dec y x then true else false
  end.

(** [math.log] on an int: a domain error unless the argument is positive. *)
Definition math_log (n : Z) : result R :=
  if decide (0 < n) then Ok (ln (IZR n)) else Raise ValueError.

(** [math.sqrt]: a domain error on a negative argument. *)
Definition math_sqrt (x : R) : result R :=
  if Rlt_dec x 0 then Raise ValueError else Ok (sqrt x).

(** ** Actions, the game engine, tree nodes *)

(** An action is a 4-tuple; the rollout reads its last two components as
    the target cell of the 3x3 local grid. *)
Definition Action : Type := Z * Z * Z * Z.

(** Modelled from the spec: the [Board] class of [p2_t3] is not part of
    the sources; these are the five operations the search consumes,
    as pure functions of an opaque state.  [points_values] is [None] on a
    state without an outcome, otherwise a mapping from player identity to
    outcome value. *)
Record Board (State : Type) : Type := {
  current_player : State → Z;
  legal_actions : State → list Action;
  next_state : State → Action → State;
  is_ended : State → bool;
  points_values : State → option (Z → option Z);
}.
Arguments current_player {State}.
Arguments legal_actions {State}.
Arguments next_state {State}.
Arguments is_ended {State}.
Arguments points_values {State}.

(** References to nodes are indices into the store. *)
Abbreviation ref := nat (only parsing).

(** Modelled from the spec: the [MCTSNode] class of [mcts_node] is not
    part of the sources.  A node has a parent back-reference (none at the
    root), the action that produced it, its children keyed by action in
    insertion order, the stack of untried actions, and the two counters. *)
Record MCTSNode : Type := mkNode {
  parent : option ref;
  parent_action : option Action;
  child_nodes : list (Action * ref);
  untried_actions : list Action;
  wins : Z;
  visits : Z;
}.

(** Modelled from the spec: the constructor
    [MCTSNode(parent, parent_action, action_list)]: no children, the
    given actions untried, both counters zero. *)
Definition new_node (p : option ref) (a : option Action)
    (action_list : list Action) : MCTSNode :=
  mkNode p a [] action_list 0 0.

(** The store holds every node created during a search call; a node is
    shared through its reference, so an update is seen by its parent's
    children mapping and by its children's back-references alike. *)
Abbreviation store := (list MCTSNode) (only parsing).

Definition deref (σ : store) (r : ref) : result MCTSNode :=
  match σ !! r with
  | Some n => Ok n
  | None => BadRef
  end.

(** ** Module constants *)

Definition num_nodes : nat := 1000.
Definition explore_faction : R := 2%R.

(** ** [ucb] *)

Definition ucb (σ : store) (node : ref) (is_opponent : bool) : result pyfloat :=
  n ← deref σ node ;
  if decide (visits n = 0) then Ok PInf else
  let ratio := (IZR (wins n) / IZR (visits n))%R in
  let win_rate := if is_opponent then (1 - ratio)%R else ratio in
  p ← match parent n with
      | None => Raise AttributeError
      | Some r => deref σ r
      end ;
  l ← math_log (visits p) ;
  s ← math_sqrt (l / IZR (visits n)) ;
  Ok (Fin (win_rate + explore_faction * s)).

(** ** Python containers *)

(** Truth value of a list or dict: non-empty. *)
Definition truthy {A} (l : list A) : bool :=
  match l with [] => false | _ :: _ => true end.

(** [l.pop()] on the list of untried actions: remove and return the last
    element. *)
Definition list_pop {A} (l : list A) : option (list A * A) :=
  match last l with
  | Some x => Some (removelast l, x)
  | None => None
  end.

(** [d[k] = v] on a dict in insertion order: an existing key keeps its
    position, a new key goes last. *)
Fixpoint dict_set (d : list (Action * ref)) (k : Action) (v : ref)
    : list (Action * ref) :=
  match d with
  | [] => [(k, v)]
  | (k', v') :: d' =>
      if decide (k' = k) then (k, v) :: d' else (k', v') :: dict_set d' k v
  end.

(** [d.get(k)]: the value stored under a key, if any. *)
Fixpoint dict_get (d : list (Action * ref)) (k : Action) : option ref :=
  match d with
  | [] => None
  | (k', v) :: d' => if decide (k' = k) then Some v else dict_get d' k
  end.

Definition dict_keys (d : list (Action * ref)) : list Action := d.*1.
Definition dict_values (d : list (Action * ref)) : list ref := d.*2.

(** [max(iterable, key=...)] over items already paired with their keys:
    the running best is replaced only by a strictly greater key, so the
    first maximal item wins; an empty iterable is a [ValueError]. *)
Fixpoint max_from {A K} (gt : K → K → bool) (best : A * K) (l : list (A * K))
    : A :=
  match l with
  | [] => best.1
  | item :: l' =>
      if gt item.2 best.2 then max_from gt item l' else max_from gt best l'
  end.

Definition py_max {A K} (gt : K → K → bool) (l : list (A * K)) : result A :=
  match l with
  | [] => Raise ValueError
  | first :: l' => Ok (max_from gt first l')
  end.

(** The random generator: the stream of raw draws still to come.
    [choice(seq)] is [seq[randbelow(len(seq))]], an [IndexError] on an
    empty sequence. *)
Abbreviation Rng := (nat → nat) (only parsing).

Definition randbelow (n : nat) (g : Rng) : nat * Rng :=
  ((g 0%nat mod n)%nat, λ k, g (S k)).

Definition choice {A} (seq : list A) (g : Rng) : result (A * Rng) :=
  match seq with
  | [] => Raise IndexError
  | _ :: _ =>
      let '(i, g') := randbelow (length seq) g in
      match seq !! i with
      | Some x => Ok (x, g')
      | None => Raise IndexError
      end
  end.

(** Field updates. *)
Definition set_visits (n : MCTSNode) (v : Z) : MCTSNode :=
  mkNode (parent n) (parent_action n) (child_nodes n) (untried_actions n)
         (wins n) v.
Definition set_wins (n : MCTSNode) (w : Z) : MCTSNode :=
  mkNode (parent n) (parent_action n) (child_nodes n) (untried_actions n)
         w (visits n).
Definition set_untried (n : MCTSNode) (u : list Action) : MCTSNode :=
  mkNode (parent n) (parent_action n) (child_nodes n) u (wins n) (visits n).
Definition set_children (n : MCTSNode) (d : list (Action * ref)) : MCTSNode :=
  mkNode (parent n) (parent_action n) d (untried_actions n) (wins n) (visits n).

(** ** The rollout weighting *)

(** The copies of one action in the weighted list: five for the centre
    cell, three for a corner, one otherwise. *)
Definition weighted_copies (action : Action) : list Action :=
  let '(_, _, r, c) := action in
  if decide ((r, c) = (1, 1)) then replicate 5 action
  else if bool_decide (r ∈ [0; 2]) && bool_decide (c ∈ [0; 2]) then replicate 3 action
  else [action].

(** The [for action in actions] loop building [weighted_actions]. *)
Fixpoint weighted_actions (actions : list Action) : list Action :=
  match actions with
  | [] => []
  | action :: rest => weighted_copies action ++ weighted_actions rest
  end.

(** ** [backpropagate] *)

Fixpoint backpropagate (fuel : nat) (σ : store) (node : option ref)
    (won : bool) : result store :=
  match node with
  | None => Ok σ
  | Some r =>
      match fuel with
      | O => OutOfFuel
      | S fuel' =>
          n ← deref σ r ;
          let σ1 := <[r := set_visits n (visits n + 1)]> σ in
          n1 ← deref σ1 r ;
          let σ2 := <[r := set_wins n1 (wins n1 + Z.b2z won)]> σ1 in
          n2 ← deref σ2 r ;
          backpropagate fuel' σ2 (parent n2) won
      end
  end.

(** ** [get_best_action] *)

Definition get_best_action (σ : store) (root_node : ref) : result Action :=
  root ← deref σ root_node ;
  keyed ← mapM (λ item : Action * ref,
                  child ← deref σ item.2 ; Ok (item, visits child))
               (child_nodes root) ;
  best ← py_max Z.gtb keyed ;
  Ok best.1.

(** ** Notions of the specification *)

(** One backpropagation visit of a node: a visit more, and a win more when
    the simulation was won. *)
Definition bump (won : bool) (n : MCTSNode) : MCTSNode :=
  set_wins (set_visits n (visits n + 1)) (wins n + Z.b2z won).

(** The visit count behind a reference. *)
Definition visits_of (σ : store) (r : ref) : Z :=
  from_option visits 0 (σ !! r).

(** The number of copies of an action in a list. *)
Definition copies (a : Action) (l : list Action) : nat :=
  length (filter (λ x, x = a) l).

(** The path of parent back-references from a node (or from none) up to a
    node without parent, both ends included. *)
Inductive parent_chain (σ : store) : option ref → list ref → Prop :=
  | chain_none : parent_chain σ None []
  | chain_some r n path :
      σ !! r = Some n →
      parent_chain σ (parent n) path →
      parent_chain σ (Some r) (r :: path).

(** The weight the specification gives to an action: 5 for the centre
    cell (1, 1), 3 for a corner cell, 1 for an edge cell. *)
Definition weight (action : Action) : nat :=
  let '(_, _, r, c) := action in
  if bool_decide (r = 1 ∧ c = 1) then 5%nat
  else if bool_decide ((r = 0 ∨ r = 2) ∧ (c = 0 ∨ c = 2)) then 3%nat
  else 1%nat.

(** [a <= b] on floats. *)
Definition float_le (a b : pyfloat) : Prop :=
  match a, b with
  | _, PInf => True
  | PInf, Fin _ => False
  | Fin x, Fin y => (x <= y)%R
  end.

(** [a < b] on floats. *)
Definition float_lt (a b : pyfloat) : Prop :=
  match a, b with
  | Fin _, PInf => True
  | Fin x, Fin y => (x < y)%R
  | PInf, _ => False
  end.

(** [child] is one of [children] and no other has a greater score. *)
Definition max_ucb_child (σ : store) (flag : bool) (children : list ref)
    (child : ref) : Prop :=
  child ∈ children ∧
  ∃ best, ucb σ child flag = Ok best ∧
    ∀ c, c ∈ children → ∃ score, ucb σ c flag = Ok score ∧ float_le score best.

(** The win rate the specification names, from the given perspective. *)
Definition win_rate (n : MCTSNode) (is_opponent : bool) : R :=
  if is_opponent then (1 - IZR (wins n) / IZR (visits n))%R
  else (IZR (wins n) / IZR (visits n))%R.

(** Shape of the store: the root comes first and has no parent, every
    other node refers back to an older node, and every entry of a
    children mapping leads to a node that refers back to the owner of the
    mapping under the same action. *)
Record shape_ok (σ : store) : Prop := {
  shape_root : ∃ r, σ !! 0%nat = Some r ∧ parent r = None;
  shape_parent : ∀ c cn, σ !! c = Some cn → c ≠ 0%nat →
      ∃ p, parent cn = Some p ∧ (p < c)%nat;
  shape_child : ∀ i n a c, σ !! i = Some n → (a, c) ∈ child_nodes n →
      ∃ cn, σ !! c = Some cn ∧ parent cn = Some i ∧ parent_action cn = Some a;
}.

(** The counters of every node: [0 <= wins <= visits]. *)
Definition counters_ok (σ : store) : Prop :=
  ∀ i n, σ !! i = Some n → 0 ≤ wins n ≤ visits n.

(** No node has more visits than its parent. *)
Definition visits_ok (σ : store) : Prop :=
  ∀ c cn p pn, σ !! c = Some cn → parent cn = Some p → σ !! p = Some pn →
    visits cn ≤ visits pn.

(** Every node with a parent is registered in the children of that
    parent under its [parent_action]. *)
Definition registered_ok (σ : store) : Prop :=
  ∀ c cn p a, σ !! c = Some cn → parent cn = Some p →
    parent_action cn = Some a →
    ∃ pn, σ !! p = Some pn ∧ a ∈ dict_keys (child_nodes pn).

(** [σ'] still has every node of [σ], with the same back-reference. *)
Definition keeps_links (σ σ' : store) : Prop :=
  ∀ j nj, σ !! j = Some nj →
    ∃ nj', σ' !! j = Some nj' ∧
      parent nj' = parent nj ∧ parent_action nj' = parent_action nj.

(** [σ'] still has every node of [σ], and no counter has gone down. *)
Definition counters_grow (σ σ' : store) : Prop :=
  ∀ j nj, σ !! j = Some nj →
    ∃ nj', σ' !! j = Some nj' ∧
      wins nj ≤ wins nj' ∧ visits nj ≤ visits nj'.

(** ** The operations that consult the game engine *)

Section Search.
Context {State : Type} (board : Board State).

(** The opponent flag [bot_identity != board.current_player(state)]. *)
Definition opponent_flag (bot_identity : Z) (state : State) : bool :=
  negb (bool_decide (bot_identity = current_player board state)).

(** [board.next_state(state, node.parent_action)]: the root's
    [parent_action] is [None], which is not an action. *)
Definition next_state_opt (state : State) (a : option Action)
    : result State :=
  match a with
  | Some a => Ok (next_state board state a)
  | None => Raise TypeError
  end.

(** [traverse_nodes]; [fuel] bounds the iterations of the [while]. *)
Fixpoint traverse_nodes (fuel : nat) (σ : store) (node : ref)
    (state : State) (bot_identity : Z) : result (ref * State) :=
  n ← deref σ node ;
  if negb (truthy (untried_actions n)) && truthy (child_nodes n) then
    match fuel with
    | O => OutOfFuel
    | S fuel' =>
        keyed ← mapM (λ child : ref,
                        score ← ucb σ child (opponent_flag bot_identity state) ;
                        Ok (child, score))
                     (dict_values (child_nodes n)) ;
        node' ← py_max float_gt keyed ;
        n' ← deref σ node' ;
        state' ← next_state_opt state (parent_action n') ;
        traverse_nodes fuel' σ node' state' bot_identity
    end
  else Ok (node, state).

(** [expand_leaf]: the new child takes the next free reference. *)
Definition expand_leaf (σ : store) (node : ref) (state : State)
    : result (store * ref * State) :=
  n ← deref σ node ;
  match list_pop (untried_actions n) with
  | None => Raise IndexError
  | Some (rest, action) =>
      let σ1 := <[node := set_untried n rest]> σ in
      let next := next_state board state action in
      let child_node := length σ1 in
      let σ2 := σ1 ++ [new_node (Some node) (Some action)
                                (legal_actions board next)] in
      n2 ← deref σ2 node ;
      let σ3 := <[node := set_children n2
                    (dict_set (child_nodes n2) action child_node)]> σ2 in
      Ok (σ3, child_node, next)
  end.

(** [rollout]; [fuel] bounds the iterations of the [while]. *)
Fixpoint rollout (fuel : nat) (state : State) (g : Rng)
    : result (State * Rng) :=
  if is_ended board state then Ok (state, g) else
  let actions := legal_actions board state in
  if negb (truthy actions) then Ok (state, g) else
  match fuel with
  | O => OutOfFuel
  | S fuel' =>
      '(action, g') ← choice (weighted_actions actions) g ;
      rollout fuel' (next_state board state action) g'
  end.

(** [is_win] *)
Definition is_win (state : State) (identity_of_bot : Z) : result bool :=
  match points_values board state with
  | None => Raise AssertionError
  | Some outcome =>
      match outcome identity_of_bot with
      | None => Raise KeyError
      | Some v => Ok (bool_decide (v = 1))
      end
  end.

(** The root is the first node of the store. *)
Definition root_node : ref := 0%nat.

(** One pass of the body of the [for] loop of [think]. *)
Definition think_step (fuel : nat) (current_state : State)
    (bot_identity : Z) (σ : store) (g : Rng) : result (store * Rng) :=
  '(node, state) ← traverse_nodes fuel σ root_node current_state bot_identity ;
  n ← deref σ node ;
  '(σ1, node1, state1) ←
    (if truthy (untried_actions n) then expand_leaf σ node state
     else Ok (σ, node, state)) ;
  '(final_state, g') ← rollout fuel state1 g ;
  won ← is_win final_state bot_identity ;
  σ2 ← backpropagate fuel σ1 (Some node1) won ;
  Ok (σ2, g').

(** [for _ in range(budget)] *)
Fixpoint think_loop (budget : nat) (fuel : nat) (current_state : State)
    (bot_identity : Z) (σ : store) (g : Rng) : result (store * Rng) :=
  match budget with
  | O => Ok (σ, g)
  | S budget' =>
      '(σ', g') ← think_step fuel current_state bot_identity σ g ;
      think_loop budget' fuel current_state bot_identity σ' g'
  end.

(** The store [think] starts from: the root alone. *)
Definition init_store (current_state : State) : store :=
  [new_node None None (legal_actions board current_state)].

(** The tree [think] has built when its loop is over, for a budget of
    [budget] iterations. *)
Definition think_tree (budget : nat) (fuel : nat) (current_state : State)
    (g : Rng) : result (store * Rng) :=
  let bot_identity := current_player board current_state in
  think_loop budget fuel current_state bot_identity
             (init_store current_state) g.

(** [think] with the budget as a parameter; the diagnostic [print] has
    no effect on the result. *)
Definition think_with (budget : nat) (fuel : nat) (current_state : State)
    (g : Rng) : result Action :=
  '(σ, _) ← think_tree budget fuel current_state g ;
  get_best_action σ root_node.

(** [think] *)
Definition think (fuel : nat) (current_state : State) (g : Rng)
    : result Action :=
  think_with num_nodes fuel current_state g.

(** *** Notions of the specification that mention the engine *)

(** The state a node stands for: the state of the search call at a node
    without parent, and the engine's transition along [parent_action]
    below it. *)
Inductive represents (current_state : State) (σ : store)
    : ref → State → Prop :=
  | rep_root r n :
      σ !! r = Some n → parent n = None →
      represents current_state σ r current_state
  | rep_child r n p a s :
      σ !! r = Some n → parent n = Some p → parent_action n = Some a →
      represents current_state σ p s →
      represents current_state σ r (next_state board s a).

(** One step of the descent as the specification words it: the node
    has no untried action and at least one child, the child chosen
    maximises the score with the flag taken at the state before the
    move, and the state advances along the child's [parent_action]. *)
Inductive descent_step (σ : store) (bot_identity : Z)
    : ref * State → ref * State → Prop :=
  | descent_intro node n state child cn a :
      σ !! node = Some n →
      untried_actions n = [] →
      child_nodes n ≠ [] →
      max_ucb_child σ (opponent_flag bot_identity state)
                    (dict_values (child_nodes n)) child →
      σ !! child = Some cn →
      parent_action cn = Some a →
      descent_step σ bot_identity (node, state)
                   (child, next_state board state a).

(** Where the descent stops. *)
Definition descent_stop (σ : store) (node : ref) : Prop :=
  ∃ n, σ !! node = Some n ∧ (untried_actions n ≠ [] ∨ child_nodes n = []).

(** Every node splits the legal actions of its state between the
    untried stack and, in the order they were popped, the keys of its
    children. *)
Definition actions_ok (current_state : State) (σ : store) : Prop :=
  ∀ i n, σ !! i = Some n →
    ∃ s, represents current_state σ i s ∧
      untried_actions n ++ reverse (dict_keys (child_nodes n))
      = legal_actions board s.

(** What a search call does to the store, one step at a time: it
    expands a node at the state the node stands for, or
    backpropagation visits a node. *)
Inductive search_step (current_state : State) : store → store → Prop :=
  | step_expand σ node state σ' child state' :
      represents current_state σ node state →
      expand_leaf σ node state = Ok (σ', child, state') →
      search_step current_state σ σ'
  | step_visit σ r n won :
      σ !! r = Some n →
      search_step current_state σ (<[r := bump won n]> σ).

(** The stores a search call can be in. *)
Definition search_point (current_state : State) (σ : store) : Prop :=
  rtc (search_step current_state) (init_store current_state) σ.

(** *** Assumptions on the engine *)

(** The legal actions of a state form a set. *)
Definition legal_nodup : Prop :=
  ∀ s, NoDup (legal_actions board s).

(** A move: the transition along a legal action. *)
Definition move (s' s : State) : Prop :=
  ∃ a, a ∈ legal_actions board s ∧ s' = next_state board s a.

(** Every play is finite. *)
Definition finite_play : Prop := well_founded move.

(** No legal action is left exactly in the ended states. *)
Definition empty_iff_ended : Prop :=
  ∀ s, legal_actions board s = [] ↔ is_ended board s = true.

(** An ended state has an outcome. *)
Definition outcome_when_ended : Prop :=
  ∀ s, is_ended board s = true → points_values board s ≠ None.

(** An outcome gives a value to the player [p]. *)
Definition outcome_covers (p : Z) : Prop :=
  ∀ s outcome, points_values board s = Some outcome →
    is_Some (outcome p).

(** What holds of the store between two passes of the driver. *)
Record search_inv (current_state : State) (σ : store) : Prop := {
  inv_shape : shape_ok σ;
  inv_counters : counters_ok σ;
  inv_visits : visits_ok σ;
  inv_actions : actions_ok current_state σ;
  inv_registered : registered_ok σ;
}.

End Search.

(** ** A small engine and small trees to run the definitions on *)

(** Nine cells of one local grid, the centre first. *)
Definition cells : list Action :=
  [ (0, 0, 1, 1); (0, 0, 0, 0); (0, 0, 0, 1); (0, 0, 0, 2); (0, 0, 1, 0);
    (0, 0, 1, 2); (0, 0, 2, 0); (0, 0, 2, 1); (0, 0, 2, 2) ].

(** A countdown game: the state is the number of moves left, a move
    takes one of the first cells and leaves one move less; player 1 wins
    every finished game. *)
Definition countdown : Board nat := {|
  current_player s := if Nat.even s then 1 else 2;
  legal_actions s := take s cells;
  next_state s _ := Nat.pred s;
  is_ended s := bool_decide (s = 0%nat);
  points_values s :=
    if bool_decide (s = 0%nat)
    then Some (λ p, if bool_decide (p = 1) then Some 1
                    else if bool_decide (p = 2) then Some (-1) else None)
    else None;
|}.

(** The tree of a search call on the countdown game from two moves
    left, after one pass of the driver and after two. *)
Definition first_tree : store :=
  [ mkNode None None [((0, 0, 0, 0), 1%nat)] [(0, 0, 1, 1)] 1 1;
    mkNode (Some 0%nat) (Some (0, 0, 0, 0)) [] [(0, 0, 1, 1)] 1 1 ].

Definition small_tree : store :=
  [ mkNode None None [((0, 0, 0, 0), 1%nat); ((0, 0, 1, 1), 2%nat)] [] 2 2;
    mkNode (Some 0%nat) (Some (0, 0, 0, 0)) [] [(0, 0, 1, 1)] 1 1;
    mkNode (Some 0%nat) (Some (0, 0, 1, 1)) [] [(0, 0, 1, 1)] 1 1 ].

(** The scenario of the specification: children [a], [b], [c] with 2, 7
    and 1 visits. *)
Definition act_a : Action := (0, 0, 0, 0).
Definition act_b : Action := (0, 0, 0, 1).
Definition act_c : Action := (0, 0, 0, 2).
Definition scenario_tree : store :=
  [ mkNode None None [(act_a, 1%nat); (act_b, 2%nat); (act_c, 3%nat)] [] 4 10;
    mkNode (Some 0%nat) (Some act_a) [] [] 1 2;
    mkNode (Some 0%nat) (Some act_b) [] [] 3 7;
    mkNode (Some 0%nat) (Some act_c) [] [] 0 1 ].


(** The tree of a search call on the countdown game from one move left,
    after its first pass: the only action is tried and the child stands
    for the finished game. *)
Definition full_tree : store :=
  [ mkNode None None [((0, 0, 1, 1), 1%nat)] [] 0 1;
    mkNode (Some 0%nat) (Some (0, 0, 1, 1)) [] [] 0 1 ].

(** ** Further notions for the properties of the search tree *)

(** Every node but the root has been visited. *)
Definition visited_ok (σ : store) : Prop :=
  ∀ c cn, σ !! c = Some cn → c ≠ 0%nat → 1 ≤ visits cn.

(** The visits of the children in a children mapping, added up. *)
Definition child_visits (σ : store) (d : list (Action * ref)) : Z :=
  foldr (λ item acc, visits_of σ item.2 + acc) 0 d.

(** Every node but the root is the value stored under its
    [parent_action] in the children of its parent, and no node is stored
    twice in a children mapping. *)
Definition owned_ok (σ : store) : Prop :=
  (∀ c cn, σ !! c = Some cn → c ≠ 0%nat →
     ∃ p a pn, parent cn = Some p ∧ parent_action cn = Some a ∧
       σ !! p = Some pn ∧ (a, c) ∈ child_nodes pn) ∧
  (∀ i n, σ !! i = Some n → NoDup (dict_values (child_nodes n))).

(** The visits of a node that has a legal action are those of its
    children, and one more for the pass that created it unless it is the
    root. *)
Definition tally_ok (σ : store) : Prop :=
  ∀ i n, σ !! i = Some n →
    untried_actions n ≠ [] ∨ child_nodes n ≠ [] →
    visits n = (if decide (i = 0%nat) then 0 else 1)
               + child_visits σ (child_nodes n).

(** [σ'] still has every node of [σ], with at least as many children. *)
Definition children_grow (σ σ' : store) : Prop :=
  ∀ j nj, σ !! j = Some nj →
    ∃ nj', σ' !! j = Some nj' ∧
      (length (child_nodes nj) ≤ length (child_nodes nj'))%nat.

(** The ways a pass of the loop body of the driver can end: with a
    store, still running, or on one of the two failures of [is_win]. *)
Definition pass_outcome {A} (m : result A) : Prop :=
  (∃ a, m = Ok a) ∨ m = OutOfFuel ∨
  m = Raise AssertionError ∨ m = Raise KeyError.

(** ** Scores in binary64 *)

(** The scores as the interpreter computes them.  A Python float is an
    IEEE 754 binary64 number; its arithmetic is the one the Standard
    Library specifies in [SpecFloat], at 53 bits of precision with the
    exponent bound 1024, every operation rounded to nearest, ties to
    even.  The descent compares these scores, so [ucb] and
    [traverse_nodes] are given here once more over them: what is stated
    of a score, and of the child a descent takes, is stated of these. *)
Module Binary64.

Definition prec : Z := 53.
Definition emax : Z := 1024.

(** [float('inf')], the float [1.0] that the int [1] becomes next to a
    float, and the module constant [explore_faction = 2.]. *)
Definition inf : spec_float := S754_infinity false.
Definition one : spec_float := S754_finite false 4503599627370496 (-52).
Definition explore_faction : spec_float :=
  S754_finite false 4503599627370496 (-51).

(** An int as the number it is, before any rounding. *)
Definition exact_int (n : Z) : spec_float :=
  match n with
  | 0 => S754_zero false
  | Z.pos p => S754_finite false p 0
  | Z.neg p => S754_finite true p 0
  end.

(** The conversion of an int operand of a float operation: the nearest
    float, an [OverflowError] when that is out of range. *)
Definition float_of_int (n : Z) : result spec_float :=
  match binary_normalize prec emax n 0 false with
  | S754_infinity _ => Raise OverflowError
  | x => Ok x
  end.

(** [a / b] on ints: the quotient rounded once, a [ZeroDivisionError] on
    a zero divisor, an [OverflowError] when the quotient is out of
    range. *)
Definition int_truediv (a b : Z) : result spec_float :=
  if decide (b = 0) then Raise ZeroDivisionError else
  match SFdiv prec emax (exact_int a) (exact_int b) with
  | S754_infinity _ => Raise OverflowError
  | x => Ok x
  end.

(** [x / n] for a float [x] and an int [n]: the int is converted first. *)
Definition float_div_int (x : spec_float) (n : Z) : result spec_float :=
  y ← float_of_int n ;
  match y with
  | S754_zero _ => Raise ZeroDivisionError
  | _ => Ok (SFdiv prec emax x y)
  end.

(** [math.sqrt]: a domain error on a negative argument. *)
Definition math_sqrt (x : spec_float) : result spec_float :=
  match x with
  | S754_finite true _ _ | S754_infinity true => Raise ValueError
  | _ => Ok (SFsqrt prec emax x)
  end.

(** [a > b] on floats; false as soon as one of them is not a number. *)
Definition float_gt (a b : spec_float) : bool := SFltb b a.

Section Scores.

(** The value of [math.log] on a positive int.  The language leaves it
    to the platform's mathematical library, so it is a parameter. *)
Variable log : Z → spec_float.

(** [math.log] on an int: a domain error unless the argument is
    positive. *)
Definition math_log (n : Z) : result spec_float :=
  if decide (0 < n) then Ok (log n) else Raise ValueError.

(** [ucb] *)
Definition ucb (σ : store) (node : ref) (is_opponent : bool)
    : result spec_float :=
  n ← deref σ node ;
  if decide (visits n = 0) then Ok inf else
  ratio ← int_truediv (wins n) (visits n) ;
  let win_rate := if is_opponent then SFsub prec emax one ratio else ratio in
  p ← match parent n with
      | None => Raise AttributeError
      | Some r => deref σ r
      end ;
  l ← math_log (visits p) ;
  q ← float_div_int l (visits n) ;
  s ← math_sqrt q ;
  Ok (SFadd prec emax win_rate (SFmul prec emax explore_faction s)).

(** The score the specification names, for a node and its parent: the
    win rate of the perspective plus the exploration term, with the
    quotient of the two counters and the visits of the node as the
    floats nearest to them. *)
Definition win_rate (n : MCTSNode) (is_opponent : bool) : spec_float :=
  let ratio := SFdiv prec emax (exact_int (wins n)) (exact_int (visits n)) in
  if is_opponent then SFsub prec emax one ratio else ratio.

Definition exploration (n pn : MCTSNode) : spec_float :=
  SFmul prec emax explore_faction
    (SFsqrt prec emax
       (SFdiv prec emax (log (visits pn))
          (binary_normalize prec emax (visits n) 0 false))).

Definition score (n pn : MCTSNode) (is_opponent : bool) : spec_float :=
  SFadd prec emax (win_rate n is_opponent) (exploration n pn).

(** A float that is a number and is not infinite. *)
Definition finite (x : spec_float) : Prop :=
  match x with
  | S754_zero _ | S754_finite _ _ _ => True
  | S754_infinity _ | S754_nan => False
  end.

(** A float of magnitude below [2^K] that the format holds: a zero, or
    a finite number whose digits and exponent add up to at most [K]. *)
Definition below (K : Z) (x : spec_float) : Prop :=
  match x with
  | S754_zero _ => True
  | S754_finite _ m e => e ≤ 971 ∧ Z.pos (digits2_pos m) + e ≤ K
  | _ => False
  end.

(** A float of magnitude at least [2^(K-1)]. *)
Definition above (K : Z) (x : spec_float) : Prop :=
  match x with
  | S754_zero _ | S754_nan => False
  | S754_finite _ m e => K ≤ Z.pos (digits2_pos m) + e
  | S754_infinity _ => True
  end.

(** A number of sign [s]. *)
Definition signed (s : bool) (x : spec_float) : Prop :=
  match x with
  | S754_zero s' | S754_finite s' _ _ | S754_infinity s' => s' = s
  | S754_nan => False
  end.

(** What the properties ask of a value of [math.log]: a binary64
    number, not negative, below [2^1000]. *)
Definition log_ok (l : spec_float) : Prop :=
  valid_binary prec emax l = true ∧
  SFleb (S754_zero false) l = true ∧
  SFltb l (S754_finite false 4503599627370496 948) = true.

(** The counters of a store fit the floats: every visit count is
    below [2^1023], and the logarithm of every positive one is as
    above. *)
Definition floats_ok (σ : store) : Prop :=
  ∀ i n, σ !! i = Some n →
    visits n < 2 ^ 1023 ∧ (0 < visits n → log_ok (log (visits n))).

(** [child] has the greatest score among [children] and is the first
    to have it: the children before it score less, those after it do
    not score more. *)
Definition max_ucb_child (σ : store) (flag : bool) (children : list ref)
    (child : ref) : Prop :=
  ∃ pre post best,
    children = pre ++ child :: post ∧
    ucb σ child flag = Ok best ∧
    (∀ c, c ∈ pre →
       ∃ x, ucb σ c flag = Ok x ∧ SFltb x best = true) ∧
    (∀ c, c ∈ post →
       ∃ x, ucb σ c flag = Ok x ∧ SFleb x best = true).

Section Descent.
Context {State : Type} (board : Board State).

(** [traverse_nodes]; [fuel] bounds the iterations of the [while]. *)
Fixpoint traverse_nodes (fuel : nat) (σ : store) (node : ref)
    (state : State) (bot_identity : Z) : result (ref * State) :=
  n ← deref σ node ;
  if negb (truthy (untried_actions n)) && truthy (child_nodes n) then
    match fuel with
    | O => OutOfFuel
    | S fuel' =>
        keyed ← mapM (λ child : ref,
                        x ← ucb σ child (opponent_flag board bot_identity state) ;
                        Ok (child, x))
                     (dict_values (child_nodes n)) ;
        node' ← py_max float_gt keyed ;
        n' ← deref σ node' ;
        state' ← next_state_opt board state (parent_action n') ;
        traverse_nodes fuel' σ node' state' bot_identity
    end
  else Ok (node, state).

(** One step of the descent as the specification words it: the node
    has no untried action and at least one child; the child chosen
    maximises the score, scored from the opponent's perspective exactly
    when the bot is not the player to move at the state before the
    move; and the state advances along the child's [parent_action]. *)
Inductive descent_step (σ : store) (bot_identity : Z)
    : ref * State → ref * State → Prop :=
  | descent_intro node n state child cn a :
      σ !! node = Some n →
      untried_actions n = [] →
      child_nodes n ≠ [] →
      max_ucb_child σ (bool_decide (bot_identity ≠ current_player board state))
                    (dict_values (child_nodes n)) child →
      σ !! child = Some cn →
      parent_action cn = Some a →
      descent_step σ bot_identity (node, state)
                   (child, next_state board state a).

End Descent.
End Scores.

(** The values of [math.log] on the ints 1 to 10, for the examples;
    the table holds no number elsewhere. *)
Definition log_table (n : Z) : spec_float :=
  match n with
  | 1 => S754_zero false
  | 2 => S754_finite false 6243314768165359 (-53)
  | 3 => S754_finite false 4947709893870347 (-52)
  | 4 => S754_finite false 6243314768165359 (-52)
  | 5 => S754_finite false 7248263982714163 (-52)
  | 6 => S754_finite false 8069367277953026 (-52)
  | 7 => S754_finite false 8763600222181975 (-52)
  | 8 => S754_finite false 4682486076124019 (-51)
  | 9 => S754_finite false 4947709893870347 (-51)
  | 10 => S754_finite false 5184960683398422 (-51)
  | _ => S754_nan
  end.

End Binary64.


(** Case analysis on the comparisons of exponents and mantissas. *)
Ltac compare_cases :=
  repeat match goal with
  | H : context [Pos.compare_cont Eq ?a ?b] |- _ =>
      change (Pos.compare_cont Eq a b) with (Pos.compare a b) in H
  | |- context [Pos.compare_cont Eq ?a ?b] =>
      change (Pos.compare_cont Eq a b) with (Pos.compare a b)
  end;
  repeat match goal with
  | H : context [Z.compare ?a ?b] |- _ => destruct (Z.compare_spec a b)
  | |- context [Z.compare ?a ?b] => destruct (Z.compare_spec a b)
  | H : context [Pos.compare ?a ?b] |- _ => destruct (Pos.compare_spec a b)
  | |- context [Pos.compare ?a ?b] => destruct (Pos.compare_spec a b)
  end;
  simpl in *; try done; try lia.

(** * Properties *)

(** ** The result monad *)

Lemma bind_Ok {A B} (m : result A) (k : A → result B) (b : B) :
  (m ≫= k) = Ok b ↔ ∃ a, m = Ok a ∧ k a = Ok b.
Proof.
  destruct m; simpl; split; try (intros (? & ? & ?)); try done; eauto.
  by simplify_eq.
Qed.

Lemma deref_Ok (σ : store) r n : deref σ r = Ok n ↔ σ !! r = Some n.
Proof. unfold deref. destruct (σ !! r); split; intros; by simplify_eq. Qed.

Lemma deref_lookup (σ : store) r n : σ !! r = Some n → deref σ r = Ok n.
Proof. apply deref_Ok. Qed.

Lemma deref_insert (σ : store) r n :
  (r < length σ)%nat → deref (<[r := n]> σ) r = Ok n.
Proof. intros. unfold deref. by rewrite list_lookup_insert_eq. Qed.

(** ** [ucb] *)

Lemma math_log_pos n : 0 < n → math_log n = Ok (ln (IZR n)).
Proof. intros. unfold math_log. by case_decide. Qed.

Lemma ln_IZR_nonneg n : 0 < n → (0 <= ln (IZR n))%R.
Proof.
  intros Hn. assert (Hx : (1 <= IZR n)%R) by (apply IZR_le; lia).
  destruct Hx as [Hx | <-]; [|rewrite ln_1; lra].
  rewrite <- ln_1. apply Rlt_le, ln_increasing; lra.
Qed.

Lemma math_sqrt_nonneg x : (0 <= x)%R → math_sqrt x = Ok (sqrt x).
Proof. intros. unfold math_sqrt. destruct (Rlt_dec x 0); [lra|done]. Qed.

Lemma ucb_unvisited σ node n flag :
  σ !! node = Some n → visits n = 0 → ucb σ node flag = Ok PInf.
Proof.
  intros Hn Hv. unfold ucb. rewrite (deref_lookup _ _ _ Hn). simpl.
  by case_decide.
Qed.

Lemma ucb_defined σ node n p pn flag :
  σ !! node = Some n → parent n = Some p → σ !! p = Some pn →
  visits n ≠ 0 → 0 < visits pn →
  (0 <= ln (IZR (visits pn)) / IZR (visits n))%R →
  ucb σ node flag =
    Ok (Fin (win_rate n flag
             + 2 * sqrt (ln (IZR (visits pn)) / IZR (visits n)))).
Proof.
  intros Hn Hp Hpn Hv Hpv Hdom. unfold ucb.
  rewrite (deref_lookup _ _ _ Hn). simpl.
  case_decide; [done|]. rewrite Hp, (deref_lookup _ _ _ Hpn). simpl.
  rewrite math_log_pos by done. simpl.
  rewrite math_sqrt_nonneg by done.
  simpl. unfold win_rate, explore_faction. by destruct flag.
Qed.

Lemma ucb_visited σ node n p pn flag :
  σ !! node = Some n → parent n = Some p → σ !! p = Some pn →
  0 < visits n → 0 < visits pn →
  ucb σ node flag =
    Ok (Fin (win_rate n flag
             + 2 * sqrt (ln (IZR (visits pn)) / IZR (visits n)))).
Proof.
  intros Hn Hp Hpn Hv Hpv.
  apply (ucb_defined σ node n p pn flag Hn Hp Hpn); [lia|done|].
  apply Rmult_le_pos; [by apply ln_IZR_nonneg|].
  apply Rlt_le, Rinv_0_lt_compat, IZR_lt. lia.
Qed.


(** ** [backpropagate] *)

Lemma bump_visits won n : visits (bump won n) = visits n + 1.
Proof. done. Qed.

Lemma bump_wins won n : wins (bump won n) = wins n + Z.b2z won.
Proof. done. Qed.

(** One turn of the loop visits the node and moves to its parent. *)
Lemma backpropagate_turn fuel (σ : store) r n won :
  σ !! r = Some n →
  backpropagate (S fuel) σ (Some r) won
  = backpropagate fuel (<[r := bump won n]> σ) (parent n) won.
Proof.
  intros Hn. pose proof (lookup_lt_Some _ _ _ Hn) as Hlt. simpl.
  rewrite (deref_lookup _ _ _ Hn). simpl.
  rewrite deref_insert by done. simpl.
  rewrite deref_insert by (by rewrite length_insert). simpl.
  by rewrite list_insert_insert_eq.
Qed.

Lemma parent_chain_fun (σ : store) o l1 l2 :
  parent_chain σ o l1 → parent_chain σ o l2 → l1 = l2.
Proof.
  intros H1. revert l2. induction H1 as [|r n path Hn _ IH]; intros l2 H2.
  - by inversion H2.
  - inversion H2 as [|r' n' path' Hn' Hc]; simplify_eq. f_equal. by apply IH.
Qed.

Lemma parent_chain_suffix (σ : store) o l1 r l2 :
  parent_chain σ o (l1 ++ r :: l2) → parent_chain σ (Some r) (r :: l2).
Proof.
  revert o. induction l1 as [|x l1 IH]; intros o Hc; simpl in *.
  - inversion Hc; simplify_eq. by econstructor.
  - inversion Hc; simplify_eq. eauto.
Qed.

(** A finite chain never comes back to a node. *)
Lemma parent_chain_fresh (σ : store) r path :
  parent_chain σ (Some r) (r :: path) → r ∉ path.
Proof.
  intros Hc Hin. apply list_elem_of_split in Hin as (l1 & l2 & ->).
  pose proof (parent_chain_suffix σ (Some r) (r :: l1) r l2 Hc) as Hs.
  pose proof (parent_chain_fun _ _ _ _ Hc Hs) as Heq.
  apply (f_equal length) in Heq. simpl in Heq.
  rewrite length_app in Heq. simpl in Heq. lia.
Qed.

Lemma parent_chain_NoDup (σ : store) o path :
  parent_chain σ o path → NoDup path.
Proof.
  induction 1 as [|r n path Hn Hc IH]; constructor; [|done].
  apply (parent_chain_fresh σ). by econstructor.
Qed.

Lemma parent_chain_agree (σ σ' : store) o path :
  parent_chain σ o path →
  (∀ j, j ∈ path → σ' !! j = σ !! j) →
  parent_chain σ' o path.
Proof.
  induction 1 as [|r n path Hn Hc IH]; intros Hag; [constructor|].
  econstructor.
  - rewrite Hag; [done|]. by left.
  - apply IH. intros j Hj. apply Hag. by right.
Qed.

Lemma parent_chain_bound (σ : store) o path j :
  parent_chain σ o path → j ∈ path → (j < length σ)%nat.
Proof.
  induction 1 as [|r n path Hn Hc IH]; intros Hj.
  - by apply elem_of_nil in Hj.
  - apply elem_of_cons in Hj as [->|Hj]; [|by apply IH].
    by eapply lookup_lt_Some.
Qed.

(** Backpropagation along a finite chain: with a budget of at least the
    length of the chain it ends, having visited exactly the nodes of
    the chain. *)
Lemma backpropagate_chain fuel (σ : store) node path won :
  parent_chain σ node path → (length path ≤ fuel)%nat →
  ∃ σ', backpropagate fuel σ node won = Ok σ' ∧
    length σ' = length σ ∧
    ∀ j, σ' !! j =
         if decide (j ∈ path) then bump won <$> σ !! j else σ !! j.
Proof.
  revert fuel σ node. induction path as [|r path IH];
    intros fuel σ node Hc Hfuel.
  - inversion Hc; simplify_eq. exists σ. destruct fuel; simpl; split_and!; try done.
    all: intros j; case_decide as Hj; [by apply elem_of_nil in Hj|done].
  - pose proof (parent_chain_NoDup _ _ _ Hc) as [Hfresh _]%NoDup_cons.
    inversion Hc as [|r' n path' Hn Hc']; simplify_eq.
    destruct fuel as [|fuel]; simpl in Hfuel; [lia|].
    pose proof (lookup_lt_Some _ _ _ Hn) as Hlt.
    rewrite (backpropagate_turn _ _ _ _ _ Hn).
    destruct (IH fuel (<[r := bump won n]> σ) (parent n))
      as (σ' & Hrun & Hlen & Hlook); [|lia|].
    { apply (parent_chain_agree σ); [done|].
      intros j Hj. rewrite list_lookup_insert_ne; [done|].
      intros ->. done. }
    exists σ'. split_and!; [done|by rewrite Hlen, length_insert|].
    intros j. rewrite Hlook. destruct (decide (j = r)) as [->|Hne].
    + rewrite decide_False by done. rewrite decide_True by (by left).
      rewrite list_lookup_insert_eq by done. by rewrite Hn.
    + rewrite list_lookup_insert_ne by done.
      destruct (decide (j ∈ path)) as [Hj|Hj].
      * rewrite decide_True by (by right). done.
      * rewrite decide_False; [done|]. intros [->|?]%elem_of_cons; done.
Qed.

(** C6. Backpropagation from a node with outcome [won] follows the
    parent back-references up to the root: every node of that path, the
    starting node included, gets one visit more and [won] (0 or 1) wins
    more and is otherwise as before, every node off the path is
    unchanged, and for a path of [k] nodes exactly [k] visit counts have
    changed. *)
Theorem backpropagate_frame fuel (σ : store) node path won :
  parent_chain σ node path → (length path ≤ fuel)%nat →
  ∃ σ', backpropagate fuel σ node won = Ok σ' ∧
    length σ' = length σ ∧
    NoDup path ∧
    (∀ r, node = Some r → head path = Some r) ∧
    (∀ j n, j ∈ path → σ !! j = Some n →
       σ' !! j = Some (mkNode (parent n) (parent_action n) (child_nodes n)
                              (untried_actions n)
                              (wins n + Z.b2z won) (visits n + 1))) ∧
    (∀ j, j ∉ path → σ' !! j = σ !! j) ∧
    length (filter (λ j, visits <$> σ' !! j ≠ visits <$> σ !! j)
                   (seq 0 (length σ))) = length path.
Proof.
  intros Hc Hfuel.
  destruct (backpropagate_chain fuel σ node path won Hc Hfuel)
    as (σ' & Hrun & Hlen & Hlook).
  pose proof (parent_chain_NoDup _ _ _ Hc) as Hnd.
  exists σ'. split_and!; try done.
  - intros r ->. by inversion Hc.
  - intros j n Hj Hn. by rewrite Hlook, decide_True, Hn.
  - intros j Hj. by rewrite Hlook, decide_False.
  - apply Permutation_length, NoDup_Permutation; [|done|].
    { apply NoDup_filter, NoDup_seq. }
    intros j. rewrite list_elem_of_filter, elem_of_seq, Hlook.
    case_decide as Hj; split; try done.
    + intros _. pose proof (parent_chain_bound _ _ _ _ Hc Hj) as Hlt.
      split; [|lia]. destruct (lookup_lt_is_Some_2 _ _ Hlt) as [n Hn].
      rewrite Hn. simpl. intros [= ?]. lia.
    + by intros [? _].
Qed.

Lemma backpropagate_frame_witness :
  ∃ σ', backpropagate 2 small_tree (Some 1%nat) true = Ok σ' ∧
    length σ' = length small_tree ∧
    NoDup [1%nat; 0%nat] ∧
    (∀ r, Some 1%nat = Some r → head [1%nat; 0%nat] = Some r) ∧
    (∀ j n, j ∈ [1%nat; 0%nat] → small_tree !! j = Some n →
       σ' !! j = Some (mkNode (parent n) (parent_action n) (child_nodes n)
                              (untried_actions n)
                              (wins n + Z.b2z true) (visits n + 1))) ∧
    (∀ j, j ∉ [1%nat; 0%nat] → σ' !! j = small_tree !! j) ∧
    length (filter (λ j, visits <$> σ' !! j ≠ visits <$> small_tree !! j)
                   (seq 0 (length small_tree))) = length [1%nat; 0%nat].
Proof.
  apply (backpropagate_frame 2 small_tree (Some 1%nat) [1%nat; 0%nat] true).
  - eapply chain_some; [reflexivity|]. simpl.
    eapply chain_some; [reflexivity|]. simpl. apply chain_none.
  - simpl. lia.
Defined.

(** ** [max] with a key *)

Section MaxFrom.
Context {A K : Type} (gt : K → K → bool) (lt le : K → K → Prop).
Hypothesis gt_true : ∀ a b, gt a b = true → lt b a.
Hypothesis gt_false : ∀ a b, gt a b = false → le a b.
Hypothesis lt_lt : ∀ a b c, lt a b → lt b c → lt a c.
Hypothesis le_lt : ∀ a b c, le a b → lt b c → lt a c.

(** The item returned splits the items: strictly smaller keys before
    it, no greater key after it. *)
Lemma max_from_split (l before : list (A * K)) best after :
  (∀ y, y ∈ before → lt y.2 best.2) →
  (∀ y, y ∈ after → le y.2 best.2) →
  ∃ pre x post,
    before ++ best :: after ++ l = pre ++ x :: post ∧
    max_from gt best l = x.1 ∧
    (∀ y, y ∈ pre → lt y.2 x.2) ∧
    (∀ y, y ∈ post → le y.2 x.2).
Proof using gt_true gt_false lt_lt le_lt.
  revert before best after.
  induction l as [|item l IH]; intros before best after Hb Ha.
  - exists before, best, after. by rewrite app_nil_r.
  - simpl. destruct (gt item.2 best.2) eqn:Hgt.
    + destruct (IH (before ++ best :: after) item []) as
        (pre & x & post & Heq & Hmax & Hpre & Hpost).
      * intros y [Hy|[->|Hy]%elem_of_cons]%elem_of_app; eauto.
      * intros y Hy. by apply elem_of_nil in Hy.
      * exists pre, x, post. split_and!; try done.
        rewrite <- Heq. by rewrite <- !app_assoc.
    + destruct (IH before best (after ++ [item])) as
        (pre & x & post & Heq & Hmax & Hpre & Hpost).
      * done.
      * intros y [Hy|Hy%list_elem_of_singleton]%elem_of_app;
          [eauto|subst; eauto].
      * exists pre, x, post. split_and!; try done.
        rewrite <- Heq. by rewrite <- !app_assoc.
Qed.

Lemma py_max_split (l : list (A * K)) :
  l ≠ [] →
  ∃ pre x post,
    l = pre ++ x :: post ∧
    py_max gt l = Ok x.1 ∧
    (∀ y, y ∈ pre → lt y.2 x.2) ∧
    (∀ y, y ∈ post → le y.2 x.2).
Proof using gt_true gt_false lt_lt le_lt.
  destruct l as [|first l]; [done|]. intros _.
  destruct (max_from_split l [] first []) as
    (pre & x & post & Heq & Hmax & Hpre & Hpost).
  - intros y Hy. by apply elem_of_nil in Hy.
  - intros y Hy. by apply elem_of_nil in Hy.
  - exists pre, x, post. simpl in *. by rewrite Hmax.
Qed.
End MaxFrom.

Lemma mapM_fmap {A B} (f : A → result B) (g : A → B) (l : list A) :
  (∀ x, x ∈ l → f x = Ok (g x)) → mapM f l = Ok (g <$> l).
Proof.
  induction l as [|x l IH]; intros Hf; [done|]. simpl.
  rewrite Hf by (by left). simpl. rewrite IH; [done|].
  intros y Hy. apply Hf. by right.
Qed.

(** ** [get_best_action] *)

Lemma Zgtb_true a b : (a >? b) = true → b < a.
Proof. rewrite Z.gtb_ltb. apply Z.ltb_lt. Qed.

Lemma Zgtb_false a b : (a >? b) = false → a ≤ b.
Proof. rewrite Z.gtb_ltb. apply Z.ltb_ge. Qed.

Lemma get_best_action_split (σ : store) root r :
  σ !! root = Some r →
  child_nodes r ≠ [] →
  (∀ a c, (a, c) ∈ child_nodes r → is_Some (σ !! c)) →
  ∃ pre a c post,
    get_best_action σ root = Ok a ∧
    child_nodes r = pre ++ (a, c) :: post ∧
    (∀ b d, (b, d) ∈ pre → visits_of σ d < visits_of σ c) ∧
    (∀ b d, (b, d) ∈ post → visits_of σ d ≤ visits_of σ c).
Proof.
  intros Hr Hne Hsome. unfold get_best_action.
  rewrite (deref_lookup _ _ _ Hr). simpl.
  rewrite (mapM_fmap _ (λ item : Action * ref, (item, visits_of σ item.2))).
  2:{ intros [a c] Hin. destruct (Hsome a c Hin) as [cn Hcn].
      unfold visits_of. simpl. rewrite (deref_lookup _ _ _ Hcn). simpl.
      by rewrite Hcn. }
  simpl.
  destruct (py_max_split (A := Action * ref) Z.gtb
              (λ a b, a < b) (λ a b, a ≤ b)
              Zgtb_true Zgtb_false
              ltac:(cbv beta; intros; lia) ltac:(cbv beta; intros; lia)
              ((λ item : Action * ref, (item, visits_of σ item.2))
                 <$> child_nodes r))
    as (pre & x & post & Heq & Hmax & Hpre & Hpost).
  { by destruct (child_nodes r). }
  apply fmap_app_inv in Heq as (pre' & rest & -> & Hrest & Hsplit).
  symmetry in Hrest.
  apply fmap_cons_inv in Hrest as ([a c] & post' & -> & -> & ->).
  exists pre', a, c, post'. rewrite Hmax. simpl. split_and!; try done.
  - intros b d Hin. apply (Hpre ((b, d), visits_of σ d)).
    apply (list_elem_of_fmap_2
             (λ item : Action * ref, (item, visits_of σ item.2)) _ (b, d) Hin).
  - intros b d Hin. apply (Hpost ((b, d), visits_of σ d)).
    apply (list_elem_of_fmap_2
             (λ item : Action * ref, (item, visits_of σ item.2)) _ (b, d) Hin).
Qed.

(** C8. On a root with at least one child, [get_best_action] returns
    the key of a child with the greatest visit count, the first such
    child in the order of the children mapping: every child before it
    has strictly fewer visits, no child after it has more.  On children
    [{a: 2, b: 7, c: 1}] it returns [b]. *)
Theorem get_best_action_most_visited (σ : store) root r :
  σ !! root = Some r →
  child_nodes r ≠ [] →
  (∀ a c, (a, c) ∈ child_nodes r → is_Some (σ !! c)) →
  (∃ pre a c post,
     get_best_action σ root = Ok a ∧
     child_nodes r = pre ++ (a, c) :: post ∧
     (∀ b d, (b, d) ∈ child_nodes r → visits_of σ d ≤ visits_of σ c) ∧
     (∀ b d, (b, d) ∈ pre → visits_of σ d < visits_of σ c)) ∧
  get_best_action scenario_tree 0%nat = Ok act_b.
Proof.
  intros Hr Hne Hsome. split; [|reflexivity].
  destruct (get_best_action_split σ root r Hr Hne Hsome)
    as (pre & a & c & post & Hrun & Hsplit & Hpre & Hpost).
  exists pre, a, c, post. split_and!; try done.
  intros b d. rewrite Hsplit.
  intros [Hin|[[= -> ->]|Hin]%elem_of_cons]%elem_of_app.
  - apply Z.lt_le_incl. eauto.
  - done.
  - eauto.
Qed.

Lemma get_best_action_most_visited_witness :
  (∃ pre a c post,
     get_best_action scenario_tree 0%nat = Ok a ∧
     [(act_a, 1%nat); (act_b, 2%nat); (act_c, 3%nat)] = pre ++ (a, c) :: post ∧
     (∀ b d, (b, d) ∈ [(act_a, 1%nat); (act_b, 2%nat); (act_c, 3%nat)] →
        visits_of scenario_tree d ≤ visits_of scenario_tree c) ∧
     (∀ b d, (b, d) ∈ pre →
        visits_of scenario_tree d < visits_of scenario_tree c)) ∧
  get_best_action scenario_tree 0%nat = Ok act_b.
Proof.
  apply (get_best_action_most_visited scenario_tree 0%nat
           (mkNode None None
              [(act_a, 1%nat); (act_b, 2%nat); (act_c, 3%nat)] [] 4 10)).
  - reflexivity.
  - discriminate.
  - intros a c Hin. simpl in Hin.
    repeat (apply elem_of_cons in Hin as [[= -> ->]|Hin]; [by eexists|]).
    by apply elem_of_nil in Hin.
Defined.

(** ** The weighted draw of the rollout *)

Lemma elem_of_0_2 (r : Z) : r ∈ [0; 2] ↔ r = 0 ∨ r = 2.
Proof. rewrite !elem_of_cons, elem_of_nil. tauto. Qed.

Lemma weighted_copies_weight a : weighted_copies a = replicate (weight a) a.
Proof.
  destruct a as [[[R C] r] c]. unfold weighted_copies, weight.
  destruct (decide ((r, c) = (1, 1))) as [[= -> ->]|Hne].
  - by rewrite bool_decide_eq_true_2.
  - rewrite (bool_decide_eq_false_2 (r = 1 ∧ c = 1))
      by (intros [-> ->]; done).
    destruct (bool_decide (r ∈ [0; 2])) eqn:Hr,
             (bool_decide (c ∈ [0; 2])) eqn:Hc; simpl.
    + apply bool_decide_eq_true_1, elem_of_0_2 in Hr, Hc.
      by rewrite bool_decide_eq_true_2.
    + apply bool_decide_eq_false_1 in Hc. rewrite elem_of_0_2 in Hc.
      rewrite bool_decide_eq_false_2; [done|]. tauto.
    + apply bool_decide_eq_false_1 in Hr. rewrite elem_of_0_2 in Hr.
      rewrite bool_decide_eq_false_2; [done|]. tauto.
    + apply bool_decide_eq_false_1 in Hr. rewrite elem_of_0_2 in Hr.
      rewrite bool_decide_eq_false_2; [done|]. tauto.
Qed.

Lemma copies_app a l1 l2 : copies a (l1 ++ l2) = (copies a l1 + copies a l2)%nat.
Proof. unfold copies. by rewrite filter_app, length_app. Qed.

Lemma copies_replicate a b n :
  copies a (replicate n b) = if decide (b = a) then n else 0%nat.
Proof.
  unfold copies. induction n as [|n IH]; simpl.
  - by case_decide.
  - rewrite filter_cons. case_decide; simpl; by rewrite IH.
Qed.

Lemma copies_cons a b l :
  copies a (b :: l) = ((if decide (b = a) then 1 else 0) + copies a l)%nat.
Proof. unfold copies. rewrite filter_cons. by case_decide. Qed.

(** Each action is repeated as many times as its weight. *)
Lemma copies_weighted a actions :
  copies a (weighted_actions actions) = (weight a * copies a actions)%nat.
Proof.
  induction actions as [|b l IH]; simpl; [unfold copies; simpl; lia|].
  rewrite copies_app, IH, weighted_copies_weight, copies_replicate, copies_cons.
  case_decide; subst; lia.
Qed.

Lemma copies_not_in a l : a ∉ l → copies a l = 0%nat.
Proof.
  induction l as [|b l IH]; intros Hn; [done|].
  rewrite copies_cons. apply not_elem_of_cons in Hn as [Hne Hn].
  rewrite decide_False by done. by rewrite IH.
Qed.

Lemma copies_NoDup_in a l : NoDup l → a ∈ l → copies a l = 1%nat.
Proof.
  induction 1 as [|b l Hb Hnd IH]; intros Hin; [by apply elem_of_nil in Hin|].
  rewrite copies_cons. apply elem_of_cons in Hin as [->|Hin].
  - rewrite decide_True by done. by rewrite copies_not_in.
  - rewrite decide_False by (intros ->; done). by rewrite IH.
Qed.

Lemma weighted_actions_length actions :
  (length actions ≤ length (weighted_actions actions))%nat.
Proof.
  induction actions as [|b l IH]; simpl; [done|].
  rewrite length_app, weighted_copies_weight, length_replicate.
  destruct b as [[[R C] r] c]. unfold weight. repeat case_bool_decide; lia.
Qed.

Lemma weighted_actions_elem a actions :
  a ∈ weighted_actions actions ↔ a ∈ actions.
Proof.
  induction actions as [|b l IH]; simpl; [done|].
  rewrite elem_of_app, elem_of_cons, IH, weighted_copies_weight.
  split; intros [H|H]; auto.
  - apply elem_of_replicate in H as [-> _]. auto.
  - subst. left. apply elem_of_replicate. split; [done|].
    destruct b as [[[R C] r] c]. unfold weight. repeat case_bool_decide; lia.
Qed.

(** [choice] on a non-empty sequence returns the element at the position
    the generator draws below the length. *)
Lemma choice_nonempty {A} (seq : list A) (g : Rng) :
  seq ≠ [] →
  ∃ x, seq !! (g 0%nat mod length seq)%nat = Some x ∧
       choice seq g = Ok (x, λ k, g (S k)).
Proof.
  intros Hne. destruct seq as [|y seq]; [done|].
  assert (Hlt : (g 0%nat mod length (y :: seq) < length (y :: seq))%nat).
  { apply Nat.mod_upper_bound. simpl. lia. }
  destruct (lookup_lt_is_Some_2 _ _ Hlt) as [x Hx].
  exists x. split; [done|]. unfold choice, randbelow.
  by rewrite Hx.
Qed.

Lemma filter_agree {A} (P Q : A → Prop) `{∀ x, Decision (P x)}
    `{∀ x, Decision (Q x)} (l : list A) :
  (∀ x, x ∈ l → P x ↔ Q x) → filter P l = filter Q l.
Proof.
  induction l as [|x l IH]; intros Hag; [done|].
  rewrite !filter_cons. rewrite IH by (intros y Hy; apply Hag; by right).
  destruct (decide (P x)) as [HP|HP], (decide (Q x)) as [HQ|HQ]; try done.
  - exfalso. apply HQ, Hag; [by left|done].
  - exfalso. apply HP, Hag; [by left|done].
Qed.

(** As many positions hold an action as the list has copies of it. *)
Lemma positions_copies a (l : list Action) k :
  length (filter (λ i, l !! (i - k)%nat = Some a) (seq k (length l)))
  = copies a l.
Proof.
  revert k. induction l as [|b l IH]; intros k; [done|].
  cbn [length seq]. rewrite filter_cons, copies_cons.
  rewrite Nat.sub_diag. cbn [lookup list_lookup].
  rewrite (filter_agree _ (λ i, l !! (i - S k)%nat = Some a)).
  - rewrite <- (IH (S k)).
    destruct (decide (Some b = Some a)) as [[= ->]|Hne].
    + by rewrite decide_True.
    + rewrite decide_False; [done|]. by intros ->.
  - intros i [Hi _]%elem_of_seq.
    replace (i - k)%nat with (S (i - S k)) by lia. done.
Qed.

(** C5. For a non-empty set of legal actions the weighted list of the
    rollout holds 5 copies of every action to the centre cell (1, 1),
    3 copies of every action to a corner cell, 1 copy of every other
    action and nothing else; the draw returns the element at the
    position the generator draws below the length of that list, and an
    action occupies as many positions as it has copies.  When the only
    legal action goes to the centre, the draw returns it whatever the
    generator does. *)
Theorem weighted_draw (actions : list Action) :
  actions ≠ [] → NoDup actions →
  (∀ R C r c, (R, C, r, c) ∈ actions →
     copies (R, C, r, c) (weighted_actions actions) =
       if bool_decide (r = 1 ∧ c = 1) then 5%nat
       else if bool_decide ((r = 0 ∨ r = 2) ∧ (c = 0 ∨ c = 2)) then 3%nat
       else 1%nat) ∧
  (∀ a, a ∉ actions → copies a (weighted_actions actions) = 0%nat) ∧
  (∀ g : Rng, ∃ action,
     weighted_actions actions
       !! (g 0%nat mod length (weighted_actions actions))%nat = Some action ∧
     choice (weighted_actions actions) g = Ok (action, λ k, g (S k))) ∧
  (∀ a, length (filter (λ i, weighted_actions actions !! i = Some a)
                       (seq 0 (length (weighted_actions actions))))
        = copies a (weighted_actions actions)) ∧
  (∀ R C (g : Rng),
     weighted_actions [(R, C, 1, 1)] = replicate 5 (R, C, 1, 1) ∧
     choice (weighted_actions [(R, C, 1, 1)]) g
     = Ok ((R, C, 1, 1), λ k, g (S k))).
Proof.
  intros Hne Hnd. split_and!.
  - intros R C r c Hin.
    rewrite copies_weighted, (copies_NoDup_in _ _ Hnd Hin).
    unfold weight. lia.
  - intros a Hin. rewrite copies_weighted, (copies_not_in _ _ Hin). lia.
  - intros g. apply choice_nonempty. intros Hnil.
    pose proof (weighted_actions_length actions) as Hlen.
    rewrite Hnil in Hlen. destruct actions; [done|simpl in Hlen; lia].
  - intros a. rewrite <- (positions_copies a _ 0).
    f_equal. apply filter_agree. intros i _. by rewrite Nat.sub_0_r.
  - intros R C g.
    assert (Hw : weighted_actions [(R, C, 1, 1)] = replicate 5 (R, C, 1, 1))
      by reflexivity.
    split; [done|].
    destruct (choice_nonempty (weighted_actions [(R, C, 1, 1)]) g)
      as (x & Hx & Hrun); [by rewrite Hw|].
    rewrite Hrun. rewrite Hw in Hx.
    apply list_elem_of_lookup_2, elem_of_replicate in Hx as [-> _]. done.
Qed.

Lemma weighted_draw_witness :
  (∀ R C r c, (R, C, r, c) ∈ take 3 cells →
     copies (R, C, r, c) (weighted_actions (take 3 cells)) =
       if bool_decide (r = 1 ∧ c = 1) then 5%nat
       else if bool_decide ((r = 0 ∨ r = 2) ∧ (c = 0 ∨ c = 2)) then 3%nat
       else 1%nat) ∧
  (∀ a, a ∉ take 3 cells → copies a (weighted_actions (take 3 cells)) = 0%nat) ∧
  (∀ g : Rng, ∃ action,
     weighted_actions (take 3 cells)
       !! (g 0%nat mod length (weighted_actions (take 3 cells)))%nat
     = Some action ∧
     choice (weighted_actions (take 3 cells)) g = Ok (action, λ k, g (S k))) ∧
  (∀ a, length (filter (λ i, weighted_actions (take 3 cells) !! i = Some a)
                       (seq 0 (length (weighted_actions (take 3 cells)))))
        = copies a (weighted_actions (take 3 cells))) ∧
  (∀ R C (g : Rng),
     weighted_actions [(R, C, 1, 1)] = replicate 5 (R, C, 1, 1) ∧
     choice (weighted_actions [(R, C, 1, 1)]) g
     = Ok ((R, C, 1, 1), λ k, g (S k))).
Proof.
  apply (weighted_draw (take 3 cells)).
  - discriminate.
  - apply (bool_decide_unpack (NoDup (take 3 cells))). vm_compute. exact I.
Defined.

(** ** Dictionaries and [pop] *)

Lemma list_pop_snoc {A} (rest : list A) a :
  list_pop (rest ++ [a]) = Some (rest, a).
Proof. unfold list_pop. by rewrite last_snoc, removelast_last. Qed.

Lemma list_pop_Some {A} (l rest : list A) a :
  list_pop l = Some (rest, a) → l = rest ++ [a].
Proof.
  unfold list_pop. destruct (last l) as [x|] eqn:Hl; [|done].
  intros [= <- <-]. apply last_Some in Hl as [l' ->].
  by rewrite removelast_last.
Qed.

Lemma list_pop_None {A} (l : list A) : list_pop l = None → l = [].
Proof.
  unfold list_pop. destruct (last l) eqn:Hl; [done|].
  intros _. by apply last_None.
Qed.

Lemma dict_get_set d k v : dict_get (dict_set d k v) k = Some v.
Proof.
  induction d as [|[k' v'] d IH]; simpl.
  - by rewrite decide_True.
  - case_decide; simpl; [by rewrite decide_True|].
    by rewrite decide_False.
Qed.

Lemma dict_get_set_ne d k v k' :
  k' ≠ k → dict_get (dict_set d k v) k' = dict_get d k'.
Proof.
  intros Hne. induction d as [|[k0 v0] d IH]; simpl.
  - by rewrite decide_False.
  - case_decide; simpl; subst.
    + by rewrite !decide_False.
    + case_decide; done.
Qed.

(** A new key goes last. *)
Lemma dict_set_fresh d k v :
  k ∉ dict_keys d → dict_set d k v = d ++ [(k, v)].
Proof.
  induction d as [|[k' v'] d IH]; simpl; [done|].
  intros [Hne Hin]%not_elem_of_cons.
  rewrite decide_False by done. f_equal. by apply IH.
Qed.

(** An entry of the updated dict is the new one or was there before. *)
Lemma dict_set_elem d k v a c :
  (a, c) ∈ dict_set d k v → (a, c) = (k, v) ∨ (a, c) ∈ d.
Proof.
  induction d as [|[k' v'] d IH]; simpl.
  - intros ?%list_elem_of_singleton. by left.
  - case_decide.
    + intros [->|Hin]%elem_of_cons; [by left|]. right. by right.
    + intros [->|Hin]%elem_of_cons; [right; by left|].
      destruct (IH Hin); [by left|]. right. by right.
Qed.

(** ** Order on scores *)

Lemma float_gt_true a b : float_gt a b = true → float_lt b a.
Proof.
  destruct a as [|x], b as [|y]; simpl; try done.
  by destruct (Rlt_dec y x).
Qed.

Lemma float_gt_false a b : float_gt a b = false → float_le a b.
Proof.
  destruct a as [|x], b as [|y]; simpl; try done.
  destruct (Rlt_dec y x); [done|]. intros _. lra.
Qed.

Lemma float_lt_trans a b c : float_lt a b → float_lt b c → float_lt a c.
Proof. destruct a, b, c; simpl; try done. lra. Qed.

Lemma float_le_lt_trans a b c : float_le a b → float_lt b c → float_lt a c.
Proof. destruct a, b, c; simpl; try done. lra. Qed.

Lemma float_lt_le a b : float_lt a b → float_le a b.
Proof. destruct a, b; simpl; try done. lra. Qed.

Lemma float_le_refl a : float_le a a.
Proof. destruct a; simpl; [done|lra]. Qed.

Lemma mapM_Forall2 {A B} (f : A → result B) (l : list A) ys :
  mapM f l = Ok ys → Forall2 (λ x y, f x = Ok y) l ys.
Proof.
  revert ys. induction l as [|x l IH]; intros ys; simpl.
  - intros [= <-]. constructor.
  - intros (y & Hy & (ys' & Hys & [= <-])%bind_Ok)%bind_Ok.
    constructor; [done|]. by apply IH.
Qed.

Lemma mapM_total {A B} (f : A → result B) (l : list A) :
  (∀ x, x ∈ l → ∃ y, f x = Ok y) → ∃ ys, mapM f l = Ok ys.
Proof.
  induction l as [|x l IH]; intros Hf; [by eexists|].
  destruct (Hf x) as [y Hy]; [by left|].
  destruct IH as [ys Hys]; [intros z Hz; apply Hf; by right|].
  exists (y :: ys). simpl. rewrite Hy. simpl. by rewrite Hys.
Qed.

(** The scores [traverse_nodes] pairs the children with, and the child
    its [max] then returns. *)
Lemma scored_max (σ : store) flag (children : list ref) keyed node' :
  mapM (λ child : ref, score ← ucb σ child flag ; Ok (child, score))
       children = Ok keyed →
  py_max float_gt keyed = Ok node' →
  max_ucb_child σ flag children node'.
Proof.
  intros Hmap%mapM_Forall2 Hmax.
  assert (Hkeyed : ∀ y, y ∈ keyed → y.1 ∈ children ∧ ucb σ y.1 flag = Ok y.2).
  { intros y Hy. apply list_elem_of_lookup in Hy as [i Hi].
    destruct (Forall2_lookup_r _ _ _ _ _ Hmap Hi) as (c & Hc & Hrun).
    apply bind_Ok in Hrun as (score & Hscore & [= <-]). simpl.
    split; [|done]. by eapply list_elem_of_lookup_2. }
  assert (Hall : ∀ c, c ∈ children → ∃ y, y ∈ keyed ∧ y.1 = c).
  { intros c Hc. apply list_elem_of_lookup in Hc as [i Hi].
    destruct (Forall2_lookup_l _ _ _ _ _ Hmap Hi) as (y & Hy & Hrun).
    apply bind_Ok in Hrun as (score & Hscore & [= <-]).
    exists (c, score). split; [|done]. by eapply list_elem_of_lookup_2. }
  destruct (py_max_split (A := ref) float_gt float_lt float_le
              float_gt_true float_gt_false float_lt_trans float_le_lt_trans
              keyed)
    as (pre & x & post & Heq & Hx & Hpre & Hpost).
  { intros ->. done. }
  rewrite Hx in Hmax. injection Hmax as <-.
  assert (Hin : x ∈ keyed).
  { rewrite Heq. apply elem_of_app. right. by left. }
  destruct (Hkeyed x Hin) as [Hxc Hxs].
  split; [done|]. exists x.2. split; [done|].
  intros c Hc. destruct (Hall c Hc) as (y & Hy & <-).
  exists y.2. split; [by apply Hkeyed|].
  rewrite Heq in Hy.
  apply elem_of_app in Hy as [Hy|[->|Hy]%elem_of_cons].
  - by apply float_lt_le, Hpre.
  - apply float_le_refl.
  - by apply Hpost.
Qed.

Lemma truthy_false {A} (l : list A) : truthy l = false ↔ l = [].
Proof. by destruct l. Qed.

Lemma truthy_true {A} (l : list A) : truthy l = true ↔ l ≠ [].
Proof. by destruct l. Qed.

(** ** Runs that fail the assertion *)

Lemma bind_asserts {A B} (m : result A) (k : A → result B) :
  asserts (m ≫= k) → asserts m ∨ ∃ a, m = Ok a ∧ asserts (k a).
Proof.
  unfold asserts. destruct m as [a|e| |]; simpl; intros H.
  - right. by exists a.
  - left. by injection H as ->.
  - discriminate H.
  - discriminate H.
Qed.

Lemma deref_asserts (σ : store) r : ¬ asserts (deref σ r).
Proof. unfold deref, asserts. by destruct (σ !! r). Qed.

Lemma mapM_asserts {A B} (f : A → result B) (l : list A) :
  (∀ x, ¬ asserts (f x)) → ¬ asserts (mapM f l).
Proof.
  intros Hf. induction l as [|x l IH]; simpl; [done|].
  intros [H|(y & _ & [H|(ys & _ & H)]%bind_asserts)]%bind_asserts.
  - by apply (Hf x).
  - done.
  - done.
Qed.

Lemma ucb_asserts (σ : store) node flag : ¬ asserts (ucb σ node flag).
Proof.
  unfold ucb. intros [H|(n & _ & H)]%bind_asserts.
  { by apply deref_asserts in H. }
  case_decide; [done|].
  apply bind_asserts in H as [H|(p & _ & H)].
  { destruct (parent n); [by apply deref_asserts in H|done]. }
  apply bind_asserts in H as [H|(l & _ & H)].
  { unfold math_log in H. by case_decide. }
  apply bind_asserts in H as [H|(x & _ & H)]; [|done].
  unfold math_sqrt in H. by destruct (Rlt_dec _ 0).
Qed.

Lemma py_max_asserts {A K} (gt : K → K → bool) (l : list (A * K)) :
  ¬ asserts (py_max gt l).
Proof. by destruct l. Qed.

Lemma backpropagate_asserts fuel (σ : store) node won :
  ¬ asserts (backpropagate fuel σ node won).
Proof.
  revert σ node. induction fuel as [|fuel IH]; intros σ [r|]; try done.
  destruct (σ !! r) as [n|] eqn:Hn.
  - rewrite (backpropagate_turn _ _ _ _ _ Hn). apply IH.
  - simpl. unfold deref. by rewrite Hn.
Qed.

Lemma get_best_action_asserts (σ : store) root :
  ¬ asserts (get_best_action σ root).
Proof.
  unfold get_best_action. intros [H|(r & _ & H)]%bind_asserts.
  { by apply deref_asserts in H. }
  apply bind_asserts in H as [H|(keyed & _ & H)].
  { revert H. apply mapM_asserts. intros item [H|(c & _ & H)]%bind_asserts.
    - by apply deref_asserts in H.
    - done. }
  apply bind_asserts in H as [H|(best & _ & H)]; [|done].
  by apply py_max_asserts in H.
Qed.

(** A bound that works for every element of a list. *)
Lemma bound_over_list {A} (P : A → nat → Prop) (l : list A) :
  (∀ a N N', P a N → (N ≤ N')%nat → P a N') →
  (∀ a, a ∈ l → ∃ N, P a N) →
  ∃ N, ∀ a, a ∈ l → P a N.
Proof.
  intros Hmono. induction l as [|x l IH]; intros Hex.
  - exists 0%nat. intros a Ha. by apply elem_of_nil in Ha.
  - destruct (Hex x) as [Nx Hx]; [by left|].
    destruct IH as [Nl Hl]; [intros a Ha; apply Hex; by right|].
    exists (Nx `max` Nl)%nat. intros a [->|Ha]%elem_of_cons.
    + eapply Hmono; [done|lia].
    + eapply Hmono; [by apply Hl|lia].
Qed.

(** ** [expand_leaf] *)

Section SearchProps.
Context {State : Type} (board : Board State).

(** The store after the expansion of [node] along [action]. *)
Lemma expand_leaf_run (σ : store) node n state rest action :
  σ !! node = Some n →
  untried_actions n = rest ++ [action] →
  expand_leaf board σ node state =
    Ok (<[node := set_children (set_untried n rest)
                    (dict_set (child_nodes n) action (length σ))]> σ
        ++ [new_node (Some node) (Some action)
              (legal_actions board (next_state board state action))],
        length σ, next_state board state action).
Proof.
  intros Hn Hu. pose proof (lookup_lt_Some _ _ _ Hn) as Hlt.
  unfold expand_leaf. rewrite (deref_lookup _ _ _ Hn). simpl.
  rewrite Hu, list_pop_snoc. unfold deref.
  rewrite lookup_app_l by (by rewrite length_insert).
  rewrite list_lookup_insert_eq by done. simpl.
  rewrite length_insert, insert_app_l by (by rewrite length_insert).
  by rewrite list_insert_insert_eq.
Qed.

Lemma expand_leaf_Ok (σ : store) node state σ' child state' :
  expand_leaf board σ node state = Ok (σ', child, state') →
  ∃ n rest action,
    σ !! node = Some n ∧
    untried_actions n = rest ++ [action] ∧
    child = length σ ∧
    state' = next_state board state action ∧
    σ' = <[node := set_children (set_untried n rest)
                     (dict_set (child_nodes n) action (length σ))]> σ
         ++ [new_node (Some node) (Some action)
               (legal_actions board state')].
Proof.
  intros Hrun. pose proof Hrun as Hcopy. unfold expand_leaf in Hcopy.
  apply bind_Ok in Hcopy as (n & Hn%deref_Ok & Hcopy).
  destruct (list_pop (untried_actions n)) as [[rest action]|] eqn:Hpop;
    [|done].
  apply list_pop_Some in Hpop.
  rewrite (expand_leaf_run σ node n state rest action Hn Hpop) in Hrun.
  injection Hrun as <- <- <-. by exists n, rest, action.
Qed.

(** ** [traverse_nodes] *)

(** The loop condition, and what one turn of the loop does. *)
Lemma traverse_nodes_unfold fuel (σ : store) node state bot :
  traverse_nodes board fuel σ node state bot =
    n ← deref σ node ;
    if negb (truthy (untried_actions n)) && truthy (child_nodes n) then
      match fuel with
      | O => OutOfFuel
      | S fuel' =>
          keyed ← mapM (λ child : ref,
                          score ← ucb σ child (opponent_flag board bot state) ;
                          Ok (child, score))
                       (dict_values (child_nodes n)) ;
          node' ← py_max float_gt keyed ;
          n' ← deref σ node' ;
          state' ← next_state_opt board state (parent_action n') ;
          traverse_nodes board fuel' σ node' state' bot
      end
    else Ok (node, state).
Proof. by destruct fuel. Qed.

Lemma loop_condition (n : MCTSNode) :
  negb (truthy (untried_actions n)) && truthy (child_nodes n) = true
  ↔ untried_actions n = [] ∧ child_nodes n ≠ [].
Proof.
  destruct (untried_actions n), (child_nodes n); simpl; split; try done;
    intros [? ?]; done.
Qed.

Lemma loop_condition_false (n : MCTSNode) :
  negb (truthy (untried_actions n)) && truthy (child_nodes n) = false
  ↔ untried_actions n ≠ [] ∨ child_nodes n = [].
Proof.
  destruct (untried_actions n), (child_nodes n); simpl; split; auto;
    intros [|]; done.
Qed.

Lemma traverse_nodes_stop fuel (σ : store) node n state bot :
  σ !! node = Some n →
  untried_actions n ≠ [] ∨ child_nodes n = [] →
  traverse_nodes board fuel σ node state bot = Ok (node, state).
Proof.
  intros Hn Hstop%loop_condition_false.
  rewrite traverse_nodes_unfold, (deref_lookup _ _ _ Hn). simpl.
  by rewrite Hstop.
Qed.

Lemma traverse_nodes_Ok fuel (σ : store) node state bot node' state' :
  traverse_nodes board fuel σ node state bot = Ok (node', state') →
  (descent_stop σ node ∧ node' = node ∧ state' = state) ∨
  ∃ fuel' child state1,
    fuel = S fuel' ∧
    descent_step board σ bot (node, state) (child, state1) ∧
    traverse_nodes board fuel' σ child state1 bot = Ok (node', state').
Proof.
  rewrite traverse_nodes_unfold. intros (n & Hn%deref_Ok & Hrun)%bind_Ok.
  destruct (negb (truthy (untried_actions n)) && truthy (child_nodes n))
    eqn:Hcond.
  - right. apply loop_condition in Hcond as [Hu Hc].
    destruct fuel as [|fuel']; [done|].
    apply bind_Ok in Hrun as (keyed & Hkeyed & Hrun).
    apply bind_Ok in Hrun as (child & Hmax & Hrun).
    apply bind_Ok in Hrun as (cn & Hcn%deref_Ok & Hrun).
    apply bind_Ok in Hrun as (state1 & Hnext & Hrun).
    unfold next_state_opt in Hnext.
    destruct (parent_action cn) as [a|] eqn:Ha; [|done].
    injection Hnext as <-.
    exists fuel', child, (next_state board state a). split_and!; try done.
    eapply descent_intro; eauto. by eapply scored_max.
  - left. apply loop_condition_false in Hcond. injection Hrun as <- <-.
    split_and!; try done. by exists n.
Qed.

(** What [traverse_nodes] returns is reached by descent steps and is a
    node where the descent stops. *)
Lemma traverse_nodes_sound fuel (σ : store) node state bot node' state' :
  traverse_nodes board fuel σ node state bot = Ok (node', state') →
  rtc (descent_step board σ bot) (node, state) (node', state') ∧
  descent_stop σ node'.
Proof.
  revert node state. induction fuel as [|fuel IH]; intros node state Hrun;
    apply traverse_nodes_Ok in Hrun
      as [(Hstop & -> & ->)|(fuel' & child & state1 & Hfuel & Hstep & Hrun)];
    try done.
  injection Hfuel as <-. destruct (IH _ _ Hrun) as [Hrtc Hstop].
  split; [|done]. by eapply rtc_l.
Qed.

(** A descent step moves to a child, which stands for the next state. *)
Lemma descent_step_child (σ : store) bot node state child state' :
  shape_ok σ →
  descent_step board σ bot (node, state) (child, state') →
  ∃ cn a, σ !! child = Some cn ∧ parent cn = Some node ∧
    parent_action cn = Some a ∧ state' = next_state board state a ∧
    (node < child)%nat.
Proof.
  intros Hshape Hstep.
  inversion Hstep as [? n ? ? cn a Hn Hu Hc [Hin _] Hcn Ha]; simplify_eq.
  unfold dict_values in Hin.
  apply list_elem_of_fmap in Hin as ([a' c] & -> & Hin). simpl in *.
  destruct (shape_child σ Hshape _ _ _ _ Hn Hin) as (cn' & Hcn' & Hp & Ha').
  simplify_eq. exists cn, a. split_and!; try done.
  destruct (decide (c = 0%nat)) as [->|Hne].
  - destruct (shape_root σ Hshape) as (r & Hr & Hpr). simplify_eq.
  - destruct (shape_parent σ Hshape _ _ Hcn Hne) as (p & Hp' & Hlt).
    by simplify_eq.
Qed.

Lemma descent_step_represents s0 (σ : store) bot node state child state' :
  shape_ok σ →
  descent_step board σ bot (node, state) (child, state') →
  represents board s0 σ node state →
  represents board s0 σ child state'.
Proof.
  intros Hshape Hstep Hrep.
  destruct (descent_step_child _ _ _ _ _ _ Hshape Hstep)
    as (cn & a & Hcn & Hp & Ha & -> & _).
  by eapply rep_child.
Qed.

Lemma descent_represents s0 (σ : store) bot x y :
  shape_ok σ →
  rtc (descent_step board σ bot) x y →
  represents board s0 σ x.1 x.2 →
  represents board s0 σ y.1 y.2.
Proof.
  intros Hshape. induction 1 as [|[n s] [n' s'] z Hstep _ IH]; [done|].
  intros Hrep. apply IH. simpl in *. by eapply descent_step_represents.
Qed.

(** Every child of a node can be scored once no node has more visits
    than its parent. *)
Lemma ucb_child_total (σ : store) node n a c flag :
  shape_ok σ → counters_ok σ → visits_ok σ →
  σ !! node = Some n → (a, c) ∈ child_nodes n →
  ∃ score, ucb σ c flag = Ok score.
Proof.
  intros Hshape Hcount Hvis Hn Hin.
  destruct (shape_child σ Hshape _ _ _ _ Hn Hin) as (cn & Hcn & Hp & Ha).
  pose proof (Hcount _ _ Hcn) as Hc.
  pose proof (Hvis _ _ _ _ Hcn Hp Hn) as Hle.
  destruct (decide (visits cn = 0)) as [Hz|Hnz].
  - eexists. by eapply ucb_unvisited.
  - eexists. eapply ucb_visited; eauto; lia.
Qed.

(** The descent from a node ends within as many turns as there are
    younger nodes. *)
Lemma traverse_nodes_total fuel (σ : store) node state bot :
  shape_ok σ → counters_ok σ → visits_ok σ →
  is_Some (σ !! node) →
  (length σ - node ≤ S fuel)%nat →
  ∃ node' state', traverse_nodes board fuel σ node state bot
                  = Ok (node', state').
Proof.
  intros Hshape Hcount Hvis. revert node state.
  assert (Hyounger : ∀ node n a c,
            σ !! node = Some n → (a, c) ∈ child_nodes n →
            ∃ cn, σ !! c = Some cn ∧ parent_action cn = Some a ∧
                  (node < c < length σ)%nat).
  { intros node n a c Hn Hin.
    destruct (shape_child σ Hshape _ _ _ _ Hn Hin) as (cn & Hcn & Hp & Ha).
    exists cn. split_and!; try done; [|by eapply lookup_lt_Some].
    assert (c ≠ 0%nat).
    { intros ->. destruct (shape_root σ Hshape) as (r & Hr & Hpr).
      simplify_eq. }
    destruct (shape_parent σ Hshape _ _ Hcn) as (p & Hp' & Hlt); [done|].
    by simplify_eq. }
  induction fuel as [|fuel IH]; intros node state [n Hn] Hfuel;
    rewrite traverse_nodes_unfold, (deref_lookup _ _ _ Hn); simpl;
    (destruct (negb (truthy (untried_actions n)) && truthy (child_nodes n))
       eqn:Hcond; [|by eauto]);
    apply loop_condition in Hcond as [Hu Hc].
  - exfalso. destruct (child_nodes n) as [|[a c] d] eqn:Hd; [done|].
    destruct (Hyounger node n a c Hn) as (cn & _ & _ & Hlt).
    { rewrite Hd. by left. }
    lia.
  - destruct (mapM_total
                (λ child : ref,
                   score ← ucb σ child (opponent_flag board bot state) ;
                   Ok (child, score))
                (dict_values (child_nodes n))) as [keyed Hkeyed].
    { intros c Hc'. unfold dict_values in Hc'.
      apply list_elem_of_fmap in Hc' as ([a c'] & -> & Hin).
      destruct (ucb_child_total σ node n a c'
                  (opponent_flag board bot state)) as [score Hscore];
        try done.
      exists (c', score). simpl. by rewrite Hscore. }
    rewrite Hkeyed. simpl.
    assert (Hmax : ∃ child, py_max float_gt keyed = Ok child).
    { destruct keyed as [|first keyed']; [|by eexists].
      apply mapM_Forall2, Forall2_length in Hkeyed.
      unfold dict_values in Hkeyed. rewrite length_fmap in Hkeyed.
      by destruct (child_nodes n). }
    destruct Hmax as [child Hmax]. rewrite Hmax. simpl.
    destruct (scored_max _ _ _ _ _ Hkeyed Hmax) as [Hin _].
    unfold dict_values in Hin.
    apply list_elem_of_fmap in Hin as ([a c'] & -> & Hin). simpl.
    destruct (Hyounger node n a c' Hn Hin) as (cn & Hcn & Ha & Hlt).
    rewrite (deref_lookup _ _ _ Hcn). simpl. rewrite Ha. simpl.
    apply IH; [by eexists|lia].
Qed.

(** ** The store along a search call *)

(** The nodes of the store after an expansion. *)
Lemma expanded_lookup (σ : store) node (n n' child : MCTSNode) j x :
  σ !! node = Some n →
  (<[node := n']> σ ++ [child]) !! j = Some x →
  (j = node ∧ x = n') ∨
  (j = length σ ∧ x = child) ∨
  (j ≠ node ∧ σ !! j = Some x).
Proof.
  intros Hn Hx. pose proof (lookup_lt_Some _ _ _ Hn) as Hlt.
  apply lookup_app_Some in Hx as [Hx|[Hge Hx]].
  - apply list_lookup_insert_Some in Hx as [(-> & -> & _)|[Hne Hx]]; auto.
  - rewrite length_insert in Hge, Hx. right. left.
    apply list_lookup_singleton_Some in Hx as [Hj ->].
    split; [lia|done].
Qed.

Lemma expanded_lookup_old (σ : store) node (n n' child : MCTSNode) j nj :
  σ !! node = Some n →
  σ !! j = Some nj →
  (<[node := n']> σ ++ [child]) !! j = Some (if decide (j = node) then n' else nj).
Proof.
  intros Hn Hj. pose proof (lookup_lt_Some _ _ _ Hj) as Hlt.
  rewrite lookup_app_l by (by rewrite length_insert).
  case_decide as Heq.
  - subst. by rewrite list_lookup_insert_eq.
  - by rewrite list_lookup_insert_ne.
Qed.

Lemma expanded_lookup_new (σ : store) node (n' child : MCTSNode) :
  (<[node := n']> σ ++ [child]) !! length σ = Some child.
Proof.
  rewrite lookup_app_r by (by rewrite length_insert).
  by rewrite length_insert, Nat.sub_diag.
Qed.

Lemma bumped_lookup (σ : store) r (n : MCTSNode) won j x :
  (<[r := bump won n]> σ) !! j = Some x →
  (j = r ∧ x = bump won n) ∨ (j ≠ r ∧ σ !! j = Some x).
Proof.
  intros [(-> & -> & _)|[Hne Hx]]%list_lookup_insert_Some; auto.
Qed.

Lemma bumped_lookup_old (σ : store) r (n : MCTSNode) won j nj :
  σ !! r = Some n →
  σ !! j = Some nj →
  (<[r := bump won n]> σ) !! j
  = Some (if decide (j = r) then bump won n else nj).
Proof.
  intros Hn Hj. pose proof (lookup_lt_Some _ _ _ Hj) as Hlt.
  case_decide as Heq.
  - subst. by rewrite list_lookup_insert_eq.
  - by rewrite list_lookup_insert_ne.
Qed.

Lemma keeps_links_expand (σ : store) node state σ' child state' :
  expand_leaf board σ node state = Ok (σ', child, state') →
  keeps_links σ σ'.
Proof.
  intros (n & rest & action & Hn & Hu & -> & -> & ->)%expand_leaf_Ok j nj Hj.
  eexists. split; [by eapply expanded_lookup_old|].
  case_decide; by simplify_eq.
Qed.

Lemma keeps_links_bump (σ : store) r n won :
  σ !! r = Some n → keeps_links σ (<[r := bump won n]> σ).
Proof.
  intros Hn j nj Hj.
  eexists. split; [by eapply bumped_lookup_old|].
  case_decide; by simplify_eq.
Qed.

Lemma represents_mono s0 (σ σ' : store) r s :
  keeps_links σ σ' →
  represents board s0 σ r s → represents board s0 σ' r s.
Proof.
  intros Hk. induction 1 as [r n Hn Hp|r n p a s Hn Hp Ha _ IH].
  - destruct (Hk _ _ Hn) as (n' & Hn' & Hp' & _).
    apply (rep_root board s0 σ' r n' Hn'). congruence.
  - destruct (Hk _ _ Hn) as (n' & Hn' & Hp' & Ha').
    apply (rep_child board s0 σ' r n' p a s Hn'); [congruence|congruence|done].
Qed.

(** *** The shape of the store *)

Lemma shape_ok_init s0 : shape_ok (init_store board s0).
Proof.
  split.
  - by eexists.
  - intros [|c] cn Hc Hne; [done|]. by destruct c.
  - intros [|i] n a c Hi Hin; [|by destruct i].
    injection Hi as <-. by apply elem_of_nil in Hin.
Qed.

Lemma shape_ok_expand (σ : store) node state σ' child state' :
  shape_ok σ →
  expand_leaf board σ node state = Ok (σ', child, state') →
  shape_ok σ'.
Proof.
  intros Hshape Hrun. pose proof (keeps_links_expand _ _ _ _ _ _ Hrun) as Hk.
  apply expand_leaf_Ok in Hrun
    as (n & rest & action & Hn & Hu & -> & -> & ->).
  pose proof (lookup_lt_Some _ _ _ Hn) as Hlt.
  destruct (shape_root σ Hshape) as (r & Hr & Hpr). split.
  - destruct (Hk _ _ Hr) as (r' & Hr' & Hpr' & _).
    exists r'. split; [done|congruence].
  - intros c cn Hc Hne.
    eapply expanded_lookup in Hc as [[-> ->]|[[-> ->]|[Hnode Hc]]];
      [| | |done].
    + by apply (shape_parent σ Hshape node n).
    + simpl. by eexists.
    + by apply (shape_parent σ Hshape c cn).
  - intros i ni a c Hi Hin.
    eapply expanded_lookup in Hi as [[-> ->]|[[-> ->]|[Hnode Hi]]]; [| | |done].
    + simpl in Hin. apply dict_set_elem in Hin as [[= -> ->]|Hin].
      * eexists. split; [apply expanded_lookup_new|done].
      * destruct (shape_child σ Hshape _ _ _ _ Hn Hin) as (cn & Hcn & Hp & Ha).
        destruct (Hk _ _ Hcn) as (cn' & Hcn' & Hp' & Ha').
        exists cn'. split_and!; [done|congruence|congruence].
    + by apply elem_of_nil in Hin.
    + destruct (shape_child σ Hshape _ _ _ _ Hi Hin) as (cn & Hcn & Hp & Ha).
      destruct (Hk _ _ Hcn) as (cn' & Hcn' & Hp' & Ha').
      exists cn'. split_and!; [done|congruence|congruence].
Qed.

Lemma shape_ok_bump (σ : store) r n won :
  shape_ok σ → σ !! r = Some n → shape_ok (<[r := bump won n]> σ).
Proof.
  intros Hshape Hn. pose proof (keeps_links_bump σ r n won Hn) as Hk.
  destruct (shape_root σ Hshape) as (root & Hr & Hpr). split.
  - destruct (Hk _ _ Hr) as (r' & Hr' & Hpr' & _).
    exists r'. split; [done|congruence].
  - intros c cn Hc Hne.
    apply bumped_lookup in Hc as [[-> ->]|[_ Hc]].
    + by apply (shape_parent σ Hshape r n).
    + by apply (shape_parent σ Hshape c cn).
  - intros i ni a c Hi Hin.
    assert (∃ ni0, σ !! i = Some ni0 ∧ (a, c) ∈ child_nodes ni0)
      as (ni0 & Hi0 & Hin0).
    { apply bumped_lookup in Hi as [[-> ->]|[_ Hi]]; eauto. }
    destruct (shape_child σ Hshape _ _ _ _ Hi0 Hin0) as (cn & Hcn & Hp & Ha).
    destruct (Hk _ _ Hcn) as (cn' & Hcn' & Hp' & Ha').
    exists cn'. split_and!; [done|congruence|congruence].
Qed.

Lemma shape_ok_step s0 (σ σ' : store) :
  search_step board s0 σ σ' → shape_ok σ → shape_ok σ'.
Proof.
  intros [σ1 node state σ2 child state' _ Hrun|σ1 r n won Hn] Hshape.
  - by eapply shape_ok_expand.
  - by apply shape_ok_bump.
Qed.

Lemma shape_ok_steps s0 (σ σ' : store) :
  rtc (search_step board s0) σ σ' → shape_ok σ → shape_ok σ'.
Proof. induction 1; eauto using shape_ok_step. Qed.

(** *** Untried actions and children *)

Lemma actions_ok_init s0 : actions_ok board s0 (init_store board s0).
Proof.
  intros [|i] n Hi; [|by destruct i]. injection Hi as <-.
  exists s0. split; [by eapply rep_root|].
  simpl. by rewrite app_nil_r.
Qed.

(** Expansion moves the popped action from the untried stack to the
    keys of the children. *)
Lemma actions_ok_expand s0 (σ : store) node state σ' child state' :
  legal_nodup board →
  actions_ok board s0 σ →
  represents board s0 σ node state →
  expand_leaf board σ node state = Ok (σ', child, state') →
  actions_ok board s0 σ'.
Proof.
  intros Hnd Hok Hrep Hrun.
  pose proof (keeps_links_expand _ _ _ _ _ _ Hrun) as Hk.
  apply expand_leaf_Ok in Hrun
    as (n & rest & action & Hn & Hu & -> & -> & ->).
  intros i ni Hi.
  eapply expanded_lookup in Hi as [[-> ->]|[[-> ->]|[Hnode Hi]]]; [| | |done].
  - destruct (Hok _ _ Hn) as (s & Hs & Hsplit).
    exists s. split; [by eapply represents_mono|]. simpl.
    rewrite Hu in Hsplit. rewrite <- Hsplit.
    assert (Hfresh : action ∉ dict_keys (child_nodes n)).
    { pose proof (Hnd s) as Hnodup. rewrite <- Hsplit in Hnodup.
      rewrite <- app_assoc in Hnodup.
      apply NoDup_app in Hnodup as (_ & _ & Hnodup).
      apply NoDup_app in Hnodup as (_ & Hdisj & _).
      intros Hin. apply (Hdisj action); [by left|].
      by apply elem_of_reverse. }
    rewrite dict_set_fresh by done.
    unfold dict_keys. rewrite fmap_app, reverse_app. simpl.
    by rewrite <- app_assoc.
  - exists (next_state board state action). split.
    + eapply rep_child; [apply expanded_lookup_new|done|done|].
      by eapply represents_mono.
    + simpl. by rewrite app_nil_r.
  - destruct (Hok _ _ Hi) as (s & Hs & Hsplit).
    exists s. split; [by eapply represents_mono|done].
Qed.

Lemma actions_ok_bump s0 (σ : store) r n won :
  actions_ok board s0 σ → σ !! r = Some n →
  actions_ok board s0 (<[r := bump won n]> σ).
Proof.
  intros Hok Hn i ni Hi.
  pose proof (keeps_links_bump σ r n won Hn) as Hk.
  apply bumped_lookup in Hi as [[-> ->]|[_ Hi]].
  - destruct (Hok _ _ Hn) as (s & Hs & Hsplit).
    exists s. split; [by eapply represents_mono|done].
  - destruct (Hok _ _ Hi) as (s & Hs & Hsplit).
    exists s. split; [by eapply represents_mono|done].
Qed.

Lemma actions_ok_steps s0 (σ σ' : store) :
  legal_nodup board →
  rtc (search_step board s0) σ σ' →
  actions_ok board s0 σ → actions_ok board s0 σ'.
Proof.
  intros Hnd. induction 1 as [|σ1 σ2 σ3 Hstep _ IH]; [done|].
  intros Hok. apply IH.
  destruct Hstep as [σ1 node state σ2 child state' Hrep Hrun|σ1 r n won Hn].
  - by eapply actions_ok_expand.
  - by apply actions_ok_bump.
Qed.

(** What the split says about the two collections of a node. *)
Lemma actions_ok_node s0 (σ : store) i n :
  legal_nodup board →
  actions_ok board s0 σ →
  σ !! i = Some n →
  ∃ s, represents board s0 σ i s ∧
    (∀ a, a ∈ untried_actions n → a ∉ dict_keys (child_nodes n)) ∧
    (∀ a, a ∈ legal_actions board s ↔
          a ∈ untried_actions n ∨ a ∈ dict_keys (child_nodes n)) ∧
    NoDup (untried_actions n) ∧
    NoDup (dict_keys (child_nodes n)) ∧
    (length (untried_actions n) + length (child_nodes n))%nat
    = length (legal_actions board s).
Proof.
  intros Hnd Hok Hi. destruct (Hok _ _ Hi) as (s & Hs & Hsplit).
  pose proof (Hnd s) as Hnodup. rewrite <- Hsplit in Hnodup.
  apply NoDup_app in Hnodup as (Hu & Hdisj & Hk).
  exists s. split_and!; try done.
  - intros a Ha Hin. apply (Hdisj a Ha). by apply elem_of_reverse.
  - intros a. rewrite <- Hsplit, elem_of_app, elem_of_reverse. done.
  - by rewrite reverse_Permutation in Hk.
  - rewrite <- Hsplit, length_app, length_reverse. unfold dict_keys.
    by rewrite length_fmap.
Qed.

(** *** The counters *)

Lemma counters_ok_init s0 : counters_ok (init_store board s0).
Proof. intros [|i] n Hi; [|by destruct i]. by injection Hi as <-. Qed.

Lemma counters_ok_expand (σ : store) node state σ' child state' :
  counters_ok σ →
  expand_leaf board σ node state = Ok (σ', child, state') →
  counters_ok σ'.
Proof.
  intros Hok (n & rest & action & Hn & Hu & -> & -> & ->)%expand_leaf_Ok i ni Hi.
  eapply expanded_lookup in Hi as [[-> ->]|[[-> ->]|[Hnode Hi]]]; [| | |done].
  - apply (Hok _ _ Hn).
  - done.
  - by apply (Hok _ _ Hi).
Qed.

Lemma counters_ok_bump (σ : store) r n won :
  counters_ok σ → σ !! r = Some n → counters_ok (<[r := bump won n]> σ).
Proof.
  intros Hok Hn i ni Hi. apply bumped_lookup in Hi as [[-> ->]|[_ Hi]].
  - pose proof (Hok _ _ Hn). rewrite bump_wins, bump_visits.
    destruct won; simpl; lia.
  - by apply (Hok _ _ Hi).
Qed.

Lemma counters_ok_steps s0 (σ σ' : store) :
  rtc (search_step board s0) σ σ' → counters_ok σ → counters_ok σ'.
Proof.
  induction 1 as [|σ1 σ2 σ3 Hstep _ IH]; [done|].
  intros Hok. apply IH.
  destruct Hstep as [σ1 node state σ2 child state' Hrep Hrun|σ1 r n won Hn].
  - by eapply counters_ok_expand.
  - by apply counters_ok_bump.
Qed.

Lemma counters_grow_refl (σ : store) : counters_grow σ σ.
Proof. intros j nj Hj. by exists nj. Qed.

Lemma counters_grow_trans (σ1 σ2 σ3 : store) :
  counters_grow σ1 σ2 → counters_grow σ2 σ3 → counters_grow σ1 σ3.
Proof.
  intros H12 H23 j nj Hj.
  destruct (H12 _ _ Hj) as (n2 & H2 & Hw2 & Hv2).
  destruct (H23 _ _ H2) as (n3 & H3 & Hw3 & Hv3).
  exists n3. split_and!; [done|lia|lia].
Qed.

Lemma counters_grow_step s0 (σ σ' : store) :
  search_step board s0 σ σ' → counters_grow σ σ'.
Proof.
  intros [σ1 node state σ2 child state' _ Hrun|σ1 r n won Hn] j nj Hj.
  - apply expand_leaf_Ok in Hrun
      as (n & rest & action & Hn & Hu & -> & -> & ->).
    eexists. split; [by eapply expanded_lookup_old|].
    case_decide; simplify_eq; simpl; lia.
  - eexists. split; [by eapply bumped_lookup_old|].
    case_decide; simplify_eq; [|lia].
    rewrite bump_wins, bump_visits. destruct won; simpl; lia.
Qed.

Lemma counters_grow_steps s0 (σ σ' : store) :
  rtc (search_step board s0) σ σ' → counters_grow σ σ'.
Proof.
  induction 1 as [|σ1 σ2 σ3 Hstep _ IH]; [apply counters_grow_refl|].
  eapply counters_grow_trans; [|done]. by eapply counters_grow_step.
Qed.

(** ** The search driver *)

(** The parts of a completed pass of the loop body. *)
Lemma think_step_Ok fuel s0 bot (σ : store) (g : Rng) σ' g' :
  think_step board fuel s0 bot σ g = Ok (σ', g') →
  ∃ node state n σ1 node1 state1 final_state won,
    traverse_nodes board fuel σ root_node s0 bot = Ok (node, state) ∧
    σ !! node = Some n ∧
    ((untried_actions n ≠ [] ∧
      expand_leaf board σ node state = Ok (σ1, node1, state1)) ∨
     (untried_actions n = [] ∧ σ1 = σ ∧ node1 = node ∧ state1 = state)) ∧
    rollout board fuel state1 g = Ok (final_state, g') ∧
    is_win board final_state bot = Ok won ∧
    backpropagate fuel σ1 (Some node1) won = Ok σ'.
Proof.
  unfold think_step.
  intros ([node state] & Htrav & Hrun)%bind_Ok.
  apply bind_Ok in Hrun as (n & Hn%deref_Ok & Hrun).
  apply bind_Ok in Hrun as ([[σ1 node1] state1] & Hexp & Hrun).
  apply bind_Ok in Hrun as ([final_state g1] & Hroll & Hrun).
  apply bind_Ok in Hrun as (won & Hwin & Hrun).
  apply bind_Ok in Hrun as (σ2 & Hback & [= <- <-]).
  exists node, state, n, σ1, node1, state1, final_state, won.
  split_and!; try done.
  destruct (truthy (untried_actions n)) eqn:Ht.
  - left. by apply truthy_true in Ht.
  - right. apply truthy_false in Ht. by injection Hexp as <- <- <-.
Qed.

Lemma backpropagate_Ok_chain fuel (σ : store) node won σ' :
  backpropagate fuel σ node won = Ok σ' →
  ∃ path, parent_chain σ node path ∧ (length path ≤ fuel)%nat.
Proof.
  revert σ node. induction fuel as [|fuel IH]; intros σ [r|] Hrun;
    try done; try (exists []; split; [constructor|simpl; lia]).
  destruct (σ !! r) as [n|] eqn:Hn.
  2:{ simpl in Hrun. unfold deref in Hrun. by rewrite Hn in Hrun. }
  rewrite (backpropagate_turn _ _ _ _ _ Hn) in Hrun.
  destruct (IH _ _ Hrun) as (path & Hchain & Hlen).
  pose proof (lookup_lt_Some _ _ _ Hn) as Hlt.
  assert (Hfresh : r ∉ path).
  { apply (parent_chain_fresh (<[r := bump won n]> σ)).
    eapply chain_some; [by apply list_lookup_insert_eq|done]. }
  exists (r :: path). split; [|simpl; lia].
  eapply chain_some; [done|].
  apply (parent_chain_agree (<[r := bump won n]> σ)); [done|].
  intros j Hj. rewrite list_lookup_insert_ne; [done|]. by intros ->.
Qed.

Lemma backpropagate_steps s0 fuel (σ : store) node won σ' :
  backpropagate fuel σ node won = Ok σ' →
  rtc (search_step board s0) σ σ'.
Proof.
  revert σ node. induction fuel as [|fuel IH]; intros σ [r|] Hrun;
    try done; try (by injection Hrun as <-).
  destruct (σ !! r) as [n|] eqn:Hn.
  2:{ simpl in Hrun. unfold deref in Hrun. by rewrite Hn in Hrun. }
  rewrite (backpropagate_turn _ _ _ _ _ Hn) in Hrun.
  eapply rtc_l; [by eapply step_visit|]. by eapply IH.
Qed.

(** In a well-shaped store every chain of parents ends at the root. *)
Lemma parent_chain_root (σ : store) r path :
  shape_ok σ → parent_chain σ (Some r) path → last path = Some 0%nat.
Proof.
  intros Hshape. revert path.
  induction (lt_wf r) as [r _ IH]. intros path Hchain.
  inversion Hchain as [|r' n path' Hn Hrest]; simplify_eq.
  destruct (decide (r = 0%nat)) as [->|Hne].
  - destruct (shape_root σ Hshape) as (root & Hr & Hpr). simplify_eq.
    rewrite Hpr in Hrest. by inversion Hrest.
  - destruct (shape_parent σ Hshape _ _ Hn Hne) as (p & Hp & Hlt).
    rewrite Hp in Hrest. pose proof (IH p Hlt path' Hrest) as Hlast.
    destruct path'; [done|]. done.
Qed.

(** A chain of parents exists from every node of a well-shaped store. *)
Lemma parent_chain_exists (σ : store) r :
  shape_ok σ → is_Some (σ !! r) →
  ∃ path, parent_chain σ (Some r) path ∧ (length path ≤ S r)%nat.
Proof.
  intros Hshape. induction (lt_wf r) as [r _ IH]. intros [n Hn].
  destruct (decide (r = 0%nat)) as [->|Hne].
  - destruct (shape_root σ Hshape) as (root & Hr & Hpr). simplify_eq.
    exists [0%nat]. split; [|simpl; lia].
    eapply chain_some; [done|]. rewrite Hpr. constructor.
  - destruct (shape_parent σ Hshape _ _ Hn Hne) as (p & Hp & Hlt).
    destruct (IH p Hlt) as (path & Hchain & Hlen).
    { apply lookup_lt_is_Some. pose proof (lookup_lt_Some _ _ _ Hn). lia. }
    exists (r :: path). split; [|simpl; lia].
    eapply chain_some; [done|]. by rewrite Hp.
Qed.

(** Backpropagation from a node gives the root one visit more. *)
Lemma backpropagate_root fuel (σ : store) r won σ' :
  shape_ok σ →
  backpropagate fuel σ (Some r) won = Ok σ' →
  visits_of σ' 0 = visits_of σ 0 + 1.
Proof.
  intros Hshape Hrun.
  destruct (backpropagate_Ok_chain _ _ _ _ _ Hrun) as (path & Hchain & Hlen).
  destruct (backpropagate_chain fuel σ (Some r) path won Hchain Hlen)
    as (σ'' & Hrun' & _ & Hlook).
  rewrite Hrun in Hrun'. injection Hrun' as <-.
  pose proof (parent_chain_root σ r path Hshape Hchain) as Hlast.
  unfold visits_of. rewrite Hlook, decide_True.
  - destruct (shape_root σ Hshape) as (root & -> & _). done.
  - apply last_Some in Hlast as [l' ->]. apply elem_of_app. right. by left.
Qed.

Lemma expand_leaf_root_visits (σ : store) node state σ' child state' :
  shape_ok σ →
  expand_leaf board σ node state = Ok (σ', child, state') →
  visits_of σ' 0 = visits_of σ 0.
Proof.
  intros Hshape (n & rest & action & Hn & Hu & -> & -> & ->)%expand_leaf_Ok.
  destruct (shape_root σ Hshape) as (root & Hr & _).
  unfold visits_of.
  rewrite (expanded_lookup_old σ node n _ _ 0%nat root Hn Hr), Hr.
  case_decide; by simplify_eq.
Qed.

(** The state a pass of the loop body hands to the rollout is the one
    its node stands for, and the pass is made of search steps. *)
Lemma think_step_steps fuel s0 bot (σ : store) (g : Rng) σ' g' :
  shape_ok σ →
  think_step board fuel s0 bot σ g = Ok (σ', g') →
  rtc (search_step board s0) σ σ'.
Proof.
  intros Hshape Hrun. apply think_step_Ok in Hrun
    as (node & state & n & σ1 & node1 & state1 & final_state & won
        & Htrav & Hn & Hexp & Hroll & Hwin & Hback).
  destruct (shape_root σ Hshape) as (root & Hr & Hpr).
  assert (Hrep : represents board s0 σ node state).
  { destruct (traverse_nodes_sound _ _ _ _ _ _ _ Htrav) as [Hrtc _].
    apply (descent_represents s0 σ bot (root_node, s0) (node, state));
      try done.
    simpl. by eapply rep_root. }
  destruct Hexp as [[Hu Hexp]|(Hu & -> & -> & ->)].
  - eapply rtc_l; [by eapply step_expand|].
    by eapply backpropagate_steps.
  - by eapply backpropagate_steps.
Qed.

Lemma think_step_root_visits fuel s0 bot (σ : store) (g : Rng) σ' g' :
  shape_ok σ →
  think_step board fuel s0 bot σ g = Ok (σ', g') →
  visits_of σ' 0 = visits_of σ 0 + 1.
Proof.
  intros Hshape Hrun. apply think_step_Ok in Hrun
    as (node & state & n & σ1 & node1 & state1 & final_state & won
        & Htrav & Hn & Hexp & Hroll & Hwin & Hback).
  destruct Hexp as [[Hu Hexp]|(Hu & -> & -> & ->)].
  - rewrite <- (expand_leaf_root_visits _ _ _ _ _ _ Hshape Hexp).
    eapply backpropagate_root; [|done]. by eapply shape_ok_expand.
  - by eapply backpropagate_root.
Qed.

Lemma think_loop_steps budget fuel s0 bot (σ : store) (g : Rng) σ' g' :
  shape_ok σ →
  think_loop board budget fuel s0 bot σ g = Ok (σ', g') →
  rtc (search_step board s0) σ σ'.
Proof.
  revert σ g. induction budget as [|budget IH]; intros σ g Hshape Hrun.
  - by injection Hrun as <- <-.
  - simpl in Hrun. apply bind_Ok in Hrun as ([σ1 g1] & Hstep & Hrun).
    pose proof (think_step_steps _ _ _ _ _ _ _ Hshape Hstep) as Hsteps.
    etrans; [done|]. eapply IH; [|done]. by eapply shape_ok_steps.
Qed.

Lemma think_loop_root_visits budget fuel s0 bot (σ : store) (g : Rng) σ' g' :
  shape_ok σ →
  think_loop board budget fuel s0 bot σ g = Ok (σ', g') →
  visits_of σ' 0 = visits_of σ 0 + Z.of_nat budget.
Proof.
  revert σ g. induction budget as [|budget IH]; intros σ g Hshape Hrun.
  - injection Hrun as <- <-. simpl. lia.
  - simpl in Hrun. apply bind_Ok in Hrun as ([σ1 g1] & Hstep & Hrun).
    pose proof (think_step_steps _ _ _ _ _ _ _ Hshape Hstep) as Hsteps.
    rewrite (IH σ1 g1); [|by eapply shape_ok_steps|done].
    rewrite (think_step_root_visits _ _ _ _ _ _ _ Hshape Hstep). lia.
Qed.

Lemma think_tree_point budget fuel s0 (g : Rng) σ g' :
  think_tree board budget fuel s0 g = Ok (σ, g') →
  search_point board s0 σ.
Proof.
  intros Hrun. eapply think_loop_steps; [|done]. apply shape_ok_init.
Qed.

(** ** [rollout] and [is_win] *)

Lemma rollout_unfold fuel state (g : Rng) :
  rollout board fuel state g =
    if is_ended board state then Ok (state, g) else
    if negb (truthy (legal_actions board state)) then Ok (state, g) else
    match fuel with
    | O => OutOfFuel
    | S fuel' =>
        '(action, g') ← choice (weighted_actions (legal_actions board state)) g ;
        rollout board fuel' (next_state board state action) g'
    end.
Proof. by destruct fuel. Qed.

(** A rollout only stops at an ended state or at a state without legal
    action. *)
Lemma rollout_Ok_stop fuel state (g : Rng) state' g' :
  rollout board fuel state g = Ok (state', g') →
  is_ended board state' = true ∨ legal_actions board state' = [].
Proof.
  revert state g. induction fuel as [|fuel IH]; intros state g;
    rewrite rollout_unfold;
    destruct (is_ended board state) eqn:Hend;
    try (intros [= <- <-]; by left);
    destruct (truthy (legal_actions board state)) eqn:Hlegal; simpl;
    try (intros [= <- <-]; right; by apply truthy_false);
    try done.
  intros ([action g1] & Hchoice & Hrun)%bind_Ok. by eapply IH.
Qed.

(** A rollout raises nothing. *)
Lemma rollout_no_raise fuel state (g : Rng) e :
  rollout board fuel state g ≠ Raise e.
Proof.
  revert state g. induction fuel as [|fuel IH]; intros state g;
    rewrite rollout_unfold;
    destruct (is_ended board state) eqn:Hend; try done;
    destruct (truthy (legal_actions board state)) eqn:Hlegal; simpl;
    try done.
  destruct (choice_nonempty (weighted_actions (legal_actions board state)) g)
    as (x & Hx & ->).
  - intros Hnil. apply truthy_true in Hlegal.
    pose proof (weighted_actions_length (legal_actions board state)) as Hlen.
    rewrite Hnil in Hlen.
    destruct (legal_actions board state); [done|simpl in Hlen; lia].
  - simpl. apply IH.
Qed.

(** Under finite play a rollout ends, within a budget that serves every
    state reachable from the given one. *)
Lemma rollout_total state :
  finite_play board →
  ∃ N, ∀ state1, rtc (flip (move board)) state state1 →
    ∀ fuel (g : Rng), (N ≤ fuel)%nat →
      ∃ state' g', rollout board fuel state1 g = Ok (state', g').
Proof.
  intros Hwf. induction (Hwf state) as [state _ IH].
  destruct (bound_over_list
              (λ a N, ∀ state1,
                 rtc (flip (move board)) (next_state board state a) state1 →
                 ∀ fuel (g : Rng), (N ≤ fuel)%nat →
                   ∃ state' g', rollout board fuel state1 g = Ok (state', g'))
              (legal_actions board state)) as [N HN].
  { intros a N N' HP Hle state1 Hreach fuel g Hfuel.
    apply HP; [done|lia]. }
  { intros a Ha. apply IH. by exists a. }
  exists (S N). intros state1 Hreach fuel g Hfuel.
  apply rtc_inv in Hreach as [<-|(state2 & (a & Ha & ->) & Hreach)].
  2:{ apply (HN a Ha); [done|lia]. }
  rewrite rollout_unfold.
  destruct (is_ended board state); [by eauto|].
  destruct (truthy (legal_actions board state)) eqn:Hlegal; simpl;
    [|by eauto].
  destruct fuel as [|fuel]; [lia|].
  destruct (choice_nonempty (weighted_actions (legal_actions board state)) g)
    as (x & Hx & ->).
  { intros Hnil. apply truthy_true in Hlegal.
    pose proof (weighted_actions_length (legal_actions board state)) as Hlen.
    rewrite Hnil in Hlen.
    destruct (legal_actions board state); [done|simpl in Hlen; lia]. }
  simpl. apply (HN x); [|done|lia].
  eapply weighted_actions_elem, list_elem_of_lookup_2, Hx.
Qed.

Lemma is_win_asserts state bot :
  asserts (is_win board state bot) ↔ points_values board state = None.
Proof.
  unfold is_win, asserts. destruct (points_values board state) as [outcome|].
  - split; [|done]. by destruct (outcome bot).
  - done.
Qed.

Lemma traverse_nodes_asserts fuel (σ : store) node state bot :
  ¬ asserts (traverse_nodes board fuel σ node state bot).
Proof.
  revert node state. induction fuel as [|fuel IH]; intros node state;
    rewrite traverse_nodes_unfold;
    (intros [H|(n & _ & H)]%bind_asserts; [by apply deref_asserts in H|]);
    destruct (negb (truthy (untried_actions n)) && truthy (child_nodes n));
    try done.
  apply bind_asserts in H as [H|(keyed & _ & H)].
  { revert H. apply mapM_asserts.
    intros c [H|(score & _ & H)]%bind_asserts; [|done].
    by apply ucb_asserts in H. }
  apply bind_asserts in H as [H|(node' & _ & H)].
  { by apply py_max_asserts in H. }
  apply bind_asserts in H as [H|(n' & _ & H)].
  { by apply deref_asserts in H. }
  apply bind_asserts in H as [H|(state' & _ & H)].
  { unfold next_state_opt in H. by destruct (parent_action n'). }
  by apply IH in H.
Qed.

Lemma expand_leaf_asserts (σ : store) node state :
  ¬ asserts (expand_leaf board σ node state).
Proof.
  unfold expand_leaf. intros [H|(n & _ & H)]%bind_asserts.
  { by apply deref_asserts in H. }
  destruct (list_pop (untried_actions n)) as [[rest action]|]; [|done].
  apply bind_asserts in H as [H|(n2 & _ & H)]; [|done].
  by apply deref_asserts in H.
Qed.

(** A pass of the loop body fails the assertion only if the rollout
    handed [is_win] a state without outcome. *)
Lemma think_step_asserts fuel s0 bot (σ : store) (g : Rng) :
  (∀ fuel state (g : Rng) state' g',
     rollout board fuel state g = Ok (state', g') →
     points_values board state' ≠ None) →
  ¬ asserts (think_step board fuel s0 bot σ g).
Proof.
  intros Hroll. unfold think_step.
  intros [H|([node state] & _ & H)]%bind_asserts.
  { by apply traverse_nodes_asserts in H. }
  apply bind_asserts in H as [H|(n & _ & H)].
  { by apply deref_asserts in H. }
  apply bind_asserts in H as [H|([[σ1 node1] state1] & _ & H)].
  { destruct (truthy (untried_actions n)); [|done].
    by apply expand_leaf_asserts in H. }
  apply bind_asserts in H as [H|([final_state g1] & Hfinal & H)].
  { by apply rollout_no_raise in H. }
  apply bind_asserts in H as [H|(won & _ & H)].
  { apply is_win_asserts in H. by apply Hroll in Hfinal. }
  apply bind_asserts in H as [H|(σ2 & _ & H)]; [|done].
  by apply backpropagate_asserts in H.
Qed.

Lemma think_loop_asserts budget fuel s0 bot (σ : store) (g : Rng) :
  (∀ fuel state (g : Rng) state' g',
     rollout board fuel state g = Ok (state', g') →
     points_values board state' ≠ None) →
  ¬ asserts (think_loop board budget fuel s0 bot σ g).
Proof.
  intros Hroll. revert σ g.
  induction budget as [|budget IH]; intros σ g; [done|]. simpl.
  intros [H|([σ1 g1] & _ & H)]%bind_asserts.
  - by apply think_step_asserts in H.
  - by apply IH in H.
Qed.

(** *** Every pass of the driver completes *)

Lemma represents_fun s0 (σ : store) r s s' :
  represents board s0 σ r s → represents board s0 σ r s' → s = s'.
Proof.
  intros Hs. revert s'.
  induction Hs as [r n Hn Hp|r n p a s Hn Hp Ha _ IH]; intros s' Hs';
    inversion Hs' as [r' n' Hn' Hp'|r' n' p' a' s1 Hn' Hp' Ha' Hs1];
    simplify_eq; try done.
  f_equal. by apply IH.
Qed.

Lemma registered_ok_init s0 : registered_ok (init_store board s0).
Proof. intros [|c] cn p a Hc Hp; [by injection Hc as <-|by destruct c]. Qed.

Lemma dict_set_keys d k v a :
  a ∈ dict_keys d → a ∈ dict_keys (dict_set d k v).
Proof.
  unfold dict_keys. induction d as [|[k' v'] d IH]; simpl.
  - intros Ha. by apply elem_of_nil in Ha.
  - intros [->|Ha]%elem_of_cons; case_decide; subst; simpl.
    + by left.
    + by left.
    + right. done.
    + right. by apply IH.
Qed.

Lemma dict_set_key d k v : k ∈ dict_keys (dict_set d k v).
Proof.
  unfold dict_keys. induction d as [|[k' v'] d IH]; simpl; [by left|].
  case_decide; simpl; [by left|by right].
Qed.

Lemma registered_ok_expand (σ : store) node state σ' child state' :
  registered_ok σ →
  expand_leaf board σ node state = Ok (σ', child, state') →
  registered_ok σ'.
Proof.
  intros Hreg (n & rest & action & Hn & Hu & -> & -> & ->)%expand_leaf_Ok.
  assert (Hold : ∀ p pn a, σ !! p = Some pn → a ∈ dict_keys (child_nodes pn) →
            ∃ pn', (<[node := set_children (set_untried n rest)
                        (dict_set (child_nodes n) action (length σ))]> σ
                    ++ [new_node (Some node) (Some action)
                          (legal_actions board
                             (next_state board state action))]) !! p
                   = Some pn' ∧ a ∈ dict_keys (child_nodes pn')).
  { intros p pn a Hp Ha. eexists. split; [by eapply expanded_lookup_old|].
    case_decide; simplify_eq; [|done]. simpl. by apply dict_set_keys. }
  intros c cn p a Hc Hp Ha.
  eapply expanded_lookup in Hc as [[-> ->]|[[-> ->]|[Hnode Hc]]]; [| | |done].
  - destruct (Hreg _ _ _ _ Hn Hp Ha) as (pn & Hpn & Hin). eauto.
  - simpl in Hp, Ha. injection Hp as <-. injection Ha as <-.
    eexists. split.
    + by eapply (expanded_lookup_old σ node n _ _ node n).
    + rewrite decide_True by done. simpl. apply dict_set_key.
  - destruct (Hreg _ _ _ _ Hc Hp Ha) as (pn & Hpn & Hin). eauto.
Qed.

Lemma registered_ok_bump (σ : store) r n won :
  registered_ok σ → σ !! r = Some n → registered_ok (<[r := bump won n]> σ).
Proof.
  intros Hreg Hn c cn p a Hc Hp Ha.
  assert (∃ cn0, σ !! c = Some cn0 ∧ parent cn0 = Some p
                 ∧ parent_action cn0 = Some a) as (cn0 & Hc0 & Hp0 & Ha0).
  { apply bumped_lookup in Hc as [[-> ->]|[_ Hc]]; eauto. }
  destruct (Hreg _ _ _ _ Hc0 Hp0 Ha0) as (pn & Hpn & Hin).
  eexists. split; [by eapply bumped_lookup_old|].
  by case_decide; simplify_eq.
Qed.

Lemma registered_ok_steps s0 (σ σ' : store) :
  rtc (search_step board s0) σ σ' → registered_ok σ → registered_ok σ'.
Proof.
  induction 1 as [|σ1 σ2 σ3 Hstep _ IH]; [done|].
  intros Hok. apply IH.
  destruct Hstep as [σ1 node state σ2 child state' Hrep Hrun|σ1 r n won Hn].
  - by eapply registered_ok_expand.
  - by apply registered_ok_bump.
Qed.

(** The state a node stands for is reached from the state of the call by
    legal moves. *)
Lemma represents_reachable s0 (σ : store) r s :
  legal_nodup board → actions_ok board s0 σ → registered_ok σ →
  represents board s0 σ r s →
  rtc (flip (move board)) s0 s.
Proof.
  intros Hnd Hact Hreg.
  induction 1 as [r n Hn Hp|r n p a s Hn Hp Ha Hs IH]; [done|].
  eapply rtc_r; [done|]. exists a. split; [|done].
  destruct (Hreg _ _ _ _ Hn Hp Ha) as (pn & Hpn & Hin).
  destruct (actions_ok_node s0 σ p pn Hnd Hact Hpn)
    as (s' & Hs' & _ & Hlegal & _).
  rewrite (represents_fun _ _ _ _ _ Hs Hs'). apply Hlegal. by right.
Qed.

Lemma visits_ok_init s0 : visits_ok (init_store board s0).
Proof.
  intros [|c] cn p pn Hc Hp; [by injection Hc as <-|by destruct c].
Qed.

(** A back-reference of a well-shaped store leads to an older node. *)
Lemma shape_parent_older (σ : store) c cn p :
  shape_ok σ → σ !! c = Some cn → parent cn = Some p → (p < c)%nat.
Proof.
  intros Hshape Hc Hp. destruct (decide (c = 0%nat)) as [->|Hne].
  - destruct (shape_root σ Hshape) as (root & Hr & Hpr). simplify_eq.
  - destruct (shape_parent σ Hshape _ _ Hc Hne) as (p' & Hp' & Hlt).
    by simplify_eq.
Qed.

Lemma visits_ok_expand (σ : store) node state σ' child state' :
  shape_ok σ → counters_ok σ → visits_ok σ →
  expand_leaf board σ node state = Ok (σ', child, state') →
  visits_ok σ'.
Proof.
  intros Hshape Hcount Hvis
    (n & rest & action & Hn & Hu & -> & -> & ->)%expand_leaf_Ok.
  assert (Hsame : ∀ j x,
            (<[node := set_children (set_untried n rest)
                 (dict_set (child_nodes n) action (length σ))]> σ
             ++ [new_node (Some node) (Some action)
                   (legal_actions board (next_state board state action))])
            !! j = Some x →
            (j = length σ ∧ parent x = Some node ∧ visits x = 0) ∨
            ∃ x0, σ !! j = Some x0 ∧ parent x = parent x0
                  ∧ visits x = visits x0).
  { intros j x Hj.
    eapply expanded_lookup in Hj as [[-> ->]|[[-> ->]|[_ Hj]]]; [| | |done].
    - right. by exists n.
    - by left.
    - right. by exists x. }
  intros c cn p pn Hc Hp Hpn.
  apply Hsame in Hc as [(-> & Hpc & Hvc)|(cn0 & Hc0 & Hpc & Hvc)];
    apply Hsame in Hpn as [(-> & Hpp & Hvp)|(pn0 & Hpn0 & Hpp & Hvp)].
  - rewrite Hvc, Hvp. lia.
  - rewrite Hvc, Hvp. pose proof (Hcount _ _ Hpn0). lia.
  - rewrite Hpc in Hp.
    pose proof (shape_parent_older σ c cn0 (length σ) Hshape Hc0 Hp).
    pose proof (lookup_lt_Some _ _ _ Hc0). lia.
  - rewrite Hvc, Hvp. eapply Hvis; [done| |done]. congruence.
Qed.

(** A chain of parents holds the parent of each of its nodes. *)
Lemma parent_chain_closed (σ : store) o path c cn p :
  parent_chain σ o path → c ∈ path →
  σ !! c = Some cn → parent cn = Some p → p ∈ path.
Proof.
  induction 1 as [|r n path Hn Hchain IH]; intros Hin Hc Hp.
  - by apply elem_of_nil in Hin.
  - apply elem_of_cons in Hin as [->|Hin].
    + simplify_eq. rewrite Hp in Hchain. inversion Hchain; simplify_eq.
      right. by left.
    + right. by apply IH.
Qed.

Lemma visits_ok_backpropagate fuel (σ : store) node won σ' :
  visits_ok σ →
  backpropagate fuel σ node won = Ok σ' →
  visits_ok σ'.
Proof.
  intros Hvis Hrun.
  destruct (backpropagate_Ok_chain _ _ _ _ _ Hrun) as (path & Hchain & Hlen).
  destruct (backpropagate_chain fuel σ node path won Hchain Hlen)
    as (σ'' & Hrun' & _ & Hlook).
  rewrite Hrun in Hrun'. injection Hrun' as <-.
  intros c cn p pn Hc Hp Hpn. rewrite Hlook in Hc, Hpn.
  destruct (decide (c ∈ path)) as [Hcin|Hcout].
  - destruct (σ !! c) as [cn0|] eqn:Hc0; [|done]. injection Hc as <-.
    pose proof (parent_chain_closed _ _ _ _ _ _ Hchain Hcin Hc0 Hp) as Hpin.
    rewrite decide_True in Hpn by done.
    destruct (σ !! p) as [pn0|] eqn:Hp0; [|done]. injection Hpn as <-.
    rewrite !bump_visits. pose proof (Hvis _ _ _ _ Hc0 Hp Hp0). lia.
  - destruct (decide (p ∈ path)).
    + destruct (σ !! p) as [pn0|] eqn:Hp0; [|done]. injection Hpn as <-.
      rewrite bump_visits. pose proof (Hvis _ _ _ _ Hc Hp Hp0). lia.
    + by eapply Hvis.
Qed.

Lemma search_inv_init s0 : search_inv board s0 (init_store board s0).
Proof.
  split.
  - apply shape_ok_init.
  - apply counters_ok_init.
  - apply visits_ok_init.
  - apply actions_ok_init.
  - apply registered_ok_init.
Qed.

(** A completed pass of the loop body keeps what holds between passes
    and adds at most one node. *)
Lemma think_step_inv fuel s0 bot (σ : store) (g : Rng) σ' g' :
  legal_nodup board →
  search_inv board s0 σ →
  think_step board fuel s0 bot σ g = Ok (σ', g') →
  search_inv board s0 σ' ∧ (length σ' ≤ S (length σ))%nat.
Proof.
  intros Hnd [Hshape Hcount Hvis Hact Hreg] Hrun.
  pose proof (think_step_steps _ _ _ _ _ _ _ Hshape Hrun) as Hsteps.
  apply think_step_Ok in Hrun
    as (node & state & n & σ1 & node1 & state1 & final_state & won
        & Htrav & Hn & Hexp & Hroll & Hwin & Hback).
  assert (Hlen : length σ' = length σ1).
  { destruct (backpropagate_Ok_chain _ _ _ _ _ Hback)
      as (path & Hchain & Hlen).
    destruct (backpropagate_chain fuel σ1 _ path won Hchain Hlen)
      as (σ'' & Hrun' & Hlen' & _).
    rewrite Hback in Hrun'. by injection Hrun' as <-. }
  split; [split|].
  - by eapply shape_ok_steps.
  - by eapply counters_ok_steps.
  - eapply visits_ok_backpropagate; [|done].
    destruct Hexp as [[_ Hexp]|(_ & -> & _ & _)]; [|done].
    by eapply visits_ok_expand.
  - by eapply actions_ok_steps.
  - by eapply registered_ok_steps.
  - rewrite Hlen. destruct Hexp as [[_ Hexp]|(_ & -> & _ & _)]; [|lia].
    apply expand_leaf_Ok in Hexp
      as (n0 & rest & action & _ & _ & _ & _ & ->).
    rewrite length_app, length_insert. simpl. lia.
Qed.



(** With enough turns for its loops a pass of the loop body completes. *)
Lemma think_step_total fuel s0 (σ : store) (g : Rng) N :
  legal_nodup board → empty_iff_ended board → outcome_when_ended board →
  outcome_covers board (current_player board s0) →
  (∀ state1, rtc (flip (move board)) s0 state1 →
     ∀ fuel (g : Rng), (N ≤ fuel)%nat →
       ∃ state' g', rollout board fuel state1 g = Ok (state', g')) →
  search_inv board s0 σ →
  (N ≤ fuel)%nat → (S (length σ) ≤ fuel)%nat →
  ∃ σ' g', think_step board fuel s0 (current_player board s0) σ g
           = Ok (σ', g').
Proof.
  intros Hnd Hiff Hout Hcov Hroll [Hshape Hcount Hvis Hact Hreg] HN Hfuel.
  destruct (shape_root σ Hshape) as (root & Hr & Hpr).
  destruct (traverse_nodes_total fuel σ root_node s0
              (current_player board s0) Hshape Hcount Hvis)
    as (node & state & Htrav); [by eexists|unfold root_node; lia|].
  assert (Hrep : represents board s0 σ node state).
  { destruct (traverse_nodes_sound _ _ _ _ _ _ _ Htrav) as [Hrtc _].
    apply (descent_represents s0 σ (current_player board s0)
             (root_node, s0) (node, state)); try done.
    simpl. by eapply rep_root. }
  destruct (traverse_nodes_sound _ _ _ _ _ _ _ Htrav)
    as [_ (n & Hn & _)].
  unfold think_step. rewrite Htrav. simpl.
  rewrite (deref_lookup _ _ _ Hn). simpl.
  assert (∃ σ1 node1 state1,
            (if truthy (untried_actions n)
             then expand_leaf board σ node state
             else Ok (σ, node, state)) = Ok (σ1, node1, state1) ∧
            shape_ok σ1 ∧ is_Some (σ1 !! node1) ∧
            (length σ1 ≤ S (length σ))%nat ∧
            rtc (flip (move board)) s0 state1)
    as (σ1 & node1 & state1 & -> & Hshape1 & Hnode1 & Hlen1 & Hreach).
  { destruct (list_pop (untried_actions n)) as [[l x]|] eqn:Hu.
    - apply list_pop_Some in Hu.
      assert (truthy (untried_actions n) = true) as ->.
      { rewrite Hu. by destruct l. }
      pose proof (expand_leaf_run σ node n state l x Hn Hu) as Hexp.
      eexists _, _, _. split; [exact Hexp|].
      split_and!.
      + by eapply shape_ok_expand.
      + rewrite expanded_lookup_new. by eexists.
      + rewrite length_app, length_insert. simpl. lia.
      + eapply rtc_r; [by eapply represents_reachable|].
        exists x. split; [|done].
        destruct (actions_ok_node s0 σ node n Hnd Hact Hn)
          as (s' & Hs' & _ & Hlegal & _).
        rewrite (represents_fun _ _ _ _ _ Hrep Hs'). apply Hlegal. left.
        rewrite Hu. apply elem_of_app. right. by left.
    - apply list_pop_None in Hu. rewrite Hu. simpl.
      exists σ, node, state. split_and!; [done|done|by eexists|lia|].
      by eapply represents_reachable. }
  simpl.
  destruct (Hroll state1 Hreach fuel g HN) as (final_state & g' & Hrun).
  rewrite Hrun. simpl.
  assert (Hend : is_ended board final_state = true).
  { destruct (rollout_Ok_stop _ _ _ _ _ Hrun) as [Hend|Hnil]; [done|].
    by apply Hiff. }
  destruct (points_values board final_state) as [outcome|] eqn:Hpv;
    [|by apply Hout in Hend].
  destruct (Hcov _ _ Hpv) as [v Hv].
  unfold is_win. rewrite Hpv, Hv. simpl.
  destruct (parent_chain_exists σ1 node1 Hshape1 Hnode1)
    as (path & Hchain & Hpath).
  destruct Hnode1 as [n1 Hn1]. pose proof (lookup_lt_Some _ _ _ Hn1).
  destruct (backpropagate_chain fuel σ1 (Some node1) path
              (bool_decide (v = 1)) Hchain) as (σ' & -> & _); [lia|].
  simpl. by eauto.
Qed.

Lemma think_loop_total budget fuel s0 (σ : store) (g : Rng) N :
  legal_nodup board → empty_iff_ended board → outcome_when_ended board →
  outcome_covers board (current_player board s0) →
  (∀ state1, rtc (flip (move board)) s0 state1 →
     ∀ fuel (g : Rng), (N ≤ fuel)%nat →
       ∃ state' g', rollout board fuel state1 g = Ok (state', g')) →
  search_inv board s0 σ →
  (N ≤ fuel)%nat → (length σ + budget ≤ fuel)%nat →
  ∃ σ' g', think_loop board budget fuel s0 (current_player board s0) σ g
           = Ok (σ', g').
Proof.
  intros Hnd Hiff Hout Hcov Hroll. revert σ g.
  induction budget as [|budget IH]; intros σ g Hinv HN Hfuel; [by eauto|].
  simpl.
  destruct (think_step_total fuel s0 σ g N) as (σ1 & g1 & Hstep);
    try done; [lia|].
  rewrite Hstep. simpl.
  destruct (think_step_inv _ _ _ _ _ _ _ Hnd Hinv Hstep) as [Hinv1 Hlen1].
  apply IH; [done|done|lia].
Qed.

(** With enough turns for its loops the driver builds its tree. *)
Lemma think_tree_total budget s0 :
  finite_play board → legal_nodup board → empty_iff_ended board →
  outcome_when_ended board →
  outcome_covers board (current_player board s0) →
  ∃ N, ∀ fuel (g : Rng), (N ≤ fuel)%nat →
    ∃ σ g', think_tree board budget fuel s0 g = Ok (σ, g').
Proof.
  intros Hwf Hnd Hiff Hout Hcov.
  destruct (rollout_total s0 Hwf) as [N HN].
  exists (N `max` S budget)%nat. intros fuel g Hfuel. unfold think_tree.
  apply (think_loop_total budget fuel s0 _ g N); try done.
  - apply search_inv_init.
  - lia.
  - simpl. lia.
Qed.

(** C3. Expansion of a node with an untried action pops exactly the
    last untried action, creates one node for the state the engine
    gives for that action, with the legal actions of that state untried,
    no child and no visit, registers it under the action in the
    children of the expanded node, changes no other node, and returns
    the new node with its state.  In the driver, whatever the store, the
    node the descent returned is expanded exactly when it has an untried
    action; when it has none, the pass is the rollout from the state the
    descent returned followed by the backpropagation from that very
    node, and such a pass creates no node and leaves the untried
    actions, the children and the back-references of every node as they
    were. *)
Theorem expand_leaf_adds_child :
  (∀ (σ : store) node n state rest action,
     σ !! node = Some n →
     untried_actions n = rest ++ [action] →
     ∃ σ' n',
       expand_leaf board σ node state
       = Ok (σ', length σ, next_state board state action) ∧
       length σ' = S (length σ) ∧
       σ' !! length σ
       = Some (mkNode (Some node) (Some action) []
                 (legal_actions board (next_state board state action)) 0 0) ∧
       σ' !! node = Some n' ∧
       untried_actions n' = rest ∧
       child_nodes n' = dict_set (child_nodes n) action (length σ) ∧
       dict_get (child_nodes n') action = Some (length σ) ∧
       (∀ a, a ≠ action →
          dict_get (child_nodes n') a = dict_get (child_nodes n) a) ∧
       parent n' = parent n ∧ parent_action n' = parent_action n ∧
       wins n' = wins n ∧ visits n' = visits n ∧
       (∀ j, j ≠ node → j ≠ length σ → σ' !! j = σ !! j)) ∧
  (∀ fuel s0 bot (σ : store) (g : Rng) node0 state0 n0,
     traverse_nodes board fuel σ root_node s0 bot = Ok (node0, state0) →
     σ !! node0 = Some n0 →
     (untried_actions n0 ≠ [] →
        think_step board fuel s0 bot σ g =
          '(σ1, node1, state1) ← expand_leaf board σ node0 state0 ;
          '(final_state, g') ← rollout board fuel state1 g ;
          won ← is_win board final_state bot ;
          σ2 ← backpropagate fuel σ1 (Some node1) won ;
          Ok (σ2, g')) ∧
     (untried_actions n0 = [] →
        think_step board fuel s0 bot σ g =
          ('(final_state, g') ← rollout board fuel state0 g ;
           won ← is_win board final_state bot ;
           σ2 ← backpropagate fuel σ (Some node0) won ;
           Ok (σ2, g')) ∧
        ∀ σ' g', think_step board fuel s0 bot σ g = Ok (σ', g') →
          length σ' = length σ ∧
          ∀ i n, σ !! i = Some n →
            ∃ n', σ' !! i = Some n' ∧
              untried_actions n' = untried_actions n ∧
              child_nodes n' = child_nodes n ∧
              parent n' = parent n ∧ parent_action n' = parent_action n)).
Proof.
  split.
  - intros σ node n state rest action Hn Hu.
    pose proof (lookup_lt_Some _ _ _ Hn) as Hlt.
    eexists _, _. split; [by apply expand_leaf_run|].
    split_and!.
    + rewrite length_app, length_insert. simpl. lia.
    + apply expanded_lookup_new.
    + rewrite lookup_app_l by (by rewrite length_insert).
      by apply list_lookup_insert_eq.
    + done.
    + done.
    + apply dict_get_set.
    + intros a Ha. by apply dict_get_set_ne.
    + done.
    + done.
    + done.
    + done.
    + intros j Hj Hj'. destruct (decide (j < length σ)%nat).
      * rewrite lookup_app_l by (by rewrite length_insert).
        by rewrite list_lookup_insert_ne.
      * rewrite !lookup_ge_None_2; [done|lia|].
        rewrite length_app, length_insert. simpl. lia.
  - intros fuel s0 bot σ g node0 state0 n0 Htrav Hn0.
    assert (Hstep : think_step board fuel s0 bot σ g =
              '(σ1, node1, state1) ←
                (if truthy (untried_actions n0)
                 then expand_leaf board σ node0 state0
                 else Ok (σ, node0, state0)) ;
              '(final_state, g') ← rollout board fuel state1 g ;
              won ← is_win board final_state bot ;
              σ2 ← backpropagate fuel σ1 (Some node1) won ;
              Ok (σ2, g')).
    { unfold think_step. rewrite Htrav. simpl.
      by rewrite (deref_lookup _ _ _ Hn0). }
    split.
    + intros Hu%truthy_true. by rewrite Hstep, Hu.
    + intros Hu. pose proof Hu as Ht%truthy_false.
      rewrite Ht in Hstep. split; [exact Hstep|].
      intros σ' g' Hrun. rewrite Hstep in Hrun. simpl in Hrun.
      apply bind_Ok in Hrun as ([final_state g1] & _ & Hrun).
      apply bind_Ok in Hrun as (won & _ & Hrun).
      apply bind_Ok in Hrun as (σ2 & Hback & [= <- <-]).
      destruct (backpropagate_Ok_chain _ _ _ _ _ Hback)
        as (path & Hchain & Hlen).
      destruct (backpropagate_chain fuel σ (Some node0) path won Hchain Hlen)
        as (σ'' & Hrun' & Hlen' & Hlook).
      rewrite Hback in Hrun'. injection Hrun' as <-.
      split; [done|]. intros i n Hi. rewrite Hlook, Hi.
      case_decide; simpl; by eexists.
Qed.

(** C4. Under an engine with finite play, whose legal actions run out
    exactly in the ended states and whose ended states have an outcome:
    a rollout returns once its loop is given enough turns, whatever the
    draws; the state it returns is ended, so the outcome query of
    [is_win] finds an outcome there; a rollout raises nothing; and no
    run of [think] fails the assertion of [is_win]. *)
Theorem rollout_reaches_terminal :
  finite_play board → empty_iff_ended board → outcome_when_ended board →
  (∀ state, ∃ N, ∀ fuel (g : Rng), (N ≤ fuel)%nat →
     ∃ state' g', rollout board fuel state g = Ok (state', g') ∧
       is_ended board state' = true) ∧
  (∀ fuel state (g : Rng) state' g',
     rollout board fuel state g = Ok (state', g') →
     is_ended board state' = true ∧
     points_values board state' ≠ None ∧
     ∀ bot, is_win board state' bot ≠ Raise AssertionError) ∧
  (∀ fuel state (g : Rng) e, rollout board fuel state g ≠ Raise e) ∧
  (∀ budget fuel s0 (g : Rng),
     think_with board budget fuel s0 g ≠ Raise AssertionError) ∧
  (∀ fuel s0 (g : Rng), think board fuel s0 g ≠ Raise AssertionError).
Proof.
  intros Hwf Hiff Hout.
  assert (Hended : ∀ fuel state (g : Rng) state' g',
            rollout board fuel state g = Ok (state', g') →
            is_ended board state' = true).
  { intros fuel state g state' g' Hrun.
    destruct (rollout_Ok_stop _ _ _ _ _ Hrun) as [Hend|Hnil]; [done|].
    by apply Hiff. }
  assert (Hthink : ∀ budget fuel s0 (g : Rng),
            think_with board budget fuel s0 g ≠ Raise AssertionError).
  { intros budget fuel s0 g. unfold think_with, think_tree.
    intros [H|([σ g'] & _ & H)]%bind_asserts.
    - revert H. apply think_loop_asserts. intros. eapply Hout, Hended. done.
    - by apply get_best_action_asserts in H. }
  split_and!.
  - intros state. destruct (rollout_total state Hwf) as [N HN].
    exists N. intros fuel g Hfuel.
    destruct (HN state (rtc_refl _ _) fuel g Hfuel) as (state' & g' & Hrun).
    exists state', g'. split; [done|]. by eapply Hended.
  - intros fuel state g state' g' Hrun.
    pose proof (Hended _ _ _ _ _ Hrun) as Hend. split_and!; [done|by apply Hout|].
    intros bot H. apply is_win_asserts in H. by apply Hout in Hend.
  - intros fuel state g e. apply rollout_no_raise.
  - done.
  - intros fuel s0 g. apply Hthink.
Qed.

Lemma think_tree_root_visits budget fuel s0 (g : Rng) σ g' :
  think_tree board budget fuel s0 g = Ok (σ, g') →
  ∃ root, σ !! root_node = Some root ∧ visits root = Z.of_nat budget.
Proof.
  intros Hrun.
  pose proof (think_loop_root_visits _ _ _ _ _ _ _ _
                (shape_ok_init s0) Hrun) as Hv.
  pose proof (shape_ok_steps s0 _ _ (think_tree_point _ _ _ _ _ _ Hrun)
                (shape_ok_init s0)) as Hshape.
  destruct (shape_root σ Hshape) as (root & Hr & _).
  exists root. split; [done|].
  unfold visits_of in Hv. rewrite Hr in Hv. simpl in Hv. lia.
Qed.

(** The tree after a single pass from a state with a legal action. *)
Lemma think_tree_single fuel s0 (g : Rng) σ g' :
  legal_actions board s0 ≠ [] →
  think_tree board 1 fuel s0 g = Ok (σ, g') →
  ∃ root action child,
    σ !! root_node = Some root ∧ visits root = 1 ∧
    child_nodes root = [(action, 1%nat)] ∧
    length σ = 2%nat ∧
    σ !! 1%nat = Some child ∧
    parent child = Some root_node ∧ parent_action child = Some action ∧
    child_nodes child = [] ∧
    untried_actions child
    = legal_actions board (next_state board s0 action) ∧
    visits child = 1.
Proof.
  intros Hlegal Hrun. unfold think_tree in Hrun. simpl in Hrun.
  apply bind_Ok in Hrun as ([σ1 g1] & Hstep & [= <- <-]).
  apply think_step_Ok in Hstep
    as (node & state & n & σ2 & node1 & state1 & final_state & won
        & Htrav & Hn & Hexp & Hroll & Hwin & Hback).
  rewrite (traverse_nodes_stop fuel (init_store board s0) root_node
             (new_node None None (legal_actions board s0)) s0)
    in Htrav; [|done|by left].
  injection Htrav as <- <-. injection Hn as <-.
  destruct Hexp as [[_ Hexp]|[Hu _]]; [|done].
  apply expand_leaf_Ok in Hexp
    as (n & rest & action & [= <-] & Hu & -> & -> & ->).
  simpl in Hback, Hu.
  destruct (backpropagate_Ok_chain _ _ _ _ _ Hback)
    as (path & Hchain & Hlen).
  destruct (backpropagate_chain fuel _ _ path won Hchain Hlen)
    as (σ' & Hrun' & Hlen' & Hlook).
  rewrite Hback in Hrun'. injection Hrun' as <-.
  assert (path = [1%nat; 0%nat]) as ->.
  { eapply parent_chain_fun; [done|].
    eapply chain_some; [reflexivity|]. simpl.
    eapply chain_some; [reflexivity|]. simpl. constructor. }
  eexists _, action, _. split_and!.
  - unfold root_node. rewrite Hlook. simpl. reflexivity.
  - done.
  - done.
  - by rewrite Hlen'.
  - rewrite Hlook. simpl. reflexivity.
  - done.
  - done.
  - done.
  - done.
  - done.
Qed.

(** C7. When the loop of the driver has run its budget of [N] passes,
    the root has exactly [N] visits (1000 for the budget of [think]);
    after a single pass from a state with a legal action the root has
    one visit and exactly one child, the node just expanded.  Under an
    engine that keeps its contract the loop does run through, once its
    inner loops are given enough turns. *)
Theorem think_root_visits budget s0 :
  (∀ fuel (g : Rng) σ g',
     think_tree board budget fuel s0 g = Ok (σ, g') →
     (∃ root, σ !! root_node = Some root ∧ visits root = Z.of_nat budget) ∧
     (budget = num_nodes →
      ∃ root, σ !! root_node = Some root ∧ visits root = 1000) ∧
     (budget = 1%nat → legal_actions board s0 ≠ [] →
      ∃ root action child,
        σ !! root_node = Some root ∧ visits root = 1 ∧
        child_nodes root = [(action, 1%nat)] ∧
        length σ = 2%nat ∧
        σ !! 1%nat = Some child ∧
        parent child = Some root_node ∧ parent_action child = Some action ∧
        child_nodes child = [] ∧
        untried_actions child
        = legal_actions board (next_state board s0 action) ∧
        visits child = 1)) ∧
  (finite_play board → legal_nodup board → empty_iff_ended board →
   outcome_when_ended board →
   outcome_covers board (current_player board s0) →
   ∃ N, ∀ fuel (g : Rng), (N ≤ fuel)%nat →
     ∃ σ g' root,
       think_tree board budget fuel s0 g = Ok (σ, g') ∧
       σ !! root_node = Some root ∧ visits root = Z.of_nat budget).
Proof.
  split.
  - intros fuel g σ g' Hrun.
    pose proof (think_tree_root_visits _ _ _ _ _ _ Hrun) as Hroot.
    split_and!; [done| |].
    + intros ->. destruct Hroot as (root & Hr & Hv). by exists root.
    + intros -> Hlegal. by eapply think_tree_single.
  - intros Hwf Hnd Hiff Hout Hcov.
    destruct (think_tree_total budget s0 Hwf Hnd Hiff Hout Hcov) as [N HN].
    exists N. intros fuel g Hfuel.
    destruct (HN fuel g Hfuel) as (σ & g' & Hrun).
    destruct (think_tree_root_visits _ _ _ _ _ _ Hrun) as (root & Hr & Hv).
    by exists σ, g', root.
Qed.

(** C9. Under an engine whose legal actions form a set: the untried
    actions and the keys of the children of a node are disjoint, and
    together they are the legal actions of the state the node was
    created for, so their numbers add up to the number of those legal
    actions.  The root is created so, an expansion keeps it by moving the
    popped action from the untried actions to the keys, and it holds of
    every node in every store a search call goes through. *)
Theorem untried_children_split s0 :
  legal_nodup board →
  actions_ok board s0 (init_store board s0) ∧
  (∀ (σ : store) node state σ' child state',
     actions_ok board s0 σ →
     represents board s0 σ node state →
     expand_leaf board σ node state = Ok (σ', child, state') →
     actions_ok board s0 σ' ∧
     ∃ n n' action,
       σ !! node = Some n ∧ σ' !! node = Some n' ∧
       untried_actions n = untried_actions n' ++ [action] ∧
       dict_keys (child_nodes n')
       = dict_keys (child_nodes n) ++ [action]) ∧
  (∀ σ : store, search_point board s0 σ →
     ∀ i n, σ !! i = Some n →
       ∃ s, represents board s0 σ i s ∧
         (∀ a, a ∈ untried_actions n → a ∉ dict_keys (child_nodes n)) ∧
         (∀ a, a ∈ legal_actions board s ↔
               a ∈ untried_actions n ∨ a ∈ dict_keys (child_nodes n)) ∧
         NoDup (untried_actions n) ∧
         NoDup (dict_keys (child_nodes n)) ∧
         (length (untried_actions n) + length (child_nodes n))%nat
         = length (legal_actions board s)) ∧
  (∀ budget fuel (g : Rng) σ g',
     think_tree board budget fuel s0 g = Ok (σ, g') →
     search_point board s0 σ).
Proof.
  intros Hnd. split_and!.
  - apply actions_ok_init.
  - intros σ node state σ' child state' Hok Hrep Hrun.
    split; [by eapply actions_ok_expand|].
    pose proof Hrun as (n & rest & action & Hn & Hu & -> & -> & ->)%expand_leaf_Ok.
    pose proof (lookup_lt_Some _ _ _ Hn) as Hlt.
    exists n, (set_children (set_untried n rest)
                 (dict_set (child_nodes n) action (length σ))), action.
    split_and!; [done| |done|].
    + rewrite lookup_app_l by (by rewrite length_insert).
      by apply list_lookup_insert_eq.
    + simpl. destruct (Hok _ _ Hn) as (s & Hs & Hsplit).
      rewrite dict_set_fresh; [unfold dict_keys; by rewrite fmap_app|].
      pose proof (Hnd s) as Hnodup. rewrite <- Hsplit, Hu in Hnodup.
      rewrite <- app_assoc in Hnodup.
      apply NoDup_app in Hnodup as (_ & _ & Hnodup).
      apply NoDup_app in Hnodup as (_ & Hdisj & _).
      intros Hin. apply (Hdisj action); [by left|].
      by apply elem_of_reverse.
  - intros σ Hpoint i n Hi.
    apply (actions_ok_node s0 σ i n Hnd); [|done].
    eapply actions_ok_steps; [done|done|]. apply actions_ok_init.
  - intros budget fuel g σ g'. apply think_tree_point.
Qed.

(** C10. In every store a search call goes through every node has
    [0 <= wins <= visits]; from any such store on, the wins (and the
    visits) of a node never go down; a backpropagation visit adds
    exactly 1 to the visits and 0 or 1 to the wins of the node, an
    expansion leaves the counters of the existing nodes alone, and the
    passes of the driver are made of these two steps only. *)
Theorem wins_bounded_monotone s0 :
  (∀ σ : store, search_point board s0 σ →
     ∀ i n, σ !! i = Some n → 0 ≤ wins n ≤ visits n) ∧
  (∀ σ σ' : store, search_point board s0 σ →
     rtc (search_step board s0) σ σ' →
     ∀ i n, σ !! i = Some n →
       ∃ n', σ' !! i = Some n' ∧ wins n ≤ wins n' ∧ visits n ≤ visits n') ∧
  (∀ won n, visits (bump won n) = visits n + 1 ∧
            (wins (bump won n) = wins n ∨ wins (bump won n) = wins n + 1)) ∧
  (∀ (σ : store) node state σ' child state' i n,
     expand_leaf board σ node state = Ok (σ', child, state') →
     σ !! i = Some n →
     ∃ n', σ' !! i = Some n' ∧ wins n' = wins n ∧ visits n' = visits n) ∧
  (∀ budget fuel bot (σ : store) (g : Rng) σ' g',
     search_point board s0 σ →
     think_loop board budget fuel s0 bot σ g = Ok (σ', g') →
     rtc (search_step board s0) σ σ').
Proof.
  split_and!.
  - intros σ Hpoint. eapply counters_ok_steps; [done|].
    apply counters_ok_init.
  - intros σ σ' _ Hsteps. by eapply counters_grow_steps.
  - intros won n. rewrite bump_visits, bump_wins.
    split; [done|]. destruct won; simpl; lia.
  - intros σ node state σ' child state' i n
      (n0 & rest & action & Hn & Hu & -> & -> & ->)%expand_leaf_Ok Hi.
    eexists. split; [by eapply expanded_lookup_old|].
    case_decide; by simplify_eq.
  - intros budget fuel bot σ g σ' g' Hpoint.
    apply think_loop_steps. eapply shape_ok_steps; [done|].
    apply shape_ok_init.
Qed.

End SearchProps.

(** ** The countdown game and the small trees *)

Lemma countdown_legal_nodup : legal_nodup countdown.
Proof.
  intros s. simpl. apply (sublist_NoDup _ cells); [|apply sublist_take].
  apply (bool_decide_unpack (NoDup cells)). vm_compute. exact I.
Qed.

Lemma countdown_finite_play : finite_play countdown.
Proof.
  apply (wf_projected Nat.lt (λ s : nat, s)); [|apply lt_wf].
  intros s' s (a & Ha & ->). simpl in *.
  destruct s; [by apply elem_of_nil in Ha|]. simpl. unfold Nat.lt. lia.
Qed.

Lemma countdown_empty_iff_ended : empty_iff_ended countdown.
Proof.
  intros s. simpl. rewrite bool_decide_eq_true. by destruct s.
Qed.

Lemma countdown_outcome_when_ended : outcome_when_ended countdown.
Proof. intros s. simpl. intros ->. done. Qed.

Lemma small_tree_shape : shape_ok small_tree.
Proof.
  split.
  - by eexists.
  - intros [|[|[|c]]] cn Hc Hne; simplify_eq/=; eexists; split; done || lia.
  - intros [|[|[|i]]] n a c Hi Hin; simplify_eq/=.
    + apply elem_of_cons in Hin as [[= -> ->]|Hin]; [by eexists|].
      apply list_elem_of_singleton in Hin as [= -> ->]. by eexists.
    + by apply elem_of_nil in Hin.
    + by apply elem_of_nil in Hin.
Qed.

Lemma small_tree_counters : counters_ok small_tree.
Proof. intros [|[|[|i]]] n Hi; simplify_eq/=; lia. Qed.

Lemma small_tree_visits : visits_ok small_tree.
Proof.
  intros [|[|[|c]]] cn p pn Hc Hp Hpn; simplify_eq/=; lia.
Qed.

Lemma full_tree_descent :
  traverse_nodes countdown 2 full_tree root_node 1%nat 2 = Ok (1%nat, 0%nat).
Proof.
  rewrite traverse_nodes_unfold. simpl.
  rewrite (ucb_visited full_tree 1%nat
             (mkNode (Some 0%nat) (Some (0, 0, 1, 1)) [] [] 0 1) 0%nat
             (mkNode None None [((0, 0, 1, 1), 1%nat)] [] 0 1))
    by (reflexivity || lia).
  reflexivity.
Qed.

Lemma expand_leaf_adds_child_witness :
  (∃ σ' n',
     expand_leaf countdown small_tree 1%nat 1%nat
     = Ok (σ', length small_tree, next_state countdown 1%nat (0, 0, 1, 1)) ∧
     length σ' = S (length small_tree) ∧
     σ' !! length small_tree
     = Some (mkNode (Some 1%nat) (Some (0, 0, 1, 1)) []
               (legal_actions countdown
                  (next_state countdown 1%nat (0, 0, 1, 1))) 0 0) ∧
     σ' !! 1%nat = Some n' ∧
     untried_actions n' = [] ∧
     child_nodes n' = dict_set [] (0, 0, 1, 1) (length small_tree) ∧
     dict_get (child_nodes n') (0, 0, 1, 1) = Some (length small_tree) ∧
     (∀ a, a ≠ (0, 0, 1, 1) → dict_get (child_nodes n') a = dict_get [] a) ∧
     parent n' = Some 0%nat ∧ parent_action n' = Some (0, 0, 0, 0) ∧
     wins n' = 1 ∧ visits n' = 1 ∧
     (∀ j, j ≠ 1%nat → j ≠ length small_tree →
        σ' !! j = small_tree !! j)) ∧
  think_step countdown 3 2%nat 1 first_tree (λ _, 0%nat)
  = ('(σ1, node1, state1) ← expand_leaf countdown first_tree 0%nat 2%nat ;
     '(final_state, g') ← rollout countdown 3 state1 (λ _, 0%nat) ;
     won ← is_win countdown final_state 1 ;
     σ2 ← backpropagate 3 σ1 (Some node1) won ;
     Ok (σ2, g')) ∧
  think_step countdown 1 0%nat 1 (init_store countdown 0%nat) (λ _, 0%nat)
  = Ok ([mkNode None None [] [] 1 1], λ _, 0%nat) ∧
  think_step countdown 2 1%nat 2 full_tree (λ _, 0%nat)
  = Ok ([ mkNode None None [((0, 0, 1, 1), 1%nat)] [] 0 2;
          mkNode (Some 0%nat) (Some (0, 0, 1, 1)) [] [] 0 2 ], λ _, 0%nat) ∧
  (∀ σ' g',
     think_step countdown 2 1%nat 2 full_tree (λ _, 0%nat) = Ok (σ', g') →
     length σ' = length full_tree ∧
     ∀ i n, full_tree !! i = Some n →
       ∃ n', σ' !! i = Some n' ∧
         untried_actions n' = untried_actions n ∧
         child_nodes n' = child_nodes n ∧
         parent n' = parent n ∧ parent_action n' = parent_action n).
Proof.
  destruct (expand_leaf_adds_child countdown) as [Hexpand Hdriver].
  destruct (Hdriver 3%nat 2%nat 1 first_tree (λ _, 0%nat) 0%nat 2%nat
              (mkNode None None [((0, 0, 0, 0), 1%nat)] [(0, 0, 1, 1)] 1 1)
              eq_refl eq_refl) as [Hfirst _].
  destruct (Hdriver 1%nat 0%nat 1 (init_store countdown 0%nat) (λ _, 0%nat)
              0%nat 0%nat (new_node None None []) eq_refl eq_refl)
    as [_ Hended].
  destruct (Hdriver 2%nat 1%nat 2 full_tree (λ _, 0%nat) 1%nat 0%nat
              (mkNode (Some 0%nat) (Some (0, 0, 1, 1)) [] [] 0 1)
              full_tree_descent eq_refl) as [_ Hfull].
  split_and!.
  - apply (Hexpand small_tree 1%nat
             (mkNode (Some 0%nat) (Some (0, 0, 0, 0)) [] [(0, 0, 1, 1)] 1 1)
             1%nat [] (0, 0, 1, 1)); reflexivity.
  - apply Hfirst. discriminate.
  - destruct (Hended eq_refl) as [-> _]. reflexivity.
  - destruct (Hfull eq_refl) as [-> _]. reflexivity.
  - destruct (Hfull eq_refl) as [_ Hkept]. exact Hkept.
Defined.

Lemma rollout_reaches_terminal_witness :
  (∀ state, ∃ N, ∀ fuel (g : Rng), (N ≤ fuel)%nat →
     ∃ state' g', rollout countdown fuel state g = Ok (state', g') ∧
       is_ended countdown state' = true) ∧
  (∀ fuel state (g : Rng) state' g',
     rollout countdown fuel state g = Ok (state', g') →
     is_ended countdown state' = true ∧
     points_values countdown state' ≠ None ∧
     ∀ bot, is_win countdown state' bot ≠ Raise AssertionError) ∧
  (∀ fuel state (g : Rng) e, rollout countdown fuel state g ≠ Raise e) ∧
  (∀ budget fuel s0 (g : Rng),
     think_with countdown budget fuel s0 g ≠ Raise AssertionError) ∧
  (∀ fuel s0 (g : Rng), think countdown fuel s0 g ≠ Raise AssertionError).
Proof.
  apply (rollout_reaches_terminal countdown).
  - exact countdown_finite_play.
  - exact countdown_empty_iff_ended.
  - exact countdown_outcome_when_ended.
Defined.

Lemma countdown_outcome_covers s0 :
  outcome_covers countdown (current_player countdown s0).
Proof.
  intros s outcome. simpl. case_bool_decide; [|done]. intros [= <-].
  destruct (Nat.even s0); by eexists.
Qed.

Lemma think_root_visits_witness :
  think_tree countdown 1 3 2%nat (λ _, 0%nat) = Ok (first_tree, λ _, 0%nat) ∧
  (∃ root, first_tree !! root_node = Some root ∧ visits root = Z.of_nat 1) ∧
  (∃ root action child,
     first_tree !! root_node = Some root ∧ visits root = 1 ∧
     child_nodes root = [(action, 1%nat)] ∧
     length first_tree = 2%nat ∧
     first_tree !! 1%nat = Some child ∧
     parent child = Some root_node ∧ parent_action child = Some action ∧
     child_nodes child = [] ∧
     untried_actions child
     = legal_actions countdown (next_state countdown 2%nat action) ∧
     visits child = 1) ∧
  (∃ N, ∀ fuel (g : Rng), (N ≤ fuel)%nat →
     ∃ σ g' root,
       think_tree countdown 1 fuel 2%nat g = Ok (σ, g') ∧
       σ !! root_node = Some root ∧ visits root = Z.of_nat 1).
Proof.
  assert (Hrun : think_tree countdown 1 3 2%nat (λ _, 0%nat)
                 = Ok (first_tree, λ _, 0%nat)) by (vm_compute; reflexivity).
  destruct (think_root_visits countdown 1 2%nat) as [Hdone Htotal].
  destruct (Hdone 3%nat (λ _, 0%nat) first_tree (λ _, 0%nat) Hrun)
    as (Hvisits & _ & Hsingle).
  split_and!.
  - exact Hrun.
  - exact Hvisits.
  - apply Hsingle; [reflexivity|discriminate].
  - apply Htotal.
    + exact countdown_finite_play.
    + exact countdown_legal_nodup.
    + exact countdown_empty_iff_ended.
    + exact countdown_outcome_when_ended.
    + exact (countdown_outcome_covers 2%nat).
Defined.

Lemma untried_children_split_witness :
  actions_ok countdown 2%nat (init_store countdown 2%nat) ∧
  (∀ (σ : store) node state σ' child state',
     actions_ok countdown 2%nat σ →
     represents countdown 2%nat σ node state →
     expand_leaf countdown σ node state = Ok (σ', child, state') →
     actions_ok countdown 2%nat σ' ∧
     ∃ n n' action,
       σ !! node = Some n ∧ σ' !! node = Some n' ∧
       untried_actions n = untried_actions n' ++ [action] ∧
       dict_keys (child_nodes n')
       = dict_keys (child_nodes n) ++ [action]) ∧
  (∀ σ : store, search_point countdown 2%nat σ →
     ∀ i n, σ !! i = Some n →
       ∃ s, represents countdown 2%nat σ i s ∧
         (∀ a, a ∈ untried_actions n → a ∉ dict_keys (child_nodes n)) ∧
         (∀ a, a ∈ legal_actions countdown s ↔
               a ∈ untried_actions n ∨ a ∈ dict_keys (child_nodes n)) ∧
         NoDup (untried_actions n) ∧
         NoDup (dict_keys (child_nodes n)) ∧
         (length (untried_actions n) + length (child_nodes n))%nat
         = length (legal_actions countdown s)) ∧
  (∀ budget fuel (g : Rng) σ g',
     think_tree countdown budget fuel 2%nat g = Ok (σ, g') →
     search_point countdown 2%nat σ).
Proof.
  apply (untried_children_split countdown 2%nat).
  exact countdown_legal_nodup.
Defined.


(** * Further properties of the code *)

(** ** Scores *)


Lemma float_lt_inf_inv score : float_lt score PInf → ∃ x, score = Fin x.
Proof. destruct score; [done|by eexists]. Qed.



Section SearchFacts.
Context {State : Type} (board : Board State).


End SearchFacts.


Section ThinkFacts.
Context {State : Type} (board : Board State).

(** ** The rollout plays legal moves *)

Lemma rollout_moves fuel state (g : Rng) state' g' :
  rollout board fuel state g = Ok (state', g') →
  ∃ k, (k ≤ fuel)%nat ∧
    nsteps (flip (move board)) k state state' ∧
    ∀ i, g' i = g (k + i)%nat.
Proof.
  revert state g. induction fuel as [|fuel IH]; intros state g;
    rewrite rollout_unfold;
    destruct (is_ended board state) eqn:Hend;
    try (intros [= <- <-]; exists 0%nat; split_and!;
         [lia|constructor|done]);
    destruct (truthy (legal_actions board state)) eqn:Hlegal; simpl;
    try (intros [= <- <-]; exists 0%nat; split_and!;
         [lia|constructor|done]);
    try done.
  intros ([action g1] & Hchoice & Hrun)%bind_Ok.
  destruct (choice_nonempty (weighted_actions (legal_actions board state)) g)
    as (x & Hx & Hchoice').
  { intros Hnil. rewrite Hnil in Hchoice. done. }
  rewrite Hchoice in Hchoice'. injection Hchoice' as -> ->.
  destruct (IH _ _ Hrun) as (k & Hk & Hsteps & Hg).
  exists (S k). split_and!; [lia| |].
  - eapply nsteps_l; [|done]. exists x. split; [|done].
    eapply weighted_actions_elem, list_elem_of_lookup_2, Hx.
  - intros i. rewrite Hg. done.
Qed.

(** X3. A successful rollout is a play of legal moves: the state it
    returns is reached from the given state by [k] engine transitions,
    each along an action that is legal where it is taken, with [k] at
    most the number of turns of the loop, and it has used exactly [k]
    draws of the generator.  From an ended state, or one without legal
    action, it returns the state itself without drawing. *)
Theorem rollout_plays_legal_moves fuel state (g : Rng) state' g' :
  rollout board fuel state g = Ok (state', g') →
  (∃ k, (k ≤ fuel)%nat ∧
     nsteps (flip (move board)) k state state' ∧
     ∀ i, g' i = g (k + i)%nat) ∧
  (is_ended board state = true ∨ legal_actions board state = [] →
   state' = state ∧ ∀ i, g' i = g i).
Proof.
  intros Hrun. split; [by apply rollout_moves|].
  intros Hstop. rewrite rollout_unfold in Hrun.
  destruct (is_ended board state); [by injection Hrun as <- <-|].
  destruct Hstop as [?|Hnil]; [done|]. rewrite Hnil in Hrun.
  by injection Hrun as <- <-.
Qed.

End ThinkFacts.

Lemma rollout_plays_legal_moves_witness :
  (∃ k, (k ≤ 3)%nat ∧
     nsteps (flip (move countdown)) k 2%nat 0%nat ∧
     ∀ i, (λ _ : nat, 0%nat) i = (λ _ : nat, 0%nat) (k + i)%nat) ∧
  (is_ended countdown 2%nat = true ∨ legal_actions countdown 2%nat = [] →
   0%nat = 2%nat ∧ ∀ i, (λ _ : nat, 0%nat) i = (λ _ : nat, 0%nat) i).
Proof.
  apply (rollout_plays_legal_moves countdown 3 2%nat (λ _, 0%nat)
           0%nat (λ _, 0%nat)).
  vm_compute. reflexivity.
Defined.

Section TreeFacts.
Context {State : Type} (board : Board State).

(** ** The tree between the passes of the driver *)

(** The store after a successful backpropagation, node by node. *)
Lemma backpropagate_lookup fuel (σ : store) node won σ' :
  backpropagate fuel σ node won = Ok σ' →
  ∃ path, parent_chain σ node path ∧
    length σ' = length σ ∧
    ∀ j, σ' !! j = if decide (j ∈ path) then bump won <$> σ !! j else σ !! j.
Proof.
  intros Hrun.
  destruct (backpropagate_Ok_chain _ _ _ _ _ Hrun) as (path & Hchain & Hlen).
  destruct (backpropagate_chain fuel σ node path won Hchain Hlen)
    as (σ'' & Hrun' & Hlen' & Hlook).
  rewrite Hrun in Hrun'. injection Hrun' as <-. by exists path.
Qed.

Lemma visited_ok_init s0 : visited_ok (init_store board s0).
Proof. intros [|c] cn Hc Hne; [done|by destruct c]. Qed.

(** A pass leaves every node but the root visited: the node it creates
    is the one backpropagation starts from. *)
Lemma think_step_visited fuel s0 bot (σ : store) (g : Rng) σ' g' :
  visited_ok σ →
  think_step board fuel s0 bot σ g = Ok (σ', g') →
  visited_ok σ'.
Proof.
  intros Hvis Hrun. apply think_step_Ok in Hrun
    as (node & state & n & σ1 & node1 & state1 & final_state & won
        & Htrav & Hn & Hexp & Hroll & Hwin & Hback).
  destruct (backpropagate_lookup _ _ _ _ _ Hback)
    as (path & Hchain & _ & Hlook).
  assert (Hold : ∀ c cn, σ1 !! c = Some cn → c ≠ 0%nat →
            1 ≤ visits cn ∨ (c = node1 ∧ visits cn = 0)).
  { destruct Hexp as [[_ Hexp]|(_ & -> & -> & _)]; [|by left; eauto].
    apply expand_leaf_Ok in Hexp
      as (n0 & rest & action & Hn0 & Hu & -> & -> & ->).
    intros c cn Hc Hne.
    eapply expanded_lookup in Hc as [[-> ->]|[[-> ->]|[_ Hc]]]; [| | |done].
    - left. by apply (Hvis _ _ Hn0).
    - by right.
    - left. by eapply Hvis. }
  intros c cn Hc Hne. rewrite Hlook in Hc.
  destruct (decide (c ∈ path)) as [Hin|Hout].
  - destruct (σ1 !! c) as [cn1|] eqn:Hc1; [|done]. injection Hc as <-.
    rewrite bump_visits.
    destruct (Hold _ _ Hc1 Hne) as [?|[_ ?]]; lia.
  - destruct (Hold _ _ Hc Hne) as [?|[-> _]]; [done|].
    exfalso. apply Hout. inversion Hchain; simplify_eq. by left.
Qed.

Lemma think_step_length fuel s0 bot (σ : store) (g : Rng) σ' g' :
  think_step board fuel s0 bot σ g = Ok (σ', g') →
  (length σ ≤ length σ' ≤ S (length σ))%nat.
Proof.
  intros Hrun. apply think_step_Ok in Hrun
    as (node & state & n & σ1 & node1 & state1 & final_state & won
        & Htrav & Hn & Hexp & Hroll & Hwin & Hback).
  destruct (backpropagate_lookup _ _ _ _ _ Hback)
    as (path & _ & -> & _).
  destruct Hexp as [[_ Hexp]|(_ & -> & _ & _)]; [|lia].
  apply expand_leaf_Ok in Hexp
    as (n0 & rest & action & _ & _ & _ & _ & ->).
  rewrite length_app, length_insert. simpl. lia.
Qed.

(** What every pass keeps, whatever the engine. *)
Lemma think_step_plain fuel s0 bot (σ : store) (g : Rng) σ' g' :
  shape_ok σ ∧ counters_ok σ ∧ visits_ok σ ∧ visited_ok σ →
  think_step board fuel s0 bot σ g = Ok (σ', g') →
  shape_ok σ' ∧ counters_ok σ' ∧ visits_ok σ' ∧ visited_ok σ'.
Proof.
  intros (Hshape & Hcount & Hvis & Hvisited) Hrun.
  pose proof (think_step_steps _ _ _ _ _ _ _ _ Hshape Hrun) as Hsteps.
  split_and!.
  - by eapply shape_ok_steps.
  - by eapply counters_ok_steps.
  - apply think_step_Ok in Hrun
      as (node & state & n & σ1 & node1 & state1 & final_state & won
          & Htrav & Hn & Hexp & Hroll & Hwin & Hback).
    eapply visits_ok_backpropagate; [|done].
    destruct Hexp as [[_ Hexp]|(_ & -> & _ & _)]; [|done].
    by eapply visits_ok_expand.
  - by eapply think_step_visited.
Qed.

Lemma think_loop_plain budget fuel s0 bot (σ : store) (g : Rng) σ' g' :
  shape_ok σ ∧ counters_ok σ ∧ visits_ok σ ∧ visited_ok σ →
  think_loop board budget fuel s0 bot σ g = Ok (σ', g') →
  (shape_ok σ' ∧ counters_ok σ' ∧ visits_ok σ' ∧ visited_ok σ') ∧
  (length σ ≤ length σ' ≤ length σ + budget)%nat.
Proof.
  revert σ g. induction budget as [|budget IH]; intros σ g Hinv.
  - intros [= <- <-]. split; [done|lia].
  - simpl. intros ([σ1 g1] & Hstep & Hrun)%bind_Ok.
    pose proof (think_step_plain _ _ _ _ _ _ _ Hinv Hstep) as Hinv1.
    pose proof (think_step_length _ _ _ _ _ _ _ Hstep) as Hlen1.
    destruct (IH _ _ Hinv1 Hrun) as [Hinv' Hlen']. split; [done|lia].
Qed.

Lemma init_store_plain s0 :
  shape_ok (init_store board s0) ∧ counters_ok (init_store board s0) ∧
  visits_ok (init_store board s0) ∧ visited_ok (init_store board s0).
Proof.
  split_and!.
  - apply shape_ok_init.
  - apply counters_ok_init.
  - apply visits_ok_init.
  - apply visited_ok_init.
Qed.


(** X5. Every pass of the driver adds at most one node: after a budget
    of [N] passes the tree has between 1 and [N + 1] nodes. *)
Theorem think_tree_size budget fuel s0 (g : Rng) σ g' :
  think_tree board budget fuel s0 g = Ok (σ, g') →
  (1 ≤ length σ ≤ S budget)%nat.
Proof.
  intros Hrun.
  destruct (think_loop_plain _ _ _ _ _ _ _ _ (init_store_plain s0) Hrun)
    as [_ Hlen].
  simpl in Hlen. lia.
Qed.

End TreeFacts.

Section FailureFacts.
Context {State : Type} (board : Board State).

(** ** How the driver can fail *)

(** On a store as the driver keeps it the descent returns or is still
    running: it raises nothing. *)
Lemma traverse_nodes_benign fuel (σ : store) node state bot :
  shape_ok σ → counters_ok σ → visits_ok σ →
  is_Some (σ !! node) →
  (∃ r, traverse_nodes board fuel σ node state bot = Ok r) ∨
  traverse_nodes board fuel σ node state bot = OutOfFuel.
Proof.
  intros Hshape Hcount Hvis. revert node state.
  induction fuel as [|fuel IH]; intros node state [n Hn];
    rewrite traverse_nodes_unfold, (deref_lookup _ _ _ Hn); simpl;
    (destruct (negb (truthy (untried_actions n)) && truthy (child_nodes n))
       eqn:Hcond; [|by eauto]);
    apply loop_condition in Hcond as [Hu Hc]; [by right|].
  destruct (mapM_total
              (λ child : ref,
                 score ← ucb σ child (opponent_flag board bot state) ;
                 Ok (child, score))
              (dict_values (child_nodes n))) as [keyed Hkeyed].
  { intros c Hc'. unfold dict_values in Hc'.
    apply list_elem_of_fmap in Hc' as ([a c'] & -> & Hin).
    destruct (ucb_child_total σ node n a c'
                (opponent_flag board bot state)) as [score Hscore];
      try done.
    exists (c', score). simpl. by rewrite Hscore. }
  rewrite Hkeyed. simpl.
  assert (Hmax : ∃ child, py_max float_gt keyed = Ok child).
  { destruct keyed as [|first keyed']; [|by eexists].
    apply mapM_Forall2, Forall2_length in Hkeyed.
    unfold dict_values in Hkeyed. rewrite length_fmap in Hkeyed.
    by destruct (child_nodes n). }
  destruct Hmax as [child Hmax]. rewrite Hmax. simpl.
  destruct (scored_max _ _ _ _ _ Hkeyed Hmax) as [Hin _].
  unfold dict_values in Hin.
  apply list_elem_of_fmap in Hin as ([a c'] & -> & Hin). simpl.
  destruct (shape_child σ Hshape _ _ _ _ Hn Hin) as (cn & Hcn & Hp & Ha).
  rewrite (deref_lookup _ _ _ Hcn). simpl. rewrite Ha. simpl.
  apply IH. by eexists.
Qed.

Lemma rollout_benign fuel state (g : Rng) :
  (∃ r, rollout board fuel state g = Ok r) ∨
  rollout board fuel state g = OutOfFuel.
Proof.
  revert state g. induction fuel as [|fuel IH]; intros state g;
    rewrite rollout_unfold;
    destruct (is_ended board state) eqn:Hend; try (by eauto);
    destruct (truthy (legal_actions board state)) eqn:Hlegal; simpl;
    try (by eauto).
  destruct (choice_nonempty (weighted_actions (legal_actions board state)) g)
    as (x & Hx & ->).
  - intros Hnil. apply truthy_true in Hlegal.
    pose proof (weighted_actions_length (legal_actions board state)) as Hlen.
    rewrite Hnil in Hlen.
    destruct (legal_actions board state); [done|simpl in Hlen; lia].
  - simpl. apply IH.
Qed.

(** With too few turns backpropagation along a chain is still running. *)
Lemma backpropagate_short fuel (σ : store) node path won :
  parent_chain σ node path → (fuel < length path)%nat →
  backpropagate fuel σ node won = OutOfFuel.
Proof.
  revert fuel σ node. induction path as [|r path IH];
    intros fuel σ node Hc Hfuel; [simpl in Hfuel; lia|].
  pose proof (parent_chain_NoDup _ _ _ Hc) as [Hfresh _]%NoDup_cons.
  inversion Hc as [|r' n path' Hn Hc']; simplify_eq.
  destruct fuel as [|fuel]; [done|].
  rewrite (backpropagate_turn _ _ _ _ _ Hn).
  apply IH; [|simpl in Hfuel; lia].
  apply (parent_chain_agree σ); [done|].
  intros j Hj. rewrite list_lookup_insert_ne; [done|]. by intros ->.
Qed.

Lemma backpropagate_benign fuel (σ : store) node won :
  shape_ok σ → is_Some (σ !! node) →
  (∃ σ', backpropagate fuel σ (Some node) won = Ok σ') ∨
  backpropagate fuel σ (Some node) won = OutOfFuel.
Proof.
  intros Hshape Hnode.
  destruct (parent_chain_exists σ node Hshape Hnode) as (path & Hchain & _).
  destruct (decide (length path ≤ fuel)%nat) as [Hle|Hgt].
  - left. destruct (backpropagate_chain fuel σ (Some node) path won
                      Hchain Hle) as (σ' & Hrun & _). by exists σ'.
  - right. eapply backpropagate_short; [done|lia].
Qed.

Lemma think_step_outcome fuel s0 bot (σ : store) (g : Rng) :
  shape_ok σ → counters_ok σ → visits_ok σ →
  pass_outcome (think_step board fuel s0 bot σ g).
Proof.
  intros Hshape Hcount Hvis. unfold think_step, pass_outcome.
  destruct (shape_root σ Hshape) as (root & Hr & Hpr).
  destruct (traverse_nodes_benign fuel σ root_node s0 bot Hshape Hcount Hvis)
    as [[[node state] Htrav]| ->]; [by eexists| |by auto].
  rewrite Htrav. simpl.
  destruct (traverse_nodes_sound _ _ _ _ _ _ _ _ Htrav)
    as [_ (n & Hn & _)].
  rewrite (deref_lookup _ _ _ Hn). simpl.
  assert (∃ σ1 node1 state1,
            (if truthy (untried_actions n)
             then expand_leaf board σ node state
             else Ok (σ, node, state)) = Ok (σ1, node1, state1) ∧
            shape_ok σ1 ∧ is_Some (σ1 !! node1))
    as (σ1 & node1 & state1 & -> & Hshape1 & Hnode1).
  { destruct (list_pop (untried_actions n)) as [[l x]|] eqn:Hu.
    - apply list_pop_Some in Hu.
      assert (truthy (untried_actions n) = true) as ->.
      { rewrite Hu. by destruct l. }
      pose proof (expand_leaf_run board σ node n state l x Hn Hu) as Hexp.
      eexists _, _, _. split; [exact Hexp|]. split.
      + by eapply shape_ok_expand.
      + rewrite expanded_lookup_new. by eexists.
    - apply list_pop_None in Hu. rewrite Hu. simpl.
      exists σ, node, state. split_and!; [done|done|by eexists]. }
  simpl.
  destruct (rollout_benign fuel state1 g) as [[[final_state g'] ->]| ->];
    [|by auto].
  simpl. unfold is_win.
  destruct (points_values board final_state) as [outcome|]; [|by auto].
  destruct (outcome bot) as [v|]; [|by auto 6]. simpl.
  destruct (backpropagate_benign fuel σ1 node1 (bool_decide (v = 1))
              Hshape1 Hnode1) as [[σ' ->]| ->]; simpl; eauto.
Qed.

Lemma think_loop_outcome budget fuel s0 bot (σ : store) (g : Rng) :
  shape_ok σ ∧ counters_ok σ ∧ visits_ok σ ∧ visited_ok σ →
  pass_outcome (think_loop board budget fuel s0 bot σ g).
Proof.
  revert σ g. induction budget as [|budget IH]; intros σ g Hinv.
  - left. by eexists.
  - simpl. pose proof Hinv as (Hshape & Hcount & Hvis & _).
    destruct (think_step_outcome fuel s0 bot σ g Hshape Hcount Hvis)
      as [[[σ1 g1] Hstep]|[Hstep|[Hstep|Hstep]]];
      rewrite Hstep; simpl; unfold pass_outcome; auto.
    apply IH. by eapply think_step_plain.
Qed.

Lemma children_grow_refl (σ : store) : children_grow σ σ.
Proof. intros j nj Hj. by exists nj. Qed.

Lemma children_grow_trans (σ1 σ2 σ3 : store) :
  children_grow σ1 σ2 → children_grow σ2 σ3 → children_grow σ1 σ3.
Proof.
  intros H12 H23 j nj Hj.
  destruct (H12 _ _ Hj) as (n2 & H2 & Hl2).
  destruct (H23 _ _ H2) as (n3 & H3 & Hl3).
  exists n3. split; [done|lia].
Qed.

Lemma dict_set_length d k v : (length d ≤ length (dict_set d k v))%nat.
Proof.
  induction d as [|[k' v'] d IH]; simpl; [lia|].
  case_decide; simpl; lia.
Qed.

Lemma children_grow_steps s0 (σ σ' : store) :
  rtc (search_step board s0) σ σ' → children_grow σ σ'.
Proof.
  induction 1 as [|σ1 σ2 σ3 Hstep _ IH]; [apply children_grow_refl|].
  eapply children_grow_trans; [|done]. clear IH.
  destruct Hstep as [σ1 node state σ2 child state' _ Hrun|σ1 r n won Hn];
    intros j nj Hj.
  - apply expand_leaf_Ok in Hrun
      as (n & rest & action & Hn & Hu & -> & -> & ->).
    eexists. split; [by eapply expanded_lookup_old|].
    case_decide; simplify_eq; simpl; [apply dict_set_length|lia].
  - eexists. split; [by eapply bumped_lookup_old|].
    case_decide; simplify_eq; simpl; lia.
Qed.

(** After a first pass from a state with a legal action the root has a
    child, and it keeps having one. *)
Lemma think_tree_root_child budget fuel s0 (g : Rng) σ g' :
  legal_actions board s0 ≠ [] →
  think_tree board (S budget) fuel s0 g = Ok (σ, g') →
  ∃ root, σ !! root_node = Some root ∧ child_nodes root ≠ [].
Proof.
  intros Hlegal Hrun. unfold think_tree in Hrun. simpl in Hrun.
  apply bind_Ok in Hrun as ([σ1 g1] & Hstep & Hrun).
  assert (Hone : think_tree board 1 fuel s0 g = Ok (σ1, g1)).
  { unfold think_tree. simpl. by rewrite Hstep. }
  destruct (think_tree_single board fuel s0 g σ1 g1 Hlegal Hone)
    as (root & action & child & Hr & _ & Hchildren & _).
  pose proof (think_tree_point _ _ _ _ _ _ _ Hone) as Hpoint.
  pose proof (shape_ok_steps board s0 _ _ Hpoint (shape_ok_init board s0))
    as Hshape1.
  pose proof (think_loop_steps _ _ _ _ _ _ _ _ _ Hshape1 Hrun) as Hsteps.
  destruct (children_grow_steps s0 _ _ Hsteps _ _ Hr) as (root' & Hr' & Hlen).
  exists root'. split; [done|]. rewrite Hchildren in Hlen.
  intros Hnil. rewrite Hnil in Hlen. simpl in Hlen. lia.
Qed.

(** [get_best_action] on a root whose children are in the store. *)
Lemma get_best_action_outcome (σ : store) root r :
  σ !! root = Some r →
  (∀ a c, (a, c) ∈ child_nodes r → is_Some (σ !! c)) →
  (child_nodes r = [] ∧ get_best_action σ root = Raise ValueError) ∨
  (child_nodes r ≠ [] ∧
   ∃ a c, get_best_action σ root = Ok a ∧ (a, c) ∈ child_nodes r).
Proof.
  intros Hr Hsome. destruct (decide (child_nodes r = [])) as [Hnil|Hne].
  - left. split; [done|]. unfold get_best_action.
    rewrite (deref_lookup _ _ _ Hr). simpl. by rewrite Hnil.
  - right. split; [done|].
    destruct (get_best_action_split σ root r Hr Hne Hsome)
      as (pre & a & c & post & Hrun & Hsplit & _).
    exists a, c. split; [done|]. rewrite Hsplit.
    apply elem_of_app. right. by left.
Qed.

(** X6. Whatever the engine, the generator and the budgets, [think]
    ends in one of these ways only: it returns an action; a loop is
    still running; [is_win] fails its assertion or misses the key of
    the bot, because of the outcome the engine gave; or
    [get_best_action] takes the maximum of no child at all, which
    happens only with a budget of 0 passes or from a state without
    legal action.  It never pops an empty stack, draws from an empty
    list, follows a missing parent or hands the engine a missing
    action. *)
Theorem think_failure_modes budget fuel s0 (g : Rng) :
  (∃ a, think_with board budget fuel s0 g = Ok a) ∨
  think_with board budget fuel s0 g = OutOfFuel ∨
  think_with board budget fuel s0 g = Raise AssertionError ∨
  think_with board budget fuel s0 g = Raise KeyError ∨
  (think_with board budget fuel s0 g = Raise ValueError ∧
   (budget = 0%nat ∨ legal_actions board s0 = [])).
Proof.
  unfold think_with.
  destruct (think_loop_outcome budget fuel s0 (current_player board s0)
              (init_store board s0) g (init_store_plain board s0))
    as [[[σ g'] Hrun]|[Hrun|[Hrun|Hrun]]];
    unfold think_tree; rewrite Hrun; simpl; auto.
  destruct (think_loop_plain _ _ _ _ _ _ _ _ _ (init_store_plain board s0)
              Hrun) as [(Hshape & _) _].
  destruct (shape_root σ Hshape) as (root & Hr & _).
  destruct (get_best_action_outcome σ root_node root Hr)
    as [[Hnil Hbest]|[Hne (a & c & Hbest & _)]].
  { intros a c Hin.
    destruct (shape_child σ Hshape _ _ _ _ Hr Hin) as (cn & Hcn & _).
    by eexists. }
  - do 4 right. split; [done|].
    destruct budget as [|budget]; [by left|]. right.
    destruct (decide (legal_actions board s0 = [])) as [|Hlegal]; [done|].
    destruct (think_tree_root_child budget fuel s0 g σ g' Hlegal Hrun)
      as (root' & Hr' & Hne).
    unfold root_node in *. by simplify_eq.
  - left. by exists a.
Qed.

End FailureFacts.

Section AnswerFacts.
Context {State : Type} (board : Board State).

(** ** What the driver answers *)

(** A pass over a root that has neither untried action nor child. *)
Lemma think_step_lone fuel s0 bot (r : MCTSNode) (g : Rng) :
  legal_actions board s0 = [] →
  untried_actions r = [] → child_nodes r = [] → parent r = None →
  think_step board (S fuel) s0 bot [r] g =
    won ← is_win board s0 bot ; Ok ([bump won r], g).
Proof.
  intros Hlegal Hu Hc Hp. unfold think_step.
  rewrite (traverse_nodes_stop board (S fuel) [r] root_node r s0 bot);
    [|done|by right].
  cbn -[rollout backpropagate is_win]. rewrite Hu.
  cbn -[rollout backpropagate is_win].
  assert (rollout board (S fuel) s0 g = Ok (s0, g)) as ->.
  { rewrite rollout_unfold. destruct (is_ended board s0); [done|].
    by rewrite Hlegal. }
  cbn -[backpropagate is_win].
  destruct (is_win board s0 bot) as [won| | |];
    cbn -[backpropagate]; try done.
  rewrite (backpropagate_turn fuel [r] root_node r won) by done.
  rewrite Hp. by destruct fuel.
Qed.

Lemma think_loop_lone budget fuel s0 bot (r : MCTSNode) (g : Rng) won :
  legal_actions board s0 = [] →
  is_win board s0 bot = Ok won →
  untried_actions r = [] → child_nodes r = [] → parent r = None →
  ∃ r', think_loop board budget (S fuel) s0 bot [r] g = Ok ([r'], g) ∧
    child_nodes r' = [] ∧
    visits r' = visits r + Z.of_nat budget.
Proof.
  intros Hlegal Hwin. revert r.
  induction budget as [|budget IH]; intros r Hu Hc Hp.
  - exists r. split_and!; [done|done|lia].
  - simpl. rewrite think_step_lone, Hwin by done. simpl.
    destruct (IH (bump won r)) as (r' & Hrun & Hc' & Hv'); try done.
    exists r'. split_and!; [done|done|].
    rewrite Hv', bump_visits. lia.
Qed.

(** X7. Asked for a move in a state without legal action, [think] has
    nothing to choose from: with a budget of 0 passes, or when the
    engine gives the state an outcome that covers the bot, it visits the
    root once per pass and then fails in [get_best_action] with the
    [ValueError] of a maximum over no child; when [is_win] fails on the
    state, the first pass fails the same way. *)
Theorem think_on_finished_game budget fuel s0 (g : Rng) :
  legal_actions board s0 = [] →
  (budget = 0%nat ∨
   (∃ won, is_win board s0 (current_player board s0) = Ok won) →
   think_with board budget (S fuel) s0 g = Raise ValueError) ∧
  (∀ e, is_win board s0 (current_player board s0) = Raise e →
   think_with board (S budget) (S fuel) s0 g = Raise e).
Proof.
  intros Hlegal. split.
  - intros Hcase. unfold think_with, think_tree, init_store.
    rewrite Hlegal.
    assert (∃ r', think_loop board budget (S fuel) s0
                    (current_player board s0) [new_node None None []] g
                  = Ok ([r'], g) ∧ child_nodes r' = [])
      as (r' & -> & Hc').
    { destruct Hcase as [->|[won Hwin]].
      - by eexists.
      - destruct (think_loop_lone budget fuel s0 (current_player board s0)
                    (new_node None None []) g won Hlegal Hwin)
          as (r' & Hrun & Hc' & _); try done.
        by exists r'. }
    simpl. unfold get_best_action, root_node. simpl. by rewrite Hc'.
  - intros e He. unfold think_with, think_tree, init_store.
    rewrite Hlegal. simpl.
    rewrite think_step_lone, He by done. done.
Qed.

Lemma get_best_action_key (σ : store) root a :
  get_best_action σ root = Ok a →
  ∃ r c, σ !! root = Some r ∧ (a, c) ∈ child_nodes r.
Proof.
  unfold get_best_action.
  intros (r & Hr%deref_Ok & (keyed & Hkeyed & Hrun)%bind_Ok)%bind_Ok.
  apply bind_Ok in Hrun as ([a' c] & Hmax & [= <-]).
  exists r, c. split; [done|].
  apply mapM_Forall2 in Hkeyed.
  destruct (py_max_split (A := Action * ref) Z.gtb
              (λ a b, a < b) (λ a b, a ≤ b)
              Zgtb_true Zgtb_false
              ltac:(cbv beta; intros; lia) ltac:(cbv beta; intros; lia)
              keyed)
    as (pre & x & post & Heq & Hx & _).
  { intros ->. done. }
  rewrite Hx in Hmax. injection Hmax as Hmax.
  assert (Hin : x ∈ keyed).
  { rewrite Heq. apply elem_of_app. right. by left. }
  apply list_elem_of_lookup in Hin as [i Hi].
  destruct (Forall2_lookup_r _ _ _ _ _ Hkeyed Hi) as (item & Hitem & Hrun).
  apply bind_Ok in Hrun as (child & _ & [= <-]). simpl in Hmax. subst item.
  by eapply list_elem_of_lookup_2.
Qed.

(** The keys of the children of the root are legal in the state of the
    call. *)
Lemma root_child_legal budget fuel s0 (g : Rng) σ g' root a c :
  legal_nodup board →
  think_tree board budget fuel s0 g = Ok (σ, g') →
  σ !! root_node = Some root → (a, c) ∈ child_nodes root →
  a ∈ legal_actions board s0 ∧ a ∉ untried_actions root.
Proof.
  intros Hnd Hrun Hr Hin.
  pose proof (think_tree_point _ _ _ _ _ _ _ Hrun) as Hpoint.
  pose proof (actions_ok_steps board s0 _ _ Hnd Hpoint
                (actions_ok_init board s0)) as Hact.
  pose proof (shape_ok_steps board s0 _ _ Hpoint (shape_ok_init board s0))
    as Hshape.
  destruct (actions_ok_node board s0 σ root_node root Hnd Hact Hr)
    as (s & Hs & Hdisj & Hlegal & _).
  destruct (shape_root σ Hshape) as (root' & Hr' & Hpr).
  unfold root_node in *. simplify_eq.
  assert (s = s0) as ->.
  { eapply represents_fun; [done|]. by eapply rep_root. }
  assert (Hkey : a ∈ dict_keys (child_nodes root)).
  { unfold dict_keys. apply list_elem_of_fmap. by exists (a, c). }
  split; [apply Hlegal; by right|].
  intros Hu. by apply (Hdisj a Hu).
Qed.

(** X8. Under an engine whose legal actions form a set, an action
    [think] returns is legal in the state it was asked about and was
    tried from the root; and under an engine that keeps its contract,
    asked about a state with a legal action and given at least one
    pass, [think] does return such an action once its loops are given
    enough turns. *)
Theorem think_returns_legal_action s0 :
  legal_nodup board →
  (∀ budget fuel (g : Rng) a,
     think_with board budget fuel s0 g = Ok a →
     a ∈ legal_actions board s0) ∧
  (∀ fuel (g : Rng) a,
     think board fuel s0 g = Ok a → a ∈ legal_actions board s0) ∧
  (finite_play board → empty_iff_ended board → outcome_when_ended board →
   outcome_covers board (current_player board s0) →
   legal_actions board s0 ≠ [] →
   ∀ budget, ∃ N, ∀ fuel (g : Rng), (N ≤ fuel)%nat →
     ∃ a, think_with board (S budget) fuel s0 g = Ok a ∧
          a ∈ legal_actions board s0).
Proof.
  intros Hnd.
  assert (Hlegal : ∀ budget fuel (g : Rng) a,
            think_with board budget fuel s0 g = Ok a →
            a ∈ legal_actions board s0).
  { intros budget fuel g a. unfold think_with.
    intros ([σ g'] & Hrun & Hbest)%bind_Ok.
    destruct (get_best_action_key _ _ _ Hbest) as (r & c & Hr & Hin).
    by destruct (root_child_legal _ _ _ _ _ _ _ _ _ Hnd Hrun Hr Hin). }
  split_and!; [done|intros fuel g a; apply Hlegal|].
  intros Hwf Hiff Hout Hcov Hne budget.
  destruct (think_tree_total board (S budget) s0 Hwf Hnd Hiff Hout Hcov)
    as [N HN].
  exists N. intros fuel g Hfuel. destruct (HN fuel g Hfuel) as (σ & g' & Hrun).
  destruct (think_tree_root_child board budget fuel s0 g σ g' Hne Hrun)
    as (root & Hr & Hchild).
  pose proof (shape_ok_steps board s0 _ _
                (think_tree_point _ _ _ _ _ _ _ Hrun)
                (shape_ok_init board s0)) as Hshape.
  destruct (get_best_action_outcome σ root_node root Hr)
    as [[Hnil _]|[_ (a & c & Hbest & Hin)]]; [|done|].
  { intros a c Hin.
    destruct (shape_child σ Hshape _ _ _ _ Hr Hin) as (cn & Hcn & _).
    by eexists. }
  exists a. split.
  - unfold think_with. rewrite Hrun. simpl. done.
  - by destruct (root_child_legal _ _ _ _ _ _ _ _ _ Hnd Hrun Hr Hin).
Qed.

End AnswerFacts.

Section OwnershipFacts.
Context {State : Type} (board : Board State).

(** ** The store is a tree *)

Lemma owned_ok_init s0 : owned_ok (init_store board s0).
Proof.
  split.
  - intros [|c] cn Hc Hne; [done|by destruct c].
  - intros [|i] n Hi; [|by destruct i]. injection Hi as <-. constructor.
Qed.

(** The action an expansion pops is not yet a key of the children. *)
Lemma popped_action_fresh s0 (σ : store) node n rest action :
  legal_nodup board → actions_ok board s0 σ →
  σ !! node = Some n → untried_actions n = rest ++ [action] →
  action ∉ dict_keys (child_nodes n).
Proof.
  intros Hnd Hact Hn Hu. destruct (Hact _ _ Hn) as (s & _ & Hsplit).
  pose proof (Hnd s) as Hnodup. rewrite <- Hsplit, Hu in Hnodup.
  rewrite <- app_assoc in Hnodup.
  apply NoDup_app in Hnodup as (_ & _ & Hnodup).
  apply NoDup_app in Hnodup as (_ & Hdisj & _).
  intros Hin. apply (Hdisj action); [by left|]. by apply elem_of_reverse.
Qed.

Lemma owned_ok_expand s0 (σ : store) node state σ' child state' :
  legal_nodup board → shape_ok σ → actions_ok board s0 σ → owned_ok σ →
  expand_leaf board σ node state = Ok (σ', child, state') →
  owned_ok σ'.
Proof.
  intros Hnd Hshape Hact [Hown Hvals]
    (n & rest & action & Hn & Hu & -> & -> & ->)%expand_leaf_Ok.
  pose proof (popped_action_fresh s0 σ node n rest action Hnd Hact Hn Hu)
    as Hfresh.
  rewrite (dict_set_fresh _ _ _ Hfresh).
  pose proof (lookup_lt_Some _ _ _ Hn) as Hlt.
  assert (Hold : ∀ p pn a c, σ !! p = Some pn → (a, c) ∈ child_nodes pn →
            ∃ pn', (<[node := set_children (set_untried n rest)
                        (child_nodes n ++ [(action, length σ)])]> σ
                    ++ [new_node (Some node) (Some action)
                          (legal_actions board
                             (next_state board state action))]) !! p
                   = Some pn' ∧ (a, c) ∈ child_nodes pn').
  { intros p pn a c Hp Ha. eexists. split; [by eapply expanded_lookup_old|].
    case_decide; simplify_eq; [|done]. simpl. apply elem_of_app. by left. }
  split.
  - intros c cn Hc Hne.
    eapply expanded_lookup in Hc as [[-> ->]|[[-> ->]|[_ Hc]]]; [| | |done].
    + destruct (Hown _ _ Hn Hne) as (p & a & pn & Hp & Ha & Hpn & Hin).
      destruct (Hold _ _ _ _ Hpn Hin) as (pn' & Hpn' & Hin').
      by exists p, a, pn'.
    + eexists node, action, _. split_and!; [done|done| |].
      * by eapply (expanded_lookup_old σ node n _ _ node n).
      * rewrite decide_True by done. simpl. apply elem_of_app. right.
        by left.
    + destruct (Hown _ _ Hc Hne) as (p & a & pn & Hp & Ha & Hpn & Hin).
      destruct (Hold _ _ _ _ Hpn Hin) as (pn' & Hpn' & Hin').
      by exists p, a, pn'.
  - intros i ni Hi.
    eapply expanded_lookup in Hi as [[-> ->]|[[-> ->]|[_ Hi]]]; [| | |done].
    + simpl. unfold dict_values. rewrite fmap_app. simpl.
      apply NoDup_app. split_and!; [by apply (Hvals _ _ Hn)| |].
      * intros c Hc Hnew%list_elem_of_singleton.
        apply list_elem_of_fmap in Hc as ([a c'] & Heq & Hin). simpl in *.
        destruct (shape_child σ Hshape _ _ _ _ Hn Hin) as (cn & Hcn & _).
        pose proof (lookup_lt_Some _ _ _ Hcn). lia.
      * apply NoDup_singleton.
    + simpl. constructor.
    + by apply (Hvals _ _ Hi).
Qed.

Lemma owned_ok_bump (σ : store) r n won :
  owned_ok σ → σ !! r = Some n → owned_ok (<[r := bump won n]> σ).
Proof.
  intros [Hown Hvals] Hn. split.
  - intros c cn Hc Hne.
    assert (∃ cn0, σ !! c = Some cn0 ∧ parent cn = parent cn0
                   ∧ parent_action cn = parent_action cn0)
      as (cn0 & Hc0 & Hp0 & Ha0).
    { apply bumped_lookup in Hc as [[-> ->]|[_ Hc]]; eauto. }
    destruct (Hown _ _ Hc0 Hne) as (p & a & pn & Hp & Ha & Hpn & Hin).
    eexists p, a, _. split_and!; [congruence|congruence| |].
    + by eapply bumped_lookup_old.
    + by case_decide; simplify_eq.
  - intros i ni Hi. apply bumped_lookup in Hi as [[-> ->]|[_ Hi]].
    + by apply (Hvals _ _ Hn).
    + by apply (Hvals _ _ Hi).
Qed.

(** What the steps of a search call keep under an engine whose legal
    actions form a set. *)
Lemma tree_ok_steps s0 (σ σ' : store) :
  legal_nodup board →
  rtc (search_step board s0) σ σ' →
  shape_ok σ ∧ actions_ok board s0 σ ∧ owned_ok σ →
  shape_ok σ' ∧ actions_ok board s0 σ' ∧ owned_ok σ'.
Proof.
  intros Hnd. induction 1 as [|σ1 σ2 σ3 Hstep _ IH]; [done|].
  intros (Hshape & Hact & Hown). apply IH.
  destruct Hstep as [σ1 node state σ2 child state' Hrep Hrun|σ1 r n won Hn].
  - split_and!.
    + by eapply shape_ok_expand.
    + by eapply actions_ok_expand.
    + by eapply owned_ok_expand.
  - split_and!.
    + by apply shape_ok_bump.
    + by apply actions_ok_bump.
    + by apply owned_ok_bump.
Qed.

Lemma think_tree_tree_ok budget fuel s0 (g : Rng) σ g' :
  legal_nodup board →
  think_tree board budget fuel s0 g = Ok (σ, g') →
  shape_ok σ ∧ actions_ok board s0 σ ∧ owned_ok σ.
Proof.
  intros Hnd Hrun.
  apply (tree_ok_steps s0 (init_store board s0) σ Hnd).
  - by eapply think_tree_point.
  - split_and!.
    + apply shape_ok_init.
    + apply actions_ok_init.
    + apply owned_ok_init.
Qed.

(** X9. Under an engine whose legal actions form a set, the store
    [think] builds is a tree: every node but the root refers back to an
    older node, in whose children it is stored under its
    [parent_action]; a node is stored in the children of one node only,
    under one action only, and once only; and the keys of a children
    mapping are distinct. *)
Theorem think_tree_is_tree budget fuel s0 (g : Rng) σ g' :
  legal_nodup board →
  think_tree board budget fuel s0 g = Ok (σ, g') →
  (∀ c cn, σ !! c = Some cn → c ≠ 0%nat →
     ∃ p a pn, parent cn = Some p ∧ (p < c)%nat ∧
       parent_action cn = Some a ∧
       σ !! p = Some pn ∧ (a, c) ∈ child_nodes pn) ∧
  (∀ i j ni nj a a' c,
     σ !! i = Some ni → σ !! j = Some nj →
     (a, c) ∈ child_nodes ni → (a', c) ∈ child_nodes nj →
     i = j ∧ a = a') ∧
  (∀ i n, σ !! i = Some n →
     NoDup (dict_values (child_nodes n)) ∧
     NoDup (dict_keys (child_nodes n))).
Proof.
  intros Hnd Hrun.
  destruct (think_tree_tree_ok _ _ _ _ _ _ Hnd Hrun)
    as (Hshape & Hact & [Hown Hvals]).
  split_and!.
  - intros c cn Hc Hne.
    destruct (Hown _ _ Hc Hne) as (p & a & pn & Hp & Ha & Hpn & Hin).
    exists p, a, pn. split_and!; try done.
    by eapply shape_parent_older.
  - intros i j ni nj a a' c Hi Hj Hin Hin'.
    destruct (shape_child σ Hshape _ _ _ _ Hi Hin) as (cn & Hcn & Hp & Ha).
    destruct (shape_child σ Hshape _ _ _ _ Hj Hin') as (cn' & Hcn' & Hp' & Ha').
    simplify_eq. done.
  - intros i n Hi. split; [by apply (Hvals _ _ Hi)|].
    by destruct (actions_ok_node board s0 σ i n Hnd Hact Hi)
      as (s & _ & _ & _ & _ & Hkeys & _).
Qed.

End OwnershipFacts.

(** ** Visits add up *)

Lemma parent_chain_head (σ : store) o path :
  parent_chain σ o path → head path = o.
Proof. by destruct 1. Qed.

(** In a chain of parents each node is followed by its parent. *)
Lemma parent_chain_next (σ : store) o path k c cn :
  parent_chain σ o path → path !! k = Some c → σ !! c = Some cn →
  parent cn = path !! S k.
Proof.
  intros Hchain. revert k.
  induction Hchain as [|r n path Hn Hchain IH]; intros k Hk Hc; [done|].
  destruct k as [|k]; simpl in *.
  - simplify_eq. rewrite <- (parent_chain_head _ _ _ Hchain).
    by destruct path.
  - by apply IH.
Qed.

Lemma filter_none {A} (P : A → Prop) `{∀ x, Decision (P x)} (l : list A) :
  (∀ x, x ∈ l → ¬ P x) → filter P l = [].
Proof.
  induction l as [|x l IH]; intros Hno; [done|].
  rewrite filter_cons, decide_False by (apply Hno; by left).
  apply IH. intros y Hy. apply Hno. by right.
Qed.

(** The children of a node that lie on a chain of parents: none off the
    chain and at its start when that has no child, exactly one
    elsewhere on the chain. *)
Lemma chain_children_off (σ : store) node1 path i n :
  shape_ok σ → parent_chain σ (Some node1) path →
  σ !! i = Some n → i ∉ path →
  filter (λ item : Action * ref, item.2 ∈ path) (child_nodes n) = [].
Proof.
  intros Hshape Hchain Hi Hout.
  apply filter_none. intros [a c] Hin Hc. simpl in Hc.
  destruct (shape_child σ Hshape _ _ _ _ Hi Hin) as (cn & Hcn & Hp & _).
  apply Hout. by eapply parent_chain_closed.
Qed.

Lemma dict_values_inj (d : list (Action * ref)) a a' c :
  NoDup (dict_values d) → (a, c) ∈ d → (a', c) ∈ d → a = a'.
Proof.
  unfold dict_values. intros Hnd Hin Hin'.
  apply list_elem_of_lookup in Hin as [k Hk].
  apply list_elem_of_lookup in Hin' as [k' Hk'].
  assert (k = k') as ->.
  { eapply NoDup_lookup; [done| |].
    - rewrite list_lookup_fmap, Hk. done.
    - rewrite list_lookup_fmap, Hk'. done. }
  by simplify_eq.
Qed.

Lemma chain_children_on (σ : store) node1 path i n :
  shape_ok σ → owned_ok σ → parent_chain σ (Some node1) path →
  σ !! i = Some n → i ∈ path → i ≠ node1 →
  length (filter (λ item : Action * ref, item.2 ∈ path) (child_nodes n))
  = 1%nat.
Proof.
  intros Hshape [Hown Hvals] Hchain Hi Hin Hne.
  pose proof (parent_chain_NoDup _ _ _ Hchain) as Hnodup.
  apply list_elem_of_lookup in Hin as [m Hm].
  destruct m as [|k].
  { pose proof (parent_chain_head _ _ _ Hchain) as Hhead.
    destruct path; simplify_eq/=. }
  destruct (lookup_lt_is_Some_2 path k) as [c Hk].
  { pose proof (lookup_lt_Some _ _ _ Hm). lia. }
  destruct (lookup_lt_is_Some_2 σ c) as [cn Hcn].
  { eapply parent_chain_bound; [done|]. by eapply list_elem_of_lookup_2. }
  pose proof (parent_chain_next _ _ _ _ _ _ Hchain Hk Hcn) as Hp.
  rewrite Hm in Hp.
  assert (Hc0 : c ≠ 0%nat).
  { intros ->. destruct (shape_root σ Hshape) as (root & Hr & Hpr).
    simplify_eq. }
  destruct (Hown _ _ Hcn Hc0) as (p & a & pn & Hp' & Ha & Hpn & Hentry).
  simplify_eq.
  apply (Permutation_length (l' := [(a, c)])).
  apply NoDup_Permutation.
  - apply NoDup_filter. eapply NoDup_fmap_1, (Hvals _ _ Hi).
  - apply NoDup_singleton.
  - intros [a' c']. rewrite list_elem_of_filter, list_elem_of_singleton.
    simpl. split.
    + intros [Hc' Hin'].
      destruct (shape_child σ Hshape _ _ _ _ Hi Hin') as (cn' & Hcn' & Hpc' & _).
      apply list_elem_of_lookup in Hc' as [k' Hk'].
      pose proof (parent_chain_next _ _ _ _ _ _ Hchain Hk' Hcn') as Hnext.
      rewrite Hpc' in Hnext.
      assert (S k' = S k) as [= ->].
      { eapply NoDup_lookup; [done|by symmetry|done]. }
      simplify_eq. f_equal.
      by eapply dict_values_inj; [apply (Hvals _ _ Hi)|..].
    + intros [= -> ->]. split; [|done]. by eapply list_elem_of_lookup_2.
Qed.

(** The visits of children after a backpropagation. *)
Lemma child_visits_bumped (σ σ' : store) (path : list ref) won
    (d : list (Action * ref)) :
  (∀ j, σ' !! j = if decide (j ∈ path) then bump won <$> σ !! j
                  else σ !! j) →
  (∀ a c, (a, c) ∈ d → is_Some (σ !! c)) →
  child_visits σ' d
  = child_visits σ d
    + Z.of_nat (length (filter (λ item : Action * ref, item.2 ∈ path) d)).
Proof.
  intros Hlook. induction d as [|[a c] d IH]; intros Hsome; [done|].
  destruct (Hsome a c) as [cn Hcn]; [by left|].
  assert (Hc : visits_of σ' c
               = visits_of σ c + (if decide (c ∈ path) then 1 else 0)).
  { unfold visits_of. rewrite Hlook, Hcn.
    destruct (decide (c ∈ path)); simpl; lia. }
  cbn [child_visits foldr snd]. fold (child_visits σ' d) (child_visits σ d).
  rewrite Hc, filter_cons. cbn [snd].
  rewrite IH by (intros a' c' Hin; apply (Hsome a' c'); by right).
  destruct (decide (c ∈ path)); simpl; lia.
Qed.

(** The visits of children after an expansion. *)
Lemma child_visits_expanded (σ : store) node (n n' child : MCTSNode)
    (d : list (Action * ref)) :
  σ !! node = Some n → visits n' = visits n →
  (∀ a c, (a, c) ∈ d → is_Some (σ !! c)) →
  child_visits (<[node := n']> σ ++ [child]) d = child_visits σ d.
Proof.
  intros Hn Hv. induction d as [|[a c] d IH]; intros Hsome; [done|].
  destruct (Hsome a c) as [cn Hcn]; [by left|].
  assert (Hc : visits_of (<[node := n']> σ ++ [child]) c = visits_of σ c).
  { unfold visits_of.
    rewrite (expanded_lookup_old σ node n n' child c cn Hn Hcn), Hcn.
    case_decide; simplify_eq; simpl; lia. }
  cbn [child_visits foldr snd].
  fold (child_visits (<[node := n']> σ ++ [child]) d) (child_visits σ d).
  rewrite Hc.
  rewrite IH by (intros a' c' Hin; apply (Hsome a' c'); by right). done.
Qed.

Lemma child_visits_app (σ : store) (d1 d2 : list (Action * ref)) :
  child_visits σ (d1 ++ d2) = child_visits σ d1 + child_visits σ d2.
Proof. induction d1 as [|item d1 IH]; simpl; lia. Qed.

Section TallyFacts.
Context {State : Type} (board : Board State).

(** Backpropagation from a node without child restores the tally that
    holds everywhere else. *)
Lemma backpropagate_tally fuel (σ1 σ' : store) node1 n1 won :
  shape_ok σ1 → owned_ok σ1 →
  σ1 !! node1 = Some n1 → child_nodes n1 = [] →
  (untried_actions n1 ≠ [] → visits n1 = 0 ∧ node1 ≠ 0%nat) →
  (∀ i n, σ1 !! i = Some n → i ≠ node1 →
     untried_actions n ≠ [] ∨ child_nodes n ≠ [] →
     visits n = (if decide (i = 0%nat) then 0 else 1)
                + child_visits σ1 (child_nodes n)) →
  backpropagate fuel σ1 (Some node1) won = Ok σ' →
  tally_ok σ'.
Proof.
  intros Hshape Hown Hn1 Hc1 Hnew Hpre Hback.
  destruct (backpropagate_lookup _ _ _ _ _ Hback)
    as (path & Hchain & _ & Hlook).
  assert (Hhead : node1 ∈ path).
  { inversion Hchain; simplify_eq. by left. }
  intros i n' Hi Hnt.
  assert (∃ n, σ1 !! i = Some n ∧
               untried_actions n' = untried_actions n ∧
               child_nodes n' = child_nodes n ∧
               visits n' = visits n + (if decide (i ∈ path) then 1 else 0))
    as (n & Hi1 & Hu & Hc & Hv).
  { rewrite Hlook in Hi. destruct (decide (i ∈ path)).
    - destruct (σ1 !! i) as [n|]; [|done]. injection Hi as <-.
      exists n. by rewrite bump_visits.
    - exists n'. split_and!; [done|done|done|lia]. }
  rewrite Hu, Hc in *. rewrite Hv.
  rewrite (child_visits_bumped σ1 σ' path won (child_nodes n) Hlook).
  2:{ intros a c Hin.
      destruct (shape_child σ1 Hshape _ _ _ _ Hi1 Hin) as (cn & Hcn & _).
      by eexists. }
  destruct (decide (i = node1)) as [->|Hne].
  - simplify_eq. rewrite Hc1 in *. simpl.
    destruct Hnt as [Hnt|]; [|done]. destruct (Hnew Hnt) as [-> Hnz].
    rewrite decide_True by done. rewrite decide_False by done. lia.
  - rewrite (Hpre _ _ Hi1 Hne Hnt). destruct (decide (i ∈ path)) as [Hin|Hout].
    + rewrite (chain_children_on σ1 node1 path i n Hshape Hown Hchain
                 Hi1 Hin Hne). lia.
    + rewrite (chain_children_off σ1 node1 path i n Hshape Hchain Hi1 Hout).
      simpl. lia.
Qed.

Lemma tally_ok_init s0 : tally_ok (init_store board s0).
Proof.
  intros [|i] n Hi Hnt; [|by destruct i]. injection Hi as <-. done.
Qed.

(** A pass of the driver keeps the tally. *)
Lemma think_step_tally fuel s0 bot (σ : store) (g : Rng) σ' g' :
  legal_nodup board →
  shape_ok σ → actions_ok board s0 σ → owned_ok σ → tally_ok σ →
  think_step board fuel s0 bot σ g = Ok (σ', g') →
  tally_ok σ'.
Proof.
  intros Hnd Hshape Hact Hown Htally Hrun.
  apply think_step_Ok in Hrun
    as (node & state & n & σ1 & node1 & state1 & final_state & won
        & Htrav & Hn & Hexp & Hroll & Hwin & Hback).
  destruct Hexp as [[Hu Hexp]|(Hu & -> & -> & ->)].
  - pose proof (shape_ok_expand board _ _ _ _ _ _ Hshape Hexp) as Hshape1.
    pose proof (owned_ok_expand board s0 _ _ _ _ _ _ Hnd Hshape Hact Hown
                  Hexp) as Hown1.
    apply expand_leaf_Ok in Hexp
      as (n0 & rest & action & Hn0 & Hrest & -> & -> & ->).
    simplify_eq.
    pose proof (popped_action_fresh board s0 σ node n rest action
                  Hnd Hact Hn Hrest) as Hfresh.
    rewrite (dict_set_fresh _ _ _ Hfresh) in *.
    pose proof (lookup_lt_Some _ _ _ Hn) as Hlt.
    eapply (backpropagate_tally fuel _ σ' (length σ)); [done|done| | | | |done].
    + apply expanded_lookup_new.
    + done.
    + intros _. split; [done|lia].
    + intros i ni Hi Hne Hnt.
      eapply expanded_lookup in Hi as [[-> ->]|[[-> ->]|[Hnode Hi]]];
        [| | |done].
      * simpl. rewrite child_visits_app.
        rewrite (child_visits_expanded σ node n); [|done|done|].
        2:{ intros a c Hin.
            destruct (shape_child σ Hshape _ _ _ _ Hn Hin) as (cn & Hcn & _).
            by eexists. }
        simpl. unfold visits_of at 1. rewrite expanded_lookup_new. simpl.
        rewrite (Htally _ _ Hn); [lia|]. left. rewrite Hrest.
        by destruct rest.
      * done.
      * rewrite (child_visits_expanded σ node n); [|done|done|].
        2:{ intros a c Hin.
            destruct (shape_child σ Hshape _ _ _ _ Hi Hin) as (cn & Hcn & _).
            by eexists. }
        by apply Htally.
  - destruct (traverse_nodes_sound _ _ _ _ _ _ _ _ Htrav)
      as [_ (n' & Hn' & Hstop)].
    simplify_eq. destruct Hstop as [?|Hnil]; [done|].
    eapply (backpropagate_tally fuel σ σ' node n); try done.
    intros i ni Hi _ Hnt. by apply Htally.
Qed.

Lemma think_loop_tally budget fuel s0 bot (σ : store) (g : Rng) σ' g' :
  legal_nodup board →
  shape_ok σ → actions_ok board s0 σ → owned_ok σ → tally_ok σ →
  think_loop board budget fuel s0 bot σ g = Ok (σ', g') →
  tally_ok σ'.
Proof.
  intros Hnd. revert σ g.
  induction budget as [|budget IH]; intros σ g Hshape Hact Hown Htally.
  - by intros [= <- <-].
  - simpl. intros ([σ1 g1] & Hstep & Hrun)%bind_Ok.
    pose proof (think_step_steps _ _ _ _ _ _ _ _ Hshape Hstep) as Hsteps.
    destruct (tree_ok_steps board s0 σ σ1 Hnd Hsteps)
      as (Hshape1 & Hact1 & Hown1); [done|].
    eapply (IH σ1 g1); try done.
    exact (think_step_tally fuel s0 bot σ g σ1 g1 Hnd Hshape Hact Hown
             Htally Hstep).
Qed.

Lemma think_tree_tally budget fuel s0 (g : Rng) σ g' :
  legal_nodup board →
  think_tree board budget fuel s0 g = Ok (σ, g') →
  tally_ok σ.
Proof.
  intros Hnd Hrun.
  eapply (think_loop_tally budget fuel s0 _ (init_store board s0));
    [done| | | | |done].
  - apply shape_ok_init.
  - apply actions_ok_init.
  - apply owned_ok_init.
  - apply tally_ok_init.
Qed.

(** X10. Under an engine whose legal actions form a set, in the tree
    [think] has built after any number of passes the visits of every
    node that has a legal action are accounted for by its children: the
    root has as many visits as its children together, any other such
    node one more, for the pass that created it.  So from a state with
    a legal action the visits of the children of the root add up to the
    number of passes. *)
Theorem think_visits_add_up budget fuel s0 (g : Rng) σ g' :
  legal_nodup board →
  think_tree board budget fuel s0 g = Ok (σ, g') →
  (∀ i n, σ !! i = Some n →
     untried_actions n ≠ [] ∨ child_nodes n ≠ [] →
     visits n = (if decide (i = 0%nat) then 0 else 1)
                + child_visits σ (child_nodes n)) ∧
  (legal_actions board s0 ≠ [] →
   ∃ root, σ !! root_node = Some root ∧
     child_visits σ (child_nodes root) = Z.of_nat budget).
Proof.
  intros Hnd Hrun.
  pose proof (think_tree_tally _ _ _ _ _ _ Hnd Hrun) as Htally.
  split; [done|]. intros Hlegal.
  destruct (think_tree_root_visits board _ _ _ _ _ _ Hrun)
    as (root & Hr & Hv).
  exists root. split; [done|].
  destruct (think_tree_tree_ok board _ _ _ _ _ _ Hnd Hrun)
    as (Hshape & Hact & _).
  destruct (Hact _ _ Hr) as (s & Hs & Hsplit).
  destruct (shape_root σ Hshape) as (root' & Hr' & Hpr).
  unfold root_node in *. simplify_eq.
  assert (s = s0) as ->.
  { eapply represents_fun; [done|]. by eapply rep_root. }
  pose proof (Htally _ _ Hr) as Hroot. rewrite decide_True in Hroot by done.
  rewrite <- Hv, Hroot; [lia|].
  destruct (untried_actions root) as [|a l] eqn:Hu; [|by left]. right.
  intros Hnil. rewrite Hnil in Hsplit. simpl in Hsplit. by rewrite <- Hsplit in Hlegal.
Qed.

End TallyFacts.

(** ** The countdown game again *)

Lemma countdown_two_passes :
  think_tree countdown 2 3 2%nat (λ _, 0%nat) = Ok (small_tree, λ _, 0%nat).
Proof. vm_compute. reflexivity. Qed.


Lemma think_tree_size_witness : (1 ≤ length small_tree ≤ 3)%nat.
Proof.
  apply (think_tree_size countdown 2 3 2%nat (λ _, 0%nat) small_tree
           (λ _, 0%nat)).
  exact countdown_two_passes.
Defined.

Lemma think_on_finished_game_witness :
  (2%nat = 0%nat ∨
   (∃ won, is_win countdown 0%nat (current_player countdown 0%nat) = Ok won) →
   think_with countdown 2 (S 0) 0%nat (λ _, 0%nat) = Raise ValueError) ∧
  (∀ e, is_win countdown 0%nat (current_player countdown 0%nat) = Raise e →
   think_with countdown (S 2) (S 0) 0%nat (λ _, 0%nat) = Raise e).
Proof.
  apply (think_on_finished_game countdown 2 0 0%nat (λ _, 0%nat)).
  reflexivity.
Defined.

Lemma think_returns_legal_action_witness :
  (∀ budget fuel (g : Rng) a,
     think_with countdown budget fuel 2%nat g = Ok a →
     a ∈ legal_actions countdown 2%nat) ∧
  (∀ fuel (g : Rng) a,
     think countdown fuel 2%nat g = Ok a → a ∈ legal_actions countdown 2%nat) ∧
  (∀ budget, ∃ N, ∀ fuel (g : Rng), (N ≤ fuel)%nat →
     ∃ a, think_with countdown (S budget) fuel 2%nat g = Ok a ∧
          a ∈ legal_actions countdown 2%nat).
Proof.
  destruct (think_returns_legal_action countdown 2%nat countdown_legal_nodup)
    as (Hwith & Hthink & Htotal).
  split_and!; [exact Hwith|exact Hthink|].
  apply Htotal.
  - exact countdown_finite_play.
  - exact countdown_empty_iff_ended.
  - exact countdown_outcome_when_ended.
  - exact (countdown_outcome_covers 2%nat).
  - discriminate.
Defined.

Lemma think_tree_is_tree_witness :
  (∀ c cn, small_tree !! c = Some cn → c ≠ 0%nat →
     ∃ p a pn, parent cn = Some p ∧ (p < c)%nat ∧
       parent_action cn = Some a ∧
       small_tree !! p = Some pn ∧ (a, c) ∈ child_nodes pn) ∧
  (∀ i j ni nj a a' c,
     small_tree !! i = Some ni → small_tree !! j = Some nj →
     (a, c) ∈ child_nodes ni → (a', c) ∈ child_nodes nj →
     i = j ∧ a = a') ∧
  (∀ i n, small_tree !! i = Some n →
     NoDup (dict_values (child_nodes n)) ∧
     NoDup (dict_keys (child_nodes n))).
Proof.
  apply (think_tree_is_tree countdown 2 3 2%nat (λ _, 0%nat) small_tree
           (λ _, 0%nat)).
  - exact countdown_legal_nodup.
  - exact countdown_two_passes.
Defined.

Lemma think_visits_add_up_witness :
  (∀ i n, small_tree !! i = Some n →
     untried_actions n ≠ [] ∨ child_nodes n ≠ [] →
     visits n = (if decide (i = 0%nat) then 0 else 1)
                + child_visits small_tree (child_nodes n)) ∧
  (legal_actions countdown 2%nat ≠ [] →
   ∃ root, small_tree !! root_node = Some root ∧
     child_visits small_tree (child_nodes root) = Z.of_nat 2).
Proof.
  apply (think_visits_add_up countdown 2 3 2%nat (λ _, 0%nat) small_tree
           (λ _, 0%nat)).
  - exact countdown_legal_nodup.
  - exact countdown_two_passes.
Defined.

Section SmallBudget.
Context {State : Type} (board : Board State).

(** ** Budgets up to the number of legal actions *)

(** A pass that finds an untried action at the root creates one node
    and gives the root one child more. *)
Lemma think_step_root_expands fuel s0 bot (σ : store) (g : Rng) σ' g' root :
  legal_nodup board → actions_ok board s0 σ →
  σ !! root_node = Some root → untried_actions root ≠ [] →
  think_step board fuel s0 bot σ g = Ok (σ', g') →
  length σ' = S (length σ) ∧
  ∃ root', σ' !! root_node = Some root' ∧
    length (child_nodes root') = S (length (child_nodes root)).
Proof.
  intros Hnd Hact Hr Hu Hrun. apply think_step_Ok in Hrun
    as (node & state & n & σ1 & node1 & state1 & final_state & won
        & Htrav & Hn & Hexp & Hroll & Hwin & Hback).
  rewrite (traverse_nodes_stop board fuel σ root_node root s0 bot Hr)
    in Htrav by (by left).
  injection Htrav as <- <-. rewrite Hr in Hn. injection Hn as <-.
  destruct Hexp as [[_ Hexp]|[? _]]; [|done].
  apply expand_leaf_Ok in Hexp
    as (n0 & rest & action & Hn0 & Hrest & -> & -> & ->).
  rewrite Hr in Hn0. injection Hn0 as <-.
  pose proof (popped_action_fresh board s0 σ root_node root rest action
                Hnd Hact Hr Hrest) as Hfresh.
  rewrite (dict_set_fresh _ _ _ Hfresh) in Hback.
  destruct (backpropagate_lookup _ _ _ _ _ Hback)
    as (path & _ & Hlen & Hlook).
  split.
  { rewrite Hlen. repeat (rewrite ?length_insert, ?length_app). simpl. lia. }
  pose proof (expanded_lookup_old σ root_node root
                (set_children (set_untried root rest)
                   (child_nodes root ++ [(action, length σ)]))
                (new_node (Some root_node) (Some action)
                   (legal_actions board (next_state board s0 action)))
                root_node root Hr Hr) as Hroot1.
  rewrite decide_True in Hroot1 by done.
  specialize (Hlook root_node). rewrite Hroot1 in Hlook.
  destruct (decide (root_node ∈ path)); simpl in Hlook;
    (eexists; split; [exact Hlook|]); simpl;
    rewrite length_app; simpl; lia.
Qed.

Lemma think_loop_root_children budget fuel s0 bot (σ : store) (g : Rng)
    σ' g' root s :
  legal_nodup board →
  shape_ok σ → actions_ok board s0 σ → owned_ok σ →
  σ !! root_node = Some root →
  represents board s0 σ root_node s →
  (length (child_nodes root) + budget ≤ length (legal_actions board s))%nat →
  think_loop board budget fuel s0 bot σ g = Ok (σ', g') →
  length σ' = (length σ + budget)%nat ∧
  ∃ root', σ' !! root_node = Some root' ∧
    length (child_nodes root')
    = (length (child_nodes root) + budget)%nat.
Proof.
  intros Hnd. revert σ g root.
  induction budget as [|budget IH];
    intros σ g root Hshape Hact Hown Hr Hs Hlen.
  - intros [= <- <-]. split; [lia|]. exists root. split; [done|lia].
  - simpl. intros ([σ1 g1] & Hstep & Hrun)%bind_Ok.
    destruct (actions_ok_node board s0 σ root_node root Hnd Hact Hr)
      as (s' & Hs' & _ & _ & _ & _ & Hsum).
    rewrite <- (represents_fun _ _ _ _ _ _ Hs Hs') in Hsum.
    assert (Hu : untried_actions root ≠ []).
    { intros Hnil. rewrite Hnil in Hsum. simpl in Hsum. lia. }
    destruct (think_step_root_expands _ _ _ _ _ _ _ _ Hnd Hact Hr Hu Hstep)
      as (Hsize1 & root1 & Hr1 & Hlen1).
    pose proof (think_step_steps _ _ _ _ _ _ _ _ Hshape Hstep) as Hsteps.
    destruct (tree_ok_steps board s0 σ σ1 Hnd Hsteps)
      as (Hshape1 & Hact1 & Hown1); [done|].
    destruct (IH σ1 g1 root1 Hshape1 Hact1 Hown1 Hr1)
      as (Hsize' & root' & Hr' & Hlen'); [| |done|].
    + destruct (shape_root σ1 Hshape1) as (r & Hr1' & Hpr).
      unfold root_node in *. simplify_eq.
      assert (s = s0) as ->.
      { eapply represents_fun; [done|].
        destruct (shape_root σ Hshape) as (r0 & Hr0 & Hpr0).
        by eapply rep_root. }
      by eapply rep_root.
    + lia.
    + split; [lia|]. exists root'. split; [done|lia].
Qed.

(** Visits that are all at least one and add up to their number are all
    one. *)
Lemma child_visits_ones (σ : store) (d : list (Action * ref)) :
  (∀ a c, (a, c) ∈ d → 1 ≤ visits_of σ c) →
  child_visits σ d ≤ Z.of_nat (length d) →
  ∀ a c, (a, c) ∈ d → visits_of σ c = 1.
Proof.
  intros Hone.
  assert (Hlow : ∀ d' : list (Action * ref),
            (∀ a c, (a, c) ∈ d' → 1 ≤ visits_of σ c) →
            Z.of_nat (length d') ≤ child_visits σ d').
  { induction d' as [|[a c] d' IH]; intros Hone'; [done|].
    cbn [child_visits foldr snd length]. fold (child_visits σ d').
    pose proof (Hone' a c ltac:(by left)).
    pose proof (IH ltac:(intros a' c' Hin; apply (Hone' a' c'); by right)).
    lia. }
  induction d as [|[a c] d IH]; intros Hsum a' c' Hin.
  - by apply elem_of_nil in Hin.
  - cbn [child_visits foldr snd length] in Hsum. fold (child_visits σ d) in Hsum.
    pose proof (Hone a c ltac:(by left)) as Hc.
    pose proof (Hlow d ltac:(intros a1 c1 Hin1; apply (Hone a1 c1); by right))
      as Hd.
    apply elem_of_cons in Hin as [[= -> ->]|Hin]; [lia|].
    apply (IH ltac:(intros a1 c1 Hin1; apply (Hone a1 c1); by right)
              ltac:(lia) a' c' Hin).
Qed.

(** The tree of a budget that the legal actions of the state cover. *)
Lemma think_tree_small budget fuel s0 (g : Rng) l a_last σ g' :
  legal_nodup board →
  legal_actions board s0 = l ++ [a_last] →
  (1 ≤ budget ≤ S (length l))%nat →
  think_tree board budget fuel s0 g = Ok (σ, g') →
  ∃ root,
    σ !! root_node = Some root ∧
    length σ = S budget ∧
    length (child_nodes root) = budget ∧
    untried_actions root ++ reverse (dict_keys (child_nodes root))
    = l ++ [a_last] ∧
    (∀ a c, (a, c) ∈ child_nodes root → visits_of σ c = 1) ∧
    get_best_action σ root_node = Ok a_last.
Proof.
  intros Hnd Hlegal Hbudget Hrun.
  destruct (think_tree_tree_ok board _ _ _ _ _ _ Hnd Hrun)
    as (Hshape & Hact & Hown).
  destruct (think_loop_plain board _ _ _ _ _ _ _ _
              (init_store_plain board s0) Hrun)
    as [(_ & _ & _ & Hvisited) _].
  pose proof (think_tree_tally board _ _ _ _ _ _ Hnd Hrun) as Htally.
  destruct (think_tree_root_visits board _ _ _ _ _ _ Hrun)
    as (root & Hr & Hv).
  destruct (think_loop_root_children budget fuel s0
              (current_player board s0) (init_store board s0) g σ g'
              (new_node None None (legal_actions board s0)) s0 Hnd
              (shape_ok_init board s0) (actions_ok_init board s0)
              (owned_ok_init board s0))
    as (Hsize & root' & Hr' & Hlen); [done|by eapply rep_root| |done|].
  { simpl. rewrite Hlegal, length_app. simpl. lia. }
  simpl in Hlen, Hsize. rewrite Hr in Hr'. injection Hr' as <-.
  assert (Hne : child_nodes root ≠ []).
  { intros Hnil. rewrite Hnil in Hlen. simpl in Hlen. lia. }
  assert (Hsome : ∀ a c, (a, c) ∈ child_nodes root → is_Some (σ !! c)).
  { intros a' c Hin.
    destruct (shape_child σ Hshape _ _ _ _ Hr Hin) as (cn & Hcn & _).
    by eexists. }
  assert (Hones : ∀ a c, (a, c) ∈ child_nodes root → visits_of σ c = 1).
  { apply child_visits_ones.
    - intros a' c Hin.
      destruct (shape_child σ Hshape _ _ _ _ Hr Hin) as (cn & Hcn & Hp & _).
      unfold visits_of. rewrite Hcn. simpl. apply (Hvisited c cn Hcn).
      intros ->. destruct (shape_root σ Hshape) as (r0 & Hr0 & Hpr0).
      simplify_eq.
    - pose proof (Htally _ _ Hr (or_intror Hne)) as Hroot.
      unfold root_node in Hroot. rewrite decide_True in Hroot by done.
      rewrite Hlen. lia. }
  destruct (Hact _ _ Hr) as (s & Hs & Hkeys).
  assert (s = s0) as ->.
  { eapply represents_fun; [done|].
    destruct (shape_root σ Hshape) as (r0 & Hr0 & Hpr0).
    unfold root_node in *. simplify_eq. by eapply rep_root. }
  rewrite Hlegal in Hkeys.
  exists root. split_and!; [done|lia|done|done|done|].
  destruct (get_best_action_split σ root_node root Hr Hne Hsome)
    as (pre & a' & c & post & Hbest' & Hsplit & Hpre & _).
  rewrite Hbest'. f_equal.
  destruct pre as [|[b d] pre].
  2:{ exfalso. pose proof (Hpre b d ltac:(by left)) as Hlt.
      rewrite (Hones b d), (Hones a' c) in Hlt; [lia| |].
      - rewrite Hsplit. apply elem_of_app. right. by left.
      - rewrite Hsplit. by left. }
  simpl in Hsplit.
  rewrite Hsplit in Hkeys. unfold dict_keys in Hkeys.
  rewrite fmap_cons, reverse_cons, app_assoc in Hkeys. simpl in Hkeys.
  by apply app_inj_tail in Hkeys as [_ ->].
Qed.

(** X11. Under an engine whose legal actions form a set, with a budget
    of at least one pass and at most as many passes as the state has
    legal actions: every pass expands the root, so the finished tree
    is the root with one child per pass and nothing else, the children
    being keyed by the legal actions popped so far; every child of the
    root has exactly one visit; [get_best_action] keeps the first
    child, the last of the legal actions; so an answer of [think] is
    that action, whatever the rollouts gave; and under an engine that
    keeps its contract [think] does give that answer once its loops
    are given enough turns. *)
Theorem think_small_budget budget s0 l a_last :
  legal_nodup board →
  legal_actions board s0 = l ++ [a_last] →
  (1 ≤ budget ≤ S (length l))%nat →
  (∀ fuel (g : Rng) σ g',
     think_tree board budget fuel s0 g = Ok (σ, g') →
     ∃ root,
       σ !! root_node = Some root ∧
       length σ = S budget ∧
       length (child_nodes root) = budget ∧
       untried_actions root ++ reverse (dict_keys (child_nodes root))
       = l ++ [a_last] ∧
       (∀ a c, (a, c) ∈ child_nodes root → visits_of σ c = 1) ∧
       get_best_action σ root_node = Ok a_last) ∧
  (∀ fuel (g : Rng) a,
     think_with board budget fuel s0 g = Ok a → a = a_last) ∧
  (finite_play board → empty_iff_ended board → outcome_when_ended board →
   outcome_covers board (current_player board s0) →
   ∃ N, ∀ fuel (g : Rng), (N ≤ fuel)%nat →
     think_with board budget fuel s0 g = Ok a_last).
Proof.
  intros Hnd Hlegal Hbudget. split_and!.
  - intros fuel g σ g'. by apply think_tree_small.
  - intros fuel g a. unfold think_with.
    intros ([σ g'] & Hrun & Hbest)%bind_Ok.
    destruct (think_tree_small budget fuel s0 g l a_last σ g'
                Hnd Hlegal Hbudget Hrun)
      as (root & _ & _ & _ & _ & _ & Hlast).
    rewrite Hbest in Hlast. by injection Hlast.
  - intros Hwf Hiff Hout Hcov.
    destruct (think_tree_total board budget s0 Hwf Hnd Hiff Hout Hcov)
      as [N HN].
    exists N. intros fuel g Hfuel.
    destruct (HN fuel g Hfuel) as (σ & g' & Hrun).
    destruct (think_tree_small budget fuel s0 g l a_last σ g'
                Hnd Hlegal Hbudget Hrun)
      as (root & _ & _ & _ & _ & _ & Hlast).
    unfold think_with. rewrite Hrun. simpl. exact Hlast.
Qed.

End SmallBudget.

Lemma think_small_budget_witness :
  legal_actions countdown 2%nat = [(0, 0, 1, 1)] ++ [(0, 0, 0, 0)] ∧
  think_tree countdown 2 3 2%nat (λ _, 0%nat) = Ok (small_tree, λ _, 0%nat) ∧
  (∃ root,
     small_tree !! root_node = Some root ∧
     length small_tree = 3%nat ∧
     length (child_nodes root) = 2%nat ∧
     untried_actions root ++ reverse (dict_keys (child_nodes root))
     = [(0, 0, 1, 1)] ++ [(0, 0, 0, 0)] ∧
     (∀ a c, (a, c) ∈ child_nodes root → visits_of small_tree c = 1) ∧
     get_best_action small_tree root_node = Ok (0, 0, 0, 0)) ∧
  (∀ fuel (g : Rng) a,
     think_with countdown 2 fuel 2%nat g = Ok a → a = (0, 0, 0, 0)) ∧
  (∃ N, ∀ fuel (g : Rng), (N ≤ fuel)%nat →
     think_with countdown 2 fuel 2%nat g = Ok (0, 0, 0, 0)).
Proof.
  destruct (think_small_budget countdown 2 2%nat [(0, 0, 1, 1)] (0, 0, 0, 0))
    as (Htree & Hanswer & Hgiven).
  - exact countdown_legal_nodup.
  - reflexivity.
  - simpl. lia.
  - split_and!.
    + reflexivity.
    + exact countdown_two_passes.
    + exact (Htree 3%nat (λ _, 0%nat) small_tree (λ _, 0%nat)
               countdown_two_passes).
    + exact Hanswer.
    + apply Hgiven.
      * exact countdown_finite_play.
      * exact countdown_empty_iff_ended.
      * exact countdown_outcome_when_ended.
      * exact (countdown_outcome_covers 2%nat).
Defined.

(** * The scores as floats *)

Section FloatFacts.
Import Binary64.

(** ** Binary digits *)
Lemma digits2_pos_size p : digits2_pos p = Pos.size p.
Proof. induction p; simpl; congruence. Qed.

Lemma Zdigits2_nonneg m : 0 ≤ Zdigits2 m.
Proof. destruct m; simpl; lia. Qed.

Lemma Zdigits2_upper m : 0 ≤ m → m < 2 ^ Zdigits2 m.
Proof.
  destruct m as [|p|p]; simpl; [lia| |lia]. intros _.
  rewrite digits2_pos_size.
  pose proof (Pos.size_gt p) as H. 
  apply Pos2Z.pos_lt_pos in H. by rewrite Pos2Z.inj_pow in H.
Qed.

Lemma Zdigits2_lower m : 0 < m → 2 ^ (Zdigits2 m - 1) ≤ m.
Proof.
  destruct m as [|p|p]; simpl; [lia| |lia]. intros _.
  rewrite digits2_pos_size.
  pose proof (Pos.size_le p) as H.
  apply Pos2Z.pos_le_pos in H. rewrite Pos2Z.inj_pow in H.
  replace (Z.pos (Pos.size p)) with (Z.succ (Z.pos (Pos.size p) - 1)) in H by lia.
  rewrite Z.pow_succ_r in H by lia. lia.
Qed.

Lemma Zdigits2_le m k : 0 ≤ m → 0 ≤ k → m < 2 ^ k → Zdigits2 m ≤ k.
Proof.
  intros Hm Hk Hlt. destruct (decide (m = 0)) as [->|Hne]; [done|].
  pose proof (Zdigits2_lower m ltac:(lia)) as Hl.
  destruct (decide (Zdigits2 m ≤ k)) as [|Hgt]; [done|].
  assert (2 ^ k ≤ 2 ^ (Zdigits2 m - 1)) by (apply Z.pow_le_mono_r; lia).
  lia.
Qed.

Lemma Zdigits2_ge m k : 0 ≤ k → 2 ^ k ≤ m → k + 1 ≤ Zdigits2 m.
Proof.
  intros Hk Hle.
  assert (0 < m) by (pose proof (Z.pow_pos_nonneg 2 k); lia).
  pose proof (Zdigits2_upper m ltac:(lia)) as Hu.
  pose proof (Zdigits2_nonneg m).
  destruct (decide (k + 1 ≤ Zdigits2 m)) as [|Hgt]; [done|].
  assert (2 ^ Zdigits2 m ≤ 2 ^ k) by (apply Z.pow_le_mono_r; lia).
  lia.
Qed.

Lemma Zdigits2_pos m : 0 < m → 1 ≤ Zdigits2 m.
Proof. destruct m; simpl; lia. Qed.

Lemma Zdigits2_mono a b : 0 ≤ a → a ≤ b → Zdigits2 a ≤ Zdigits2 b.
Proof.
  intros Ha Hab. apply Zdigits2_le; [done|apply Zdigits2_nonneg|].
  pose proof (Zdigits2_upper b ltac:(lia)). lia.
Qed.

Lemma Zdigits2_succ m : 0 ≤ m → Zdigits2 (m + 1) ≤ Zdigits2 m + 1.
Proof.
  intros Hm. pose proof (Zdigits2_nonneg m).
  apply Zdigits2_le; [lia|lia|].
  pose proof (Zdigits2_upper m Hm). rewrite Z.pow_add_r by lia. lia.
Qed.

Lemma Zdigits2_shift m k :
  0 < m → 0 ≤ k → Zdigits2 (m * 2 ^ k) = Zdigits2 m + k.
Proof.
  intros Hm Hk. pose proof (Zdigits2_pos m Hm).
  pose proof (Zdigits2_upper m ltac:(lia)). pose proof (Zdigits2_lower m Hm).
  pose proof (Z.pow_pos_nonneg 2 k ltac:(lia) Hk).
  apply Z.le_antisymm.
  - apply Zdigits2_le; [nia|lia|]. rewrite Z.pow_add_r by lia. nia.
  - assert (Zdigits2 m - 1 + k + 1 ≤ Zdigits2 (m * 2 ^ k)); [|lia].
    apply Zdigits2_ge; [lia|]. rewrite Z.pow_add_r by lia. nia.
Qed.

Lemma Zdigits2_div m n :
  0 ≤ m → 0 ≤ n → Zdigits2 (m / 2 ^ n) ≤ Z.max 0 (Zdigits2 m - n).
Proof.
  intros Hm Hn. pose proof (Zdigits2_nonneg m).
  pose proof (Zdigits2_upper m Hm) as Hu.
  pose proof (Z.pow_pos_nonneg 2 n ltac:(lia) Hn).
  assert (0 ≤ m / 2 ^ n) by (apply Z.div_pos; lia).
  destruct (decide (n ≤ Zdigits2 m)) as [Hle|Hgt].
  - rewrite Z.max_r by lia. apply Zdigits2_le; [done|lia|].
    apply Z.div_lt_upper_bound; [lia|].
    rewrite <- Z.pow_add_r by lia. by replace (n + (Zdigits2 m - n)) with (Zdigits2 m) by lia.
  - assert (m / 2 ^ n = 0) as ->; [|simpl; lia].
    apply Z.div_small. split; [done|].
    assert (2 ^ Zdigits2 m ≤ 2 ^ n) by (apply Z.pow_le_mono_r; lia). lia.
Qed.

Lemma Zdigits2_div_pos m n :
  0 < m → 0 ≤ n → n < Zdigits2 m →
  0 < m / 2 ^ n ∧ Zdigits2 (m / 2 ^ n) = Zdigits2 m - n.
Proof.
  intros Hm Hn Hlt.
  pose proof (Zdigits2_lower m Hm) as Hl.
  pose proof (Z.pow_pos_nonneg 2 n ltac:(lia) Hn).
  assert (Hq : 2 ^ (Zdigits2 m - 1 - n) ≤ m / 2 ^ n).
  { apply Z.div_le_lower_bound; [lia|].
    rewrite <- Z.pow_add_r by lia.
    by replace (n + (Zdigits2 m - 1 - n)) with (Zdigits2 m - 1) by lia. }
  pose proof (Z.pow_pos_nonneg 2 (Zdigits2 m - 1 - n) ltac:(lia) ltac:(lia)).
  split; [lia|]. apply Z.le_antisymm.
  - pose proof (Zdigits2_div m n ltac:(lia) Hn). lia.
  - pose proof (Zdigits2_ge (m / 2 ^ n) (Zdigits2 m - 1 - n) ltac:(lia) Hq). lia.
Qed.

(** ** Rounding *)
Lemma shr_1_m mrs : 0 ≤ shr_m mrs → shr_m (shr_1 mrs) = shr_m mrs / 2.
Proof.
  destruct mrs as [m r s]. simpl. intros Hm. rewrite <- Z.div2_div.
  destruct m as [|[p|p|]|p]; simpl; done || lia.
Qed.

Lemma iter_shr_1_m p mrs :
  0 ≤ shr_m mrs → shr_m (SpecFloat.iter_pos shr_1 p mrs) = shr_m mrs / 2 ^ Z.pos p.
Proof.
  revert mrs. induction p as [p IH|p IH|]; intros mrs Hm; simpl.
  - pose proof (shr_1_m mrs Hm) as H1.
    assert (0 ≤ shr_m (shr_1 mrs)) by (rewrite H1; apply Z.div_pos; lia).
    pose proof (IH (shr_1 mrs) ltac:(done)) as H2.
    pose proof (Z.pow_pos_nonneg 2 (Z.pos p) ltac:(lia) ltac:(lia)).
    assert (0 ≤ shr_m (SpecFloat.iter_pos shr_1 p (shr_1 mrs)))
      by (rewrite H2; apply Z.div_pos; lia).
    rewrite IH, H2, H1 by done.
    rewrite !Z.div_div by lia. f_equal.
    assert (Z.pos p~1 = Z.pos p + Z.pos p + 1) as -> by lia.
    rewrite !Z.pow_add_r, Z.pow_1_r by lia. ring.
  - pose proof (IH mrs Hm) as H2.
    pose proof (Z.pow_pos_nonneg 2 (Z.pos p) ltac:(lia) ltac:(lia)).
    assert (0 ≤ shr_m (SpecFloat.iter_pos shr_1 p mrs))
      by (rewrite H2; apply Z.div_pos; lia).
    rewrite IH, H2 by done. rewrite Z.div_div by lia. f_equal.
    assert (Z.pos p~0 = Z.pos p + Z.pos p) as -> by lia.
    by rewrite !Z.pow_add_r by lia.
  - rewrite shr_1_m by done. by rewrite Z.pow_1_r.
Qed.

Lemma shr_record_of_loc_m m l : shr_m (shr_record_of_loc m l) = m.
Proof. by destruct l as [|[]]. Qed.

Lemma shr_fexp_spec m e l :
  0 ≤ m →
  let n := fexp prec emax (Zdigits2 m + e) - e in
  shr_fexp prec emax m e l =
    (fst (shr_fexp prec emax m e l), if decide (0 < n) then e + n else e) ∧
  shr_m (fst (shr_fexp prec emax m e l)) = if decide (0 < n) then m / 2 ^ n else m.
Proof.
  intros Hm n. unfold shr_fexp, shr. fold n.
  destruct n as [|p|p] eqn:Hn; simpl.
  - by rewrite shr_record_of_loc_m.
  - rewrite iter_shr_1_m by (by rewrite shr_record_of_loc_m).
    by rewrite shr_record_of_loc_m.
  - by rewrite shr_record_of_loc_m.
Qed.

Lemma fexp_eq x : fexp prec emax x = Z.max (x - 53) (-1074).
Proof. reflexivity. Qed.

Lemma shr_fexp_bound m e l K :
  0 ≤ m → Zdigits2 m + e ≤ K → e ≤ 971 → -1074 ≤ K → K ≤ 1024 →
  ∃ mrs e', shr_fexp prec emax m e l = (mrs, e') ∧
    0 ≤ shr_m mrs ∧ Zdigits2 (shr_m mrs) + e' ≤ K ∧ e' ≤ 971.
Proof.
  intros Hm Ht He HK HK'.
  destruct (shr_fexp_spec m e l Hm) as [Heq Hshr]. rewrite fexp_eq in *.
  eexists _, _. split; [exact Heq|].
  pose proof (Zdigits2_nonneg m).
  case_decide as Hn.
  - rewrite Hshr.
    pose proof (Zdigits2_div m (Z.max (Zdigits2 m + e - 53) (-1074) - e)
                  Hm ltac:(lia)).
    split_and!; [apply Z.div_pos; [done|apply Z.pow_pos_nonneg; lia]|lia|lia].
  - rewrite Hshr. split_and!; done.
Qed.

Lemma shr_fexp_pos m e l :
  0 < m → -1074 < Zdigits2 m + e →
  ∃ mrs e', shr_fexp prec emax m e l = (mrs, e') ∧
    0 < shr_m mrs ∧ Zdigits2 (shr_m mrs) + e' = Zdigits2 m + e.
Proof.
  intros Hm Ht.
  destruct (shr_fexp_spec m e l ltac:(lia)) as [Heq Hshr].
  rewrite fexp_eq in *. eexists _, _. split; [exact Heq|].
  case_decide as Hn.
  - rewrite Hshr.
    destruct (Zdigits2_div_pos m (Z.max (Zdigits2 m + e - 53) (-1074) - e)
                Hm ltac:(lia) ltac:(lia)) as [Hpos Hd].
    split; [done|lia].
  - rewrite Hshr. done.
Qed.

Lemma round_nearest_even_bounds m l :
  m ≤ round_nearest_even m l ≤ m + 1.
Proof. destruct l as [|[]]; simpl; try lia. destruct (Z.even m); lia. Qed.

Lemma binary_round_aux_signed sx mx ex lx :
  0 ≤ mx → signed sx (binary_round_aux prec emax sx mx ex lx).
Proof.
  intros Hm. unfold binary_round_aux.
  destruct (shr_fexp_spec mx ex lx Hm) as [Heq Hshr]. rewrite Heq.
  set (m1 := round_nearest_even _ _).
  assert (0 ≤ m1).
  { pose proof (round_nearest_even_bounds
                  (shr_m (shr_fexp prec emax mx ex lx).1)
                  (loc_of_shr_record (shr_fexp prec emax mx ex lx).1)).
    assert (0 ≤ shr_m (shr_fexp prec emax mx ex lx).1); [|unfold m1; lia].
    rewrite Hshr. case_decide; [|done].
    apply Z.div_pos; [done|]. apply Z.pow_pos_nonneg; lia. }
  set (e1 := if decide _ then _ else _).
  destruct (shr_fexp_spec m1 e1 loc_Exact ltac:(done)) as [Heq2 Hshr2].
  rewrite Heq2.
  assert (0 ≤ shr_m (shr_fexp prec emax m1 e1 loc_Exact).1).
  { rewrite Hshr2. case_decide; [|done].
    apply Z.div_pos; [done|]. apply Z.pow_pos_nonneg; lia. }
  destruct (shr_m (shr_fexp prec emax m1 e1 loc_Exact).1); [done| |lia].
  destruct (_ <=? _); exact eq_refl.
Qed.

Lemma binary_round_aux_below sx mx ex lx K :
  0 ≤ mx → Zdigits2 mx + ex ≤ K → ex ≤ 971 → -1074 ≤ K → K + 1 ≤ 1024 →
  below (K + 1) (binary_round_aux prec emax sx mx ex lx).
Proof.
  intros Hm Ht He HK HK'. unfold binary_round_aux.
  destruct (shr_fexp_bound mx ex lx K) as (mrs & e1 & -> & Hm1 & Ht1 & He1);
    [done..|lia|].
  pose proof (round_nearest_even_bounds (shr_m mrs) (loc_of_shr_record mrs))
    as Hr.
  set (m1 := round_nearest_even _ _) in *.
  assert (Zdigits2 m1 ≤ Zdigits2 (shr_m mrs) + 1).
  { etrans; [apply (Zdigits2_mono m1 (shr_m mrs + 1)); lia|].
    by apply Zdigits2_succ. }
  destruct (shr_fexp_bound m1 e1 loc_Exact (K + 1))
    as (mrs2 & e2 & -> & Hm2 & Ht2 & He2); [lia..|].
  destruct (shr_m mrs2) as [|m|m] eqn:E; simpl; [done| |lia].
  simpl in Ht2. rewrite Zle_imp_le_bool by (unfold emax, prec; lia).
  simpl. done.
Qed.

Lemma binary_round_aux_above sx mx ex lx :
  0 < mx → -1074 < Zdigits2 mx + ex →
  above (Zdigits2 mx + ex) (binary_round_aux prec emax sx mx ex lx).
Proof.
  intros Hm Ht. unfold binary_round_aux.
  destruct (shr_fexp_pos mx ex lx Hm Ht) as (mrs & e1 & -> & Hm1 & Ht1).
  pose proof (round_nearest_even_bounds (shr_m mrs) (loc_of_shr_record mrs))
    as Hr.
  set (m1 := round_nearest_even _ _) in *.
  assert (Zdigits2 (shr_m mrs) ≤ Zdigits2 m1)
    by (apply Zdigits2_mono; lia).
  destruct (shr_fexp_pos m1 e1 loc_Exact ltac:(lia) ltac:(lia))
    as (mrs2 & e2 & -> & Hm2 & Ht2).
  destruct (shr_m mrs2) as [|m|m] eqn:E; simpl; [lia| |lia].
  simpl in Ht2. case_match; simpl; [lia|done].
Qed.

Lemma iter_xO mx d : Z.pos (Pos.iter xO mx d) = Z.pos mx * 2 ^ Z.pos d.
Proof.
  rewrite <- Z.shiftl_mul_pow2 by lia. simpl.
  by rewrite (Pos.iter_swap_gen _ _ Z.pos xO (Z.mul 2)).
Qed.

Lemma shl_align_spec mx ex ex' :
  ∃ m e, shl_align mx ex ex' = (m, e) ∧
    e = Z.min ex ex' ∧ Z.pos m = Z.pos mx * 2 ^ (ex - e).
Proof.
  unfold shl_align. destruct (ex' - ex) as [|d|d] eqn:Hd.
  - exists mx, ex. split_and!; [done|lia|].
    by rewrite Z.sub_diag, Z.mul_1_r.
  - exists mx, ex. split_and!; [done|lia|].
    by rewrite Z.sub_diag, Z.mul_1_r.
  - exists (Pos.iter xO mx d), ex'. split_and!; [done|lia|].
    rewrite iter_xO. f_equal. f_equal. lia.
Qed.

Lemma shl_align_digits mx ex ex' m e :
  shl_align mx ex ex' = (m, e) →
  e ≤ ex ∧ e ≤ ex' ∧ Z.pos (digits2_pos m) + e = Z.pos (digits2_pos mx) + ex.
Proof.
  intros Heq. destruct (shl_align_spec mx ex ex') as (m' & e' & Heq' & He & Hm).
  rewrite Heq in Heq'. injection Heq' as <- <-.
  split_and!; [lia..|].
  change (Z.pos (digits2_pos m)) with (Zdigits2 (Z.pos m)).
  change (Z.pos (digits2_pos mx)) with (Zdigits2 (Z.pos mx)).
  rewrite Hm, Zdigits2_shift by lia. lia.
Qed.

Lemma binary_round_signed sx mx ex :
  signed sx (binary_round prec emax sx mx ex).
Proof.
  unfold binary_round. destruct (shl_align _ _ _) as [mz ez].
  by apply binary_round_aux_signed.
Qed.

Lemma binary_round_below sx mx ex K :
  Z.pos (digits2_pos mx) + ex ≤ K → ex ≤ 971 → -1074 ≤ K → K + 1 ≤ 1024 →
  below (K + 1) (binary_round prec emax sx mx ex).
Proof.
  intros Ht He HK HK'. unfold binary_round.
  destruct (shl_align _ _ _) as [mz ez] eqn:Hal.
  apply shl_align_digits in Hal as (Hez & _ & Hd).
  apply binary_round_aux_below; simpl; lia.
Qed.

Lemma binary_round_above sx mx ex :
  -1074 < Z.pos (digits2_pos mx) + ex →
  above (Z.pos (digits2_pos mx) + ex) (binary_round prec emax sx mx ex).
Proof.
  intros Ht. unfold binary_round.
  destruct (shl_align _ _ _) as [mz ez] eqn:Hal.
  apply shl_align_digits in Hal as (Hez & _ & Hd).
  rewrite <- Hd. apply (binary_round_aux_above sx (Z.pos mz)); simpl; lia.
Qed.

(** The sign and the size of what [binary_normalize] gives. *)
Lemma binary_normalize_below m e K :
  Zdigits2 m + e ≤ K → e ≤ 971 → -1074 ≤ K → K + 1 ≤ 1024 →
  below (K + 1) (binary_normalize prec emax m e false).
Proof.
  intros Ht He HK HK'. destruct m as [|p|p]; simpl; [done|..];
    by apply binary_round_below.
Qed.

Lemma binary_normalize_not_nan m e :
  binary_normalize prec emax m e false ≠ S754_nan.
Proof.
  destruct m as [|p|p]; simpl; [done|..].
  - pose proof (binary_round_signed false p e). by destruct (binary_round _ _ _ _ _).
  - pose proof (binary_round_signed true p e). by destruct (binary_round _ _ _ _ _).
Qed.

Lemma below_mono K K' x : below K x → K ≤ K' → below K' x.
Proof. destruct x; simpl; try done. lia. Qed.

(** ** Division *)
Lemma SFdiv_core_binary_bound m1 e1 m2 e2 :
  0 < m1 → 0 < m2 →
  ∃ q e' l, SFdiv_core_binary prec emax m1 e1 m2 e2 = (q, e', l) ∧
    0 ≤ q ∧
    e' ≤ fexp prec emax (Zdigits2 m1 + e1 - (Zdigits2 m2 + e2)) ∧
    Zdigits2 q + e' ≤ Z.max e' (Zdigits2 m1 + e1 - (Zdigits2 m2 + e2) + 1).
Proof.
  intros Hm1 Hm2. unfold SFdiv_core_binary.
  set (e' := Z.min _ _).
  set (s := e1 - e2 - e').
  assert (Hs : 0 ≤ s) by (unfold s, e'; lia).
  set (m' := match s with Z.pos _ => Z.shiftl m1 s | 0 => m1 | Z.neg _ => 0 end).
  assert (Hm' : m' = m1 * 2 ^ s).
  { unfold m'. destruct s as [|p|p] eqn:Hp; [lia| |lia].
    by rewrite Z.shiftl_mul_pow2. }
  pose proof (Z.pow_pos_nonneg 2 s ltac:(lia) Hs) as Hpow.
  pose proof (Z_div_mod m' m2 ltac:(lia)) as Hdiv.
  destruct (Z.div_eucl m' m2) as [q r] eqn:Hqr.
  exists q, e', (new_location m2 r). split; [done|].
  destruct Hdiv as [Hdiv Hr].
  assert (Hq : 0 ≤ q) by nia.
  split_and!; [done|unfold e'; lia|].
  pose proof (Zdigits2_pos m2 Hm2) as Hd2.
  pose proof (Zdigits2_lower m2 Hm2) as Hl2.
  pose proof (Z.pow_pos_nonneg 2 (Zdigits2 m2 - 1) ltac:(lia) ltac:(lia)) as Hp2.
  assert (Hle : q ≤ m' / 2 ^ (Zdigits2 m2 - 1)).
  { apply Z.div_le_lower_bound; [lia|]. nia. }
  pose proof (Zdigits2_mono q _ Hq Hle) as Hmono.
  pose proof (Zdigits2_div m' (Zdigits2 m2 - 1) ltac:(nia) ltac:(lia)) as Hdd.
  rewrite Hm' in Hmono.
  rewrite Hm', Zdigits2_shift in Hdd by lia.
  assert (Hseq : s = e1 - e2 - e') by reflexivity.
  clearbody m' s. lia.
Qed.

Lemma SFdiv_finite_below sx mx ex sy my ey K :
  Z.pos (digits2_pos mx) + ex - (Z.pos (digits2_pos my) + ey) + 1 ≤ K →
  -1074 ≤ K → K + 1 ≤ 1024 →
  below (K + 1)
    (SFdiv prec emax (S754_finite sx mx ex) (S754_finite sy my ey)) ∧
  signed (xorb sx sy)
    (SFdiv prec emax (S754_finite sx mx ex) (S754_finite sy my ey)).
Proof.
  intros Ht HK HK'. unfold SFdiv.
  destruct (SFdiv_core_binary_bound (Z.pos mx) ex (Z.pos my) ey)
    as (q & e' & l & -> & Hq & He & Hd); [done..|].
  rewrite fexp_eq in He. simpl in He, Hd. split.
  - apply binary_round_aux_below; lia.
  - by apply binary_round_aux_signed.
Qed.

(** ** Square root *)
Lemma SFsqrt_core_binary_bound m e :
  0 < m →
  ∃ q e' l, SFsqrt_core_binary prec emax m e = (q, e', l) ∧
    0 ≤ q ∧
    e' ≤ fexp prec emax (Z.div2 (Zdigits2 m + e + 1)) ∧
    Zdigits2 q + e' ≤ (Zdigits2 m + e + 1) / 2.
Proof.
  intros Hm. unfold SFsqrt_core_binary.
  set (e' := Z.min _ _).
  set (s := e - 2 * e').
  assert (Hs : 0 ≤ s).
  { unfold s, e'. pose proof (Z.div2_odd e). destruct (Z.odd e); simpl in *; lia. }
  set (m' := match s with Z.pos _ => Z.shiftl m s | 0 => m | Z.neg _ => 0 end).
  assert (Hm' : m' = m * 2 ^ s).
  { unfold m'. destruct s as [|p|p] eqn:Hp; [lia| |lia].
    by rewrite Z.shiftl_mul_pow2. }
  pose proof (Z.pow_pos_nonneg 2 s ltac:(lia) Hs) as Hpow.
  pose proof (Z.sqrtrem_sqrt m') as Hsq.
  destruct (Z.sqrtrem m') as [q r] eqn:Hqr. simpl in Hsq. subst q.
  eexists _, e', _. split; [done|].
  split_and!; [apply Z.sqrt_nonneg|unfold e'; lia|].
  pose proof (Zdigits2_pos m Hm) as Hd.
  set (c := (Zdigits2 m + s + 1) / 2).
  assert (Hc : Zdigits2 m + s ≤ 2 * c ∧ 0 ≤ c).
  { unfold c. pose proof (Z.div_mod (Zdigits2 m + s + 1) 2 ltac:(lia)).
    pose proof (Z.mod_pos_bound (Zdigits2 m + s + 1) 2 ltac:(lia)). lia. }
  assert (Hlt : Z.sqrt m' < 2 ^ c).
  { apply Z.sqrt_lt_square; [nia|apply Z.pow_nonneg; lia|].
    rewrite <- Z.pow_2_r, <- Z.pow_mul_r by lia.
    pose proof (Zdigits2_upper m' ltac:(nia)) as Hu.
    rewrite Hm', Zdigits2_shift in Hu by lia. rewrite <- Hm' in Hu.
    assert (2 ^ (Zdigits2 m + s) ≤ 2 ^ (c * 2))
      by (apply Z.pow_le_mono_r; lia).
    lia. }
  pose proof (Zdigits2_le (Z.sqrt m') c (Z.sqrt_nonneg _) ltac:(lia) Hlt).
  assert (c + e' = (Zdigits2 m + e + 1) / 2); [|lia].
  unfold c, s.
  replace (Zdigits2 m + (e - 2 * e') + 1) with (Zdigits2 m + e + 1 + (- e') * 2)
    by lia.
  rewrite Z.div_add by lia. lia.
Qed.

Lemma SFsqrt_finite_below mx ex K :
  Z.pos (digits2_pos mx) + ex ≤ K → 1 ≤ K → K + 1 ≤ 1024 →
  below (K + 1) (SFsqrt prec emax (S754_finite false mx ex)) ∧
  signed false (SFsqrt prec emax (S754_finite false mx ex)).
Proof.
  intros Ht HK HK'. unfold SFsqrt.
  destruct (SFsqrt_core_binary_bound (Z.pos mx) ex)
    as (q & e' & l & -> & Hq & He & Hd); [done|].
  rewrite fexp_eq, Z.div2_div in He. simpl in He, Hd.
  assert ((Z.pos (digits2_pos mx) + ex + 1) / 2 ≤ K).
  { apply Z.div_le_upper_bound; lia. }
  split.
  - apply binary_round_aux_below; lia.
  - by apply binary_round_aux_signed.
Qed.

(** ** Product *)
Lemma SFmul_finite_below sx mx ex sy my ey K :
  Z.pos (digits2_pos mx) + ex + (Z.pos (digits2_pos my) + ey) ≤ K →
  ex + ey ≤ 971 → -1074 ≤ K → K + 1 ≤ 1024 →
  below (K + 1)
    (SFmul prec emax (S754_finite sx mx ex) (S754_finite sy my ey)) ∧
  signed (xorb sx sy)
    (SFmul prec emax (S754_finite sx mx ex) (S754_finite sy my ey)).
Proof.
  intros Ht He HK HK'. unfold SFmul. split.
  - apply binary_round_aux_below; [done| |lia..].
    assert (Zdigits2 (Z.pos (mx * my))
            ≤ Z.pos (digits2_pos mx) + Z.pos (digits2_pos my)); [|lia].
    apply Zdigits2_le; [done|lia|].
    pose proof (Zdigits2_upper (Z.pos mx) ltac:(done)) as Hx.
    pose proof (Zdigits2_upper (Z.pos my) ltac:(done)) as Hy.
    simpl in Hx, Hy. rewrite Z.pow_add_r, Pos2Z.inj_mul by lia. nia.
  - by apply binary_round_aux_signed.
Qed.

(** ** Sum and difference *)
Lemma Zdigits2_abs m : Zdigits2 m = Zdigits2 (Z.abs m).
Proof. by destruct m. Qed.

Lemma aligned_bound mx ex ez K :
  ez ≤ ex → Z.pos (digits2_pos mx) + ex ≤ K →
  Z.pos (shl_align mx ex ez).1 < 2 ^ (K - ez).
Proof.
  intros He Ht.
  destruct (shl_align_spec mx ex ez) as (m & e & Heq & He' & Hm).
  rewrite Heq. simpl. rewrite Hm, Z.min_r in * by lia. subst e.
  pose proof (Zdigits2_upper (Z.pos mx) ltac:(done)) as Hu. simpl in Hu.
  assert (2 ^ Z.pos (digits2_pos mx) * 2 ^ (ex - ez) ≤ 2 ^ (K - ez)).
  { rewrite <- Z.pow_add_r by lia. apply Z.pow_le_mono_r; lia. }
  pose proof (Z.pow_pos_nonneg 2 (ex - ez) ltac:(lia) ltac:(lia)). nia.
Qed.

Lemma cond_Zopp_abs s m : Z.abs (cond_Zopp s m) = Z.abs m.
Proof. destruct s; simpl; lia. Qed.

Lemma signed_sum_below sx mx ex sy my ey (opp : bool) K :
  Z.pos (digits2_pos mx) + ex ≤ K → Z.pos (digits2_pos my) + ey ≤ K →
  ex ≤ 971 → -1074 ≤ K → K + 2 ≤ 1024 →
  below (K + 2)
    (binary_normalize prec emax
       ((if opp then Z.sub else Z.add)
          (cond_Zopp sx (Z.pos (shl_align mx ex (ex `min` ey)).1))
          (cond_Zopp sy (Z.pos (shl_align my ey (ex `min` ey)).1)))
       (ex `min` ey) false).
Proof.
  intros Hx Hy He HK HK'.
  pose proof (aligned_bound mx ex (ex `min` ey) K ltac:(lia) Hx) as Ha.
  pose proof (aligned_bound my ey (ex `min` ey) K ltac:(lia) Hy) as Hb.
  set (A := Z.pos (shl_align mx ex (ex `min` ey)).1) in *.
  set (B := Z.pos (shl_align my ey (ex `min` ey)).1) in *.
  set (S := (if opp then Z.sub else Z.add) (cond_Zopp sx A) (cond_Zopp sy B)).
  assert (HS : Z.abs S < 2 ^ (K - ex `min` ey + 1)).
  { rewrite Z.pow_add_r, Z.pow_1_r by lia.
    pose proof (cond_Zopp_abs sx A). pose proof (cond_Zopp_abs sy B).
    assert (0 < A) by done. assert (0 < B) by done.
    unfold S. destruct opp; lia. }
  replace (K + 2) with (K + 1 + 1) by lia.
  apply binary_normalize_below; [|lia..].
  rewrite Zdigits2_abs.
  pose proof (Zdigits2_le (Z.abs S) (K - ex `min` ey + 1) ltac:(lia) ltac:(lia) HS).
  lia.
Qed.

Lemma SFadd_below x y K :
  below K x → below K y → -1074 ≤ K → K + 2 ≤ 1024 →
  below (K + 2) (SFadd prec emax x y).
Proof.
  intros Hx Hy HK HK'.
  destruct x as [sx|sx| |sx mx ex], y as [sy|sy| |sy my ey]; try done.
  - simpl. by destruct sx, sy.
  - simpl in *. lia.
  - simpl in *. lia.
  - destruct Hx as [Hex Hx], Hy as [Hey Hy].
    by apply (signed_sum_below sx mx ex sy my ey false).
Qed.

Lemma SFsub_below x y K :
  below K x → below K y → -1074 ≤ K → K + 2 ≤ 1024 →
  below (K + 2) (SFsub prec emax x y).
Proof.
  intros Hx Hy HK HK'.
  destruct x as [sx|sx| |sx mx ex], y as [sy|sy| |sy my ey]; try done.
  - simpl. by destruct sx, sy.
  - simpl in *. lia.
  - simpl in *. lia.
  - destruct Hx as [Hex Hx], Hy as [Hey Hy].
    by apply (signed_sum_below sx mx ex sy my ey true).
Qed.

(** ** Order *)
Lemma SFcompare_antisym a b c :
  SFcompare a b = Some c → SFcompare b a = Some (CompOpp c).
Proof.
  destruct a as [[]|[]| |[] ma ea], b as [[]|[]| |[] mb eb]; simpl;
    try done; try (by intros [= <-]).
  all: intros [= <-]; f_equal; rewrite (Z.compare_antisym ea eb);
    destruct (ea ?= eb); simpl; try done.
  all: change (Pos.compare_cont Eq ?a ?b) with (Pos.compare a b).
  all: by rewrite (Pos.compare_antisym ma mb), ?CompOpp_involutive.
Qed.

Lemma SFcompare_total a b :
  a ≠ S754_nan → b ≠ S754_nan → is_Some (SFcompare a b).
Proof. destruct a, b; simpl; try done; by eexists. Qed.

Lemma SFltb_false_leb a b :
  a ≠ S754_nan → b ≠ S754_nan → SFltb b a = false → SFleb a b = true.
Proof.
  intros Ha Hb. unfold SFltb, SFleb.
  destruct (SFcompare_total b a Hb Ha) as [c Hc]. rewrite Hc.
  rewrite (SFcompare_antisym _ _ _ Hc). by destruct c.
Qed.

Lemma SFcompare_lt_trans a b c :
  SFcompare a b = Some Lt → SFcompare b c = Some Lt →
  SFcompare a c = Some Lt.
Proof.
  destruct a as [[]|[]| |[] ma ea], b as [[]|[]| |[] mb eb],
    c as [[]|[]| |[] mc ec]; simpl; try done.
  all: intros [= Hab] [= Hbc]; f_equal; revert Hab Hbc; compare_cases.
  all: intros; simplify_eq; compare_cases.
Qed.

Lemma SFcompare_eq_lt_trans a b c :
  SFcompare a b = Some Eq → SFcompare b c = Some Lt →
  SFcompare a c = Some Lt.
Proof.
  destruct a as [[]|[]| |[] ma ea], b as [[]|[]| |[] mb eb],
    c as [[]|[]| |[] mc ec]; simpl; try done.
  all: intros [= Hab] [= Hbc]; f_equal; revert Hab Hbc; compare_cases.
  all: intros; simplify_eq; compare_cases.
Qed.

Lemma SFltb_trans a b c :
  SFltb a b = true → SFltb b c = true → SFltb a c = true.
Proof.
  unfold SFltb. intros Hab Hbc.
  destruct (SFcompare a b) as [[]|] eqn:Eab; try done.
  destruct (SFcompare b c) as [[]|] eqn:Ebc; try done.
  by rewrite (SFcompare_lt_trans _ _ _ Eab Ebc).
Qed.

Lemma SFleb_ltb_trans a b c :
  SFleb a b = true → SFltb b c = true → SFltb a c = true.
Proof.
  unfold SFleb, SFltb. intros Hab Hbc.
  destruct (SFcompare b c) as [[]|] eqn:Ebc; try done.
  destruct (SFcompare a b) as [[]|] eqn:Eab; try done.
  - by rewrite (SFcompare_eq_lt_trans _ _ _ Eab Ebc).
  - by rewrite (SFcompare_lt_trans _ _ _ Eab Ebc).
Qed.

Lemma SFltb_leb a b : SFltb a b = true → SFleb a b = true.
Proof. unfold SFltb, SFleb. by destruct (SFcompare a b) as [[]|]. Qed.

Lemma SFleb_refl a : a ≠ S754_nan → SFleb a a = true.
Proof.
  intros Ha. unfold SFleb.
  destruct a as [[]|[]| |[] m e]; simpl; try done.
  all: rewrite Z.compare_refl;
    change (Pos.compare_cont Eq m m) with (Pos.compare m m);
    by rewrite Pos.compare_refl.
Qed.

End FloatFacts.

(** ** The operations of [ucb] *)

Section ScoreFacts.
Import Binary64.
Context (log : Z → spec_float).


Lemma float_of_int_Ok n v :
  float_of_int n = Ok v →
  v = binary_normalize prec emax n 0 false ∧ finite v.
Proof.
  unfold float_of_int.
  pose proof (binary_normalize_not_nan n 0) as Hnan.
  destruct (binary_normalize prec emax n 0 false); try done;
    by intros [= <-].
Qed.

Lemma nearest_float_above n :
  n ≠ 0 → above 1 (binary_normalize prec emax n 0 false).
Proof.
  intros Hn. destruct n as [|p|p]; [done|..]; simpl.
  - pose proof (binary_round_above false p 0 ltac:(lia)) as Habove.
    destruct (binary_round prec emax false p 0); simpl in *; try done. lia.
  - pose proof (binary_round_above true p 0 ltac:(lia)) as Habove.
    destruct (binary_round prec emax true p 0); simpl in *; try done. lia.
Qed.

Lemma nearest_float_positive n :
  1 ≤ n → signed false (binary_normalize prec emax n 0 false).
Proof.
  intros Hn. destruct n as [|p|p]; [lia| |lia]. simpl.
  apply binary_round_signed.
Qed.

Lemma float_of_int_fits n :
  1 ≤ n → n < 2 ^ 1023 →
  float_of_int n = Ok (binary_normalize prec emax n 0 false).
Proof.
  intros Hn Hlt. unfold float_of_int.
  assert (Hb : below 1024 (binary_normalize prec emax n 0 false)).
  { apply (binary_normalize_below n 0 1023); [|lia..].
    pose proof (Zdigits2_le n 1023 ltac:(lia) ltac:(lia) Hlt). lia. }
  by destruct (binary_normalize prec emax n 0 false).
Qed.


(** The quotient of two counters, the wins being less than [2^1000]
    times the visits. *)
Lemma ratio_below w v :
  v ≠ 0 → Z.abs w ≤ 2 ^ 1000 * Z.abs v →
  below 1002 (SFdiv prec emax (exact_int w) (exact_int v)).
Proof.
  intros Hv Hw.
  assert (Hd : Zdigits2 w ≤ Zdigits2 v + 1000).
  { rewrite (Zdigits2_abs w), (Zdigits2_abs v).
    rewrite <- (Zdigits2_shift (Z.abs v) 1000) by lia.
    apply Zdigits2_mono; lia. }
  destruct w as [|pw|pw]; [by destruct v| |];
    destruct v as [|pv|pv]; try done; simpl in Hd.
  - by destruct (SFdiv_finite_below false pw 0 false pv 0 1001); [lia..|].
  - by destruct (SFdiv_finite_below false pw 0 true pv 0 1001); [lia..|].
  - by destruct (SFdiv_finite_below true pw 0 false pv 0 1001); [lia..|].
  - by destruct (SFdiv_finite_below true pw 0 true pv 0 1001); [lia..|].
Qed.

Lemma int_truediv_ratio w v :
  v ≠ 0 → Z.abs w ≤ 2 ^ 1000 * Z.abs v →
  int_truediv w v = Ok (SFdiv prec emax (exact_int w) (exact_int v)).
Proof.
  intros Hv Hw. unfold int_truediv. rewrite decide_False by done.
  pose proof (ratio_below w v Hv Hw) as Hb.
  by destruct (SFdiv prec emax (exact_int w) (exact_int v)).
Qed.

Lemma win_rate_below n flag :
  visits n ≠ 0 → Z.abs (wins n) ≤ 2 ^ 1000 * Z.abs (visits n) →
  below 1004 (win_rate n flag).
Proof.
  intros Hv Hw. unfold win_rate.
  pose proof (ratio_below (wins n) (visits n) Hv Hw) as Hb.
  destruct flag; [|by eapply below_mono].
  apply (SFsub_below one _ 1002); [simpl; lia|done|lia|lia].
Qed.

(** Counters with [0 <= wins <= visits] are such. *)
Lemma counters_ratio w v :
  0 ≤ w ≤ v → Z.abs w ≤ 2 ^ 1000 * Z.abs v.
Proof.
  intros Hw. pose proof (Z.pow_pos_nonneg 2 1000 ltac:(lia) ltac:(lia)).
  rewrite !Z.abs_eq by lia. nia.
Qed.

Lemma log_ok_below l :
  log_ok l →
  (∃ s, l = S754_zero s) ∨
  ∃ m e, l = S754_finite false m e ∧ e ≤ 971 ∧
    Z.pos (digits2_pos m) + e ≤ 1001.
Proof.
  intros (Hvalid & Hle & Hlt). destruct l as [s|s| |s m e].
  - left. by exists s.
  - exfalso. destruct s; cbv in Hle; cbv in Hlt; congruence.
  - cbv in Hle. congruence.
  - right. destruct s; [cbv in Hle; congruence|].
    exists m, e. split; [reflexivity|].
    unfold valid_binary, bounded in Hvalid.
    apply andb_true_iff in Hvalid as [Hcan Hemax].
    unfold canonical_mantissa in Hcan. apply Z.eqb_eq in Hcan.
    rewrite fexp_eq in Hcan. apply Z.leb_le in Hemax.
    unfold emax, prec in Hemax.
    assert (e ≤ 948); [|lia].
    unfold SFltb, SFcompare in Hlt.
    destruct (Z.compare_spec e 948); [lia|lia|discriminate].
Qed.

(** The quotient under the square root, for a logarithm as above and
    the float of an int that is not zero. *)
Lemma quotient_below l v :
  log_ok l → finite v → above 1 v →
  below 1002 (SFdiv prec emax l v) ∧
  (signed false v →
   (∃ s, SFdiv prec emax l v = S754_zero s) ∨
   signed false (SFdiv prec emax l v)).
Proof.
  intros Hl Hfin Ha. destruct v as [sv|sv| |sv mv ev]; try done.
  simpl in Ha.
  destruct (log_ok_below l Hl) as [[s ->]|(m & e & -> & He & Ht)].
  - split; [done|]. intros _. left. by eexists.
  - destruct (SFdiv_finite_below false m e sv mv ev 1001) as [Hb Hsg];
      [lia..|].
    split; [done|]. intros Hs. simpl in Hs. subst sv. by right.
Qed.

Lemma float_sqrt_Ok x y :
  math_sqrt x = Ok y → y = SFsqrt prec emax x.
Proof. unfold math_sqrt. destruct x as [|[]| |[]]; by intros [= <-]. Qed.

Lemma float_sqrt_nonneg x :
  (∃ s, x = S754_zero s) ∨ signed false x →
  math_sqrt x = Ok (SFsqrt prec emax x).
Proof.
  intros [[s ->]|Hs]; [done|].
  destruct x as [sx|sx| |sx mx ex]; simpl in *; by subst.
Qed.

Lemma sqrt_below x y :
  below 1002 x → math_sqrt x = Ok y → below 1003 y.
Proof.
  intros Hb Hrun. destruct x as [sx|sx| |sx mx ex]; try done.
  - by injection Hrun as <-.
  - destruct sx; [done|]. injection Hrun as <-. destruct Hb as [He Ht].
    by destruct (SFsqrt_finite_below mx ex 1002) as [Hb _]; [lia..|].
Qed.

Lemma twice_below x :
  below 1003 x → below 1006 (SFmul prec emax explore_faction x).
Proof.
  intros Hb. destruct x as [sx|sx| |sx mx ex]; try done.
  destruct Hb as [He Ht].
  by destruct (SFmul_finite_below false 4503599627370496 (-51) sx mx ex 1005)
    as [Hb _]; [simpl; lia..|].
Qed.

(** The score of a node with a visit, whose wins are less than
    [2^1000] times its visits, is a finite number as soon as the square
    root has an argument that is not negative. *)
Lemma score_below n pn flag y :
  visits n ≠ 0 → Z.abs (wins n) ≤ 2 ^ 1000 * Z.abs (visits n) →
  log_ok (log (visits pn)) →
  finite (binary_normalize prec emax (visits n) 0 false) →
  math_sqrt (SFdiv prec emax (log (visits pn))
               (binary_normalize prec emax (visits n) 0 false)) = Ok y →
  below 1008 (score log n pn flag).
Proof.
  intros Hv Hw Hl Hfin Hy.
  pose proof (nearest_float_above (visits n) Hv) as Ha.
  destruct (quotient_below _ _ Hl Hfin Ha) as [Hq _].
  pose proof (sqrt_below _ _ Hq Hy) as Hsq.
  apply float_sqrt_Ok in Hy as ->.
  pose proof (twice_below _ Hsq) as He.
  pose proof (win_rate_below n flag Hv Hw) as Hwr.
  apply (SFadd_below _ _ 1006); [by eapply below_mono|done|lia|lia].
Qed.

(** ** [ucb] *)

Lemma score_unvisited (σ : store) node n flag :
  σ !! node = Some n → visits n = 0 → ucb log σ node flag = Ok inf.
Proof.
  intros Hn Hv. unfold ucb. rewrite (deref_lookup _ _ _ Hn). simpl.
  by case_decide.
Qed.


(** For a visited node whose counters fit, under a visited parent,
    [ucb] returns the score of the specification, a finite number. *)
Lemma score_visited (σ : store) node n p pn flag :
  σ !! node = Some n → parent n = Some p → σ !! p = Some pn →
  Z.abs (wins n) ≤ 2 ^ 1000 * Z.abs (visits n) →
  0 < visits n < 2 ^ 1023 →
  0 < visits pn → log_ok (log (visits pn)) →
  ucb log σ node flag = Ok (score log n pn flag) ∧
  below 1008 (score log n pn flag).
Proof.
  intros Hn Hp Hpn Hw Hv Hpv Hl.
  pose proof (float_of_int_fits (visits n) ltac:(lia) ltac:(lia)) as Hconv.
  pose proof Hconv as [_ Hfin]%float_of_int_Ok.
  pose proof (nearest_float_above (visits n) ltac:(lia)) as Ha.
  pose proof (nearest_float_positive (visits n) ltac:(lia)) as Hs.
  destruct (quotient_below _ _ Hl Hfin Ha) as [Hq Hqs].
  pose proof (float_sqrt_nonneg _ (Hqs Hs)) as Hsqrt.
  split; [|by eapply score_below; [lia|..]].
  unfold ucb. rewrite (deref_lookup _ _ _ Hn). simpl.
  rewrite decide_False by lia.
  rewrite (int_truediv_ratio (wins n) (visits n)) by (done || lia). simpl.
  rewrite Hp, (deref_lookup _ _ _ Hpn). simpl.
  unfold math_log. rewrite decide_True by done. simpl.
  unfold float_div_int. rewrite Hconv. simpl.
  assert (Hdiv : (match binary_normalize prec emax (visits n) 0 false with
                  | S754_zero _ => Raise ZeroDivisionError
                  | _ => Ok (SFdiv prec emax (log (visits pn))
                               (binary_normalize prec emax (visits n) 0 false))
                  end)
                 = Ok (SFdiv prec emax (log (visits pn))
                         (binary_normalize prec emax (visits n) 0 false))).
  { by destruct (binary_normalize prec emax (visits n) 0 false). }
  rewrite Hdiv. simpl. rewrite Hsqrt. simpl. done.
Qed.


End ScoreFacts.

(** ** The score of a node *)

Section ScoreClaim.
Import Binary64.
Context (log : Z → spec_float).


End ScoreClaim.



(** ** [max] over keys that are numbers *)

Section MaxFromOn.
Context {A K : Type} (gt : K → K → bool) (lt le : K → K → Prop).
Context (good : K → Prop).
Hypothesis gt_true : ∀ a b, gt a b = true → lt b a.
Hypothesis gt_false : ∀ a b, good a → good b → gt a b = false → le a b.
Hypothesis lt_lt : ∀ a b c, lt a b → lt b c → lt a c.
Hypothesis le_lt : ∀ a b c, le a b → lt b c → lt a c.

Lemma max_from_split_on (l before : list (A * K)) best after :
  good best.2 → (∀ y, y ∈ l → good y.2) →
  (∀ y, y ∈ before → lt y.2 best.2) →
  (∀ y, y ∈ after → le y.2 best.2) →
  ∃ pre x post,
    before ++ best :: after ++ l = pre ++ x :: post ∧
    max_from gt best l = x.1 ∧
    (∀ y, y ∈ pre → lt y.2 x.2) ∧
    (∀ y, y ∈ post → le y.2 x.2).
Proof using gt_true gt_false lt_lt le_lt.
  revert before best after.
  induction l as [|item l IH]; intros before best after Hg Hl Hb Ha.
  - exists before, best, after. by rewrite app_nil_r.
  - assert (Hitem : good item.2) by (apply Hl; by left).
    assert (Hrest : ∀ y, y ∈ l → good y.2)
      by (intros y Hy; apply Hl; by right).
    simpl. destruct (gt item.2 best.2) eqn:Hgt.
    + destruct (IH (before ++ best :: after) item []) as
        (pre & x & post & Heq & Hmax & Hpre & Hpost); [done|done| | |].
      * intros y [Hy|[->|Hy]%elem_of_cons]%elem_of_app; eauto.
      * intros y Hy. by apply elem_of_nil in Hy.
      * exists pre, x, post. split_and!; try done.
        rewrite <- Heq. by rewrite <- !app_assoc.
    + destruct (IH before best (after ++ [item])) as
        (pre & x & post & Heq & Hmax & Hpre & Hpost); [done|done|done| |].
      * intros y [Hy|Hy%list_elem_of_singleton]%elem_of_app;
          [eauto|subst; eauto].
      * exists pre, x, post. split_and!; try done.
        rewrite <- Heq. by rewrite <- !app_assoc.
Qed.

Lemma py_max_split_on (l : list (A * K)) :
  l ≠ [] → (∀ y, y ∈ l → good y.2) →
  ∃ pre x post,
    l = pre ++ x :: post ∧
    py_max gt l = Ok x.1 ∧
    (∀ y, y ∈ pre → lt y.2 x.2) ∧
    (∀ y, y ∈ post → le y.2 x.2).
Proof using gt_true gt_false lt_lt le_lt.
  destruct l as [|first l]; [done|]. intros _ Hg.
  destruct (max_from_split_on l [] first []) as
    (pre & x & post & Heq & Hmax & Hpre & Hpost).
  - apply Hg. by left.
  - intros y Hy. apply Hg. by right.
  - intros y Hy. by apply elem_of_nil in Hy.
  - intros y Hy. by apply elem_of_nil in Hy.
  - exists pre, x, post. simpl in *. by rewrite Hmax.
Qed.
End MaxFromOn.

(** ** The descent over binary64 scores *)

Section DescentFacts.
Import Binary64.
Context {State : Type} (board : Board State) (log : Z → spec_float).

Lemma descent_unfold fuel (σ : store) node state bot :
  traverse_nodes log board fuel σ node state bot =
    n ← deref σ node ;
    if negb (truthy (untried_actions n)) && truthy (child_nodes n) then
      match fuel with
      | O => OutOfFuel
      | S fuel' =>
          keyed ← mapM (λ child : ref,
                          x ← ucb log σ child (opponent_flag board bot state) ;
                          Ok (child, x))
                       (dict_values (child_nodes n)) ;
          node' ← py_max float_gt keyed ;
          n' ← deref σ node' ;
          state' ← next_state_opt board state (parent_action n') ;
          traverse_nodes log board fuel' σ node' state' bot
      end
    else Ok (node, state).
Proof. by destruct fuel. Qed.

(** The flag of the code is the comparison the specification names. *)
Lemma opponent_flag_differs bot state :
  opponent_flag board bot state
  = bool_decide (bot ≠ current_player board state).
Proof.
  unfold opponent_flag. by repeat case_bool_decide.
Qed.

(** Every child of a node gets a score, and the score is a number. *)
Lemma child_score (σ : store) node n a c flag :
  shape_ok σ → counters_ok σ → visits_ok σ → floats_ok log σ →
  σ !! node = Some n → (a, c) ∈ child_nodes n →
  ∃ x, ucb log σ c flag = Ok x ∧ x ≠ S754_nan.
Proof.
  intros Hshape Hcount Hvis Hfl Hn Hin.
  destruct (shape_child σ Hshape _ _ _ _ Hn Hin) as (cn & Hcn & Hp & Ha).
  pose proof (Hcount _ _ Hcn) as Hc.
  pose proof (Hvis _ _ _ _ Hcn Hp Hn) as Hle.
  destruct (Hfl _ _ Hcn) as [Hfit _]. destruct (Hfl _ _ Hn) as [_ Hlog].
  destruct (decide (visits cn = 0)) as [Hz|Hnz].
  - exists inf. split; [by eapply score_unvisited|done].
  - destruct (score_visited log σ c cn node n flag Hcn Hp Hn
                (counters_ratio _ _ Hc)
                ltac:(lia) ltac:(lia) (Hlog ltac:(lia))) as [Hrun Hb].
    eexists. split; [exact Hrun|].
    intros Hnan. rewrite Hnan in Hb. exact Hb.
Qed.

Lemma scored_keys (σ : store) flag (children : list ref) keyed :
  mapM (λ child : ref, x ← ucb log σ child flag ; Ok (child, x))
       children = Ok keyed →
  keyed.*1 = children ∧ ∀ y, y ∈ keyed → ucb log σ y.1 flag = Ok y.2.
Proof.
  revert keyed. induction children as [|c children IH]; intros keyed; simpl.
  - intros [= <-]. split; [done|]. intros y Hy. by apply elem_of_nil in Hy.
  - intros ([c' x] & Hc & (keyed' & Hk & [= <-])%bind_Ok)%bind_Ok.
    apply bind_Ok in Hc as (x' & Hx & [= <- <-]).
    destruct (IH _ Hk) as [Heq Hall]. split; [by rewrite fmap_cons, Heq|].
    intros y [->|Hy]%elem_of_cons; [done|by apply Hall].
Qed.

(** The child [max] returns has the greatest score and is the first to
    have it. *)
Lemma scored_first_max (σ : store) flag (children : list ref) keyed node' :
  (∀ c, c ∈ children → ∃ x, ucb log σ c flag = Ok x ∧ x ≠ S754_nan) →
  mapM (λ child : ref, x ← ucb log σ child flag ; Ok (child, x))
       children = Ok keyed →
  py_max float_gt keyed = Ok node' →
  max_ucb_child log σ flag children node'.
Proof.
  intros Hnum Hmap Hmax.
  destruct (scored_keys _ _ _ _ Hmap) as [Hfst Hkeyed].
  assert (Hgood : ∀ y, y ∈ keyed → y.2 ≠ S754_nan).
  { intros y Hy. pose proof (Hkeyed y Hy) as Hrun.
    destruct (Hnum y.1) as (x & Hx & Hne).
    - rewrite <- Hfst. apply list_elem_of_fmap. by exists y.
    - rewrite Hrun in Hx. by injection Hx as ->. }
  destruct (py_max_split_on (A := ref) float_gt
              (λ a b, SFltb a b = true) (λ a b, SFleb a b = true)
              (λ a, a ≠ S754_nan)) with (l := keyed)
    as (pre & x & post & Heq & Hx & Hpre & Hpost).
  - intros a b Hgt. exact Hgt.
  - intros a b Ha Hb Hgt. by apply SFltb_false_leb.
  - intros a b c. apply SFltb_trans.
  - intros a b c. apply SFleb_ltb_trans.
  - intros ->. done.
  - done.
  - rewrite Hx in Hmax. injection Hmax as <-.
    exists (pre.*1), (post.*1), x.2. split_and!.
    + rewrite <- Hfst, Heq. by rewrite fmap_app, fmap_cons.
    + apply Hkeyed. rewrite Heq. apply elem_of_app. right. by left.
    + intros c (y & -> & Hy)%list_elem_of_fmap. exists y.2. split.
      * apply Hkeyed. rewrite Heq. apply elem_of_app. by left.
      * by apply Hpre.
    + intros c (y & -> & Hy)%list_elem_of_fmap. exists y.2. split.
      * apply Hkeyed. rewrite Heq. apply elem_of_app. right. by right.
      * by apply Hpost.
Qed.

Lemma max_ucb_child_elem (σ : store) flag children child :
  max_ucb_child log σ flag children child → child ∈ children.
Proof.
  intros (pre & post & best & -> & _). apply elem_of_app. right. by left.
Qed.

Lemma descent_Ok fuel (σ : store) node state bot node' state' :
  shape_ok σ → counters_ok σ → visits_ok σ → floats_ok log σ →
  traverse_nodes log board fuel σ node state bot = Ok (node', state') →
  (descent_stop σ node ∧ node' = node ∧ state' = state) ∨
  ∃ fuel' child state1,
    fuel = S fuel' ∧
    descent_step log board σ bot (node, state) (child, state1) ∧
    traverse_nodes log board fuel' σ child state1 bot = Ok (node', state').
Proof.
  intros Hshape Hcount Hvis Hfl.
  rewrite descent_unfold. intros (n & Hn%deref_Ok & Hrun)%bind_Ok.
  destruct (negb (truthy (untried_actions n)) && truthy (child_nodes n))
    eqn:Hcond.
  - right. apply loop_condition in Hcond as [Hu Hc].
    destruct fuel as [|fuel']; [done|].
    apply bind_Ok in Hrun as (keyed & Hkeyed & Hrun).
    apply bind_Ok in Hrun as (child & Hmax & Hrun).
    apply bind_Ok in Hrun as (cn & Hcn%deref_Ok & Hrun).
    apply bind_Ok in Hrun as (state1 & Hnext & Hrun).
    unfold next_state_opt in Hnext.
    destruct (parent_action cn) as [a|] eqn:Ha; [|done].
    injection Hnext as <-.
    exists fuel', child, (next_state board state a). split_and!; try done.
    eapply descent_intro; eauto.
    rewrite <- opponent_flag_differs.
    eapply scored_first_max; [|done|done].
    intros c Hc'. unfold dict_values in Hc'.
    apply list_elem_of_fmap in Hc' as ([a' c'] & -> & Hin).
    exact (child_score σ node n a' c' _ Hshape Hcount Hvis Hfl Hn Hin).
  - left. apply loop_condition_false in Hcond. injection Hrun as <- <-.
    split_and!; try done. by exists n.
Qed.

(** What the descent returns is reached by descent steps and is a node
    where the descent stops. *)
Lemma descent_sound fuel (σ : store) node state bot node' state' :
  shape_ok σ → counters_ok σ → visits_ok σ → floats_ok log σ →
  traverse_nodes log board fuel σ node state bot = Ok (node', state') →
  rtc (descent_step log board σ bot) (node, state) (node', state') ∧
  descent_stop σ node'.
Proof.
  intros Hshape Hcount Hvis Hfl.
  revert node state. induction fuel as [|fuel IH]; intros node state Hrun;
    apply descent_Ok in Hrun
      as [(Hstop & -> & ->)|(fuel' & child & state1 & Hfuel & Hstep & Hrun)];
    try done.
  injection Hfuel as <-. destruct (IH _ _ Hrun) as [Hrtc Hstop].
  split; [|done]. by eapply rtc_l.
Qed.

(** A descent step moves to a child, which stands for the next state. *)
Lemma descent_step_to_child s0 (σ : store) bot node state child state' :
  shape_ok σ →
  descent_step log board σ bot (node, state) (child, state') →
  represents board s0 σ node state →
  represents board s0 σ child state'.
Proof.
  intros Hshape Hstep Hrep.
  inversion Hstep as [? n ? ? cn a Hn Hu Hc Hmax Hcn Ha]; simplify_eq.
  apply max_ucb_child_elem in Hmax. unfold dict_values in Hmax.
  apply list_elem_of_fmap in Hmax as ([a' c] & -> & Hin). simpl in *.
  destruct (shape_child σ Hshape _ _ _ _ Hn Hin) as (cn' & Hcn' & Hp & Ha').
  simplify_eq. by eapply rep_child.
Qed.

Lemma descent_stands_for s0 (σ : store) bot x y :
  shape_ok σ →
  rtc (descent_step log board σ bot) x y →
  represents board s0 σ x.1 x.2 →
  represents board s0 σ y.1 y.2.
Proof.
  intros Hshape. induction 1 as [|[n s] [n' s'] z Hstep _ IH]; [done|].
  intros Hrep. apply IH. simpl in *. by eapply descent_step_to_child.
Qed.

(** The descent from a node ends within as many turns as there are
    younger nodes. *)
Lemma descent_total fuel (σ : store) node state bot :
  shape_ok σ → counters_ok σ → visits_ok σ → floats_ok log σ →
  is_Some (σ !! node) →
  (length σ - node ≤ S fuel)%nat →
  ∃ node' state', traverse_nodes log board fuel σ node state bot
                  = Ok (node', state').
Proof.
  intros Hshape Hcount Hvis Hfl. revert node state.
  assert (Hyounger : ∀ node n a c,
            σ !! node = Some n → (a, c) ∈ child_nodes n →
            ∃ cn, σ !! c = Some cn ∧ parent_action cn = Some a ∧
                  (node < c < length σ)%nat).
  { intros node n a c Hn Hin.
    destruct (shape_child σ Hshape _ _ _ _ Hn Hin) as (cn & Hcn & Hp & Ha).
    exists cn. split_and!; try done; [|by eapply lookup_lt_Some].
    assert (c ≠ 0%nat).
    { intros ->. destruct (shape_root σ Hshape) as (r & Hr & Hpr).
      simplify_eq. }
    destruct (shape_parent σ Hshape _ _ Hcn) as (p & Hp' & Hlt); [done|].
    by simplify_eq. }
  induction fuel as [|fuel IH]; intros node state [n Hn] Hfuel;
    rewrite descent_unfold, (deref_lookup _ _ _ Hn); simpl;
    (destruct (negb (truthy (untried_actions n)) && truthy (child_nodes n))
       eqn:Hcond; [|by eauto]);
    apply loop_condition in Hcond as [Hu Hc].
  - exfalso. destruct (child_nodes n) as [|[a c] d] eqn:Hd; [done|].
    destruct (Hyounger node n a c Hn) as (cn & _ & _ & Hlt).
    { rewrite Hd. by left. }
    lia.
  - assert (Hnum : ∀ c, c ∈ dict_values (child_nodes n) →
              ∃ x, ucb log σ c (opponent_flag board bot state) = Ok x
                   ∧ x ≠ S754_nan).
    { intros c Hc'. unfold dict_values in Hc'.
      apply list_elem_of_fmap in Hc' as ([a c'] & -> & Hin).
      exact (child_score σ node n a c' _ Hshape Hcount Hvis Hfl Hn Hin). }
    destruct (mapM_total
                (λ child : ref,
                   x ← ucb log σ child (opponent_flag board bot state) ;
                   Ok (child, x))
                (dict_values (child_nodes n))) as [keyed Hkeyed].
    { intros c Hc'. destruct (Hnum c Hc') as (x & Hx & _).
      exists (c, x). simpl. by rewrite Hx. }
    rewrite Hkeyed. simpl.
    assert (Hmax : ∃ child, py_max float_gt keyed = Ok child).
    { destruct keyed as [|first keyed']; [|by eexists].
      apply mapM_Forall2, Forall2_length in Hkeyed.
      unfold dict_values in Hkeyed. rewrite length_fmap in Hkeyed.
      by destruct (child_nodes n). }
    destruct Hmax as [child Hmax]. rewrite Hmax. simpl.
    pose proof (max_ucb_child_elem _ _ _ _
                  (scored_first_max _ _ _ _ _ Hnum Hkeyed Hmax)) as Hin.
    unfold dict_values in Hin.
    apply list_elem_of_fmap in Hin as ([a c'] & -> & Hin). simpl.
    destruct (Hyounger node n a c' Hn Hin) as (cn & Hcn & Ha & Hlt).
    rewrite (deref_lookup _ _ _ Hcn). simpl. rewrite Ha. simpl.
    apply IH; [by eexists|lia].
Qed.

(** C2. On a tree of well-formed counters ([0 <= wins <= visits], no
    node with more visits than its parent, visit counts and logarithms
    that binary64 holds), the descent from the root with the current
    state returns; the node it returns is reached from the root by
    steps that each leave a node without untried action and with a
    child for the child of greatest UCB score (the first of them in the
    order of the children mapping), scored from the opponent's
    perspective exactly when the bot's identity differs from the player
    to move at the state before the move, and advance the state along
    that child's [parent_action]; the node returned has an untried
    action or no child, and the state returned is the one it stands
    for. *)
Theorem traverse_nodes_descent (σ : store) s0 bot :
  shape_ok σ → counters_ok σ → visits_ok σ → floats_ok log σ →
  (∃ node state,
     traverse_nodes log board (length σ) σ root_node s0 bot
     = Ok (node, state)) ∧
  (∀ fuel node state,
     traverse_nodes log board fuel σ root_node s0 bot = Ok (node, state) →
     rtc (descent_step log board σ bot) (root_node, s0) (node, state) ∧
     descent_stop σ node ∧
     represents board s0 σ node state).
Proof.
  intros Hshape Hcount Hvis Hfl.
  destruct (shape_root σ Hshape) as (r & Hr & Hpr). split.
  - apply descent_total;
      [done|done|done|done|by eexists|unfold root_node; lia].
  - intros fuel node state Hrun.
    destruct (descent_sound _ _ _ _ _ _ _ Hshape Hcount Hvis Hfl Hrun)
      as [Hrtc Hstop].
    split_and!; try done.
    apply (descent_stands_for s0 σ bot (root_node, s0) (node, state));
      try done.
    simpl. by eapply rep_root.
Qed.

End DescentFacts.

Lemma small_tree_floats : Binary64.floats_ok Binary64.log_table small_tree.
Proof.
  intros [|[|[|i]]] n Hi; simplify_eq/=;
    (split; [reflexivity|intros _; split_and!; vm_compute; reflexivity]).
Qed.

Lemma traverse_nodes_descent_witness :
  Binary64.traverse_nodes Binary64.log_table countdown 3 small_tree
    root_node 2%nat 1 = Ok (1%nat, 1%nat) ∧
  (∃ node state,
     Binary64.traverse_nodes Binary64.log_table countdown
       (length small_tree) small_tree root_node 2%nat 1
     = Ok (node, state)) ∧
  (∀ fuel node state,
     Binary64.traverse_nodes Binary64.log_table countdown fuel small_tree
       root_node 2%nat 1 = Ok (node, state) →
     rtc (Binary64.descent_step Binary64.log_table countdown small_tree 1)
         (root_node, 2%nat) (node, state) ∧
     descent_stop small_tree node ∧
     represents countdown 2%nat small_tree node state).
Proof.
  split; [vm_compute; reflexivity|].
  apply (traverse_nodes_descent countdown Binary64.log_table small_tree
           2%nat 1).
  - exact small_tree_shape.
  - exact small_tree_counters.
  - exact small_tree_visits.
  - exact small_tree_floats.
Defined.

(** The scenario tree: the children score about 2.646, 1.576 and 3.035
    from the bot's perspective, and the descent takes the third. *)
Example descent_takes_best_score :
  mapM (λ child : ref,
          x ← Binary64.ucb Binary64.log_table scenario_tree child false ;
          Ok (child, x)) [1%nat; 2%nat; 3%nat]
  = Ok [ (1%nat, S754_finite false 5958185805015848 (-51));
         (2%nat, S754_finite false 7096045047702611 (-52));
         (3%nat, S754_finite false 6833884254460827 (-51)) ] ∧
  Binary64.traverse_nodes Binary64.log_table countdown 1 scenario_tree
    root_node 4%nat 1 = Ok (3%nat, 3%nat).
Proof. split; vm_compute; reflexivity. Qed.

(** ** The scores in the trees of a search *)

Section SearchScores.
Import Binary64.
Context {State : Type} (board : Board State) (log : Z → spec_float).




End SearchScores.

